(** * Keppel: vulnerability statuses, pagination, storage cleanup,
      rate limiting, the blob-mount sweeper, drivers, peering and the
      registry client

    A shallow embedding of the parts of Keppel that its specification
    describes in detail, with the properties C1 to C10 of the specification
    stated and proved over the embedding, and with further properties X1 to
    X25 that the code shows, of these parts and of the code around them.

    - [Clair]: the [VulnerabilityStatus] enumeration, [sevMap], [HasReport]
      and [MergeVulnerabilityStatuses] (package clair).
    - [Pagination]: [paginatedQuery.Prepare] (package keppelv1 API).
    - [Filesystem]: [ListStorageContents] and [CleanupAccount] of the
      filesystem storage driver.
    - [RateLimit]: [RateLimitEngine.RateLimitAllows].
    - [Tasks]: the janitor's [SweepBlobMountsInNextRepo] together with the
      five SQL statements it issues.
    - [GoStrings]: [strings.Split], [strings.SplitN], [strings.Join] and
      [strings.TrimSpace] as the code below uses them.
    - [Drivers]: [BuildBasicAuthHeader] and the registries of auth drivers
      and rate-limit drivers (package keppel).
    - [TestAuth]: the auth driver [unittest] of the API tests.
    - [Peering]: [runPeering] and [tryIssueNewPasswordForPeer] of the API
      command.
    - [Client]: [DownloadBlob] and [DownloadManifest] (package client). *)

From Stdlib Require Import ZArith NArith Lia Bool Ascii String DecimalString.
From stdpp Require Import base option list strings gmap fin_maps.

Local Open Scope string_scope.
Local Open Scope nat_scope.

(** Membership in, and absence from, a list given by its elements. *)
Ltac elem_of_literal :=
  repeat first [apply list_elem_of_here | apply list_elem_of_further].

Ltac not_elem_of_literal :=
  let H := fresh "Hin" in
  intros H; cbv [app] in H;
  repeat (apply elem_of_cons in H as [H|H]; [discriminate H|]);
  by apply elem_of_nil in H.

(* ===================================================================== *)
(** ** Package clair: vulnerability statuses                              *)
(* ===================================================================== *)

Module Clair.

(** [type VulnerabilityStatus string] *)
Abbreviation VulnerabilityStatus := string (only parsing).

Definition ErrorVulnerabilityStatus : VulnerabilityStatus := "Error".
Definition PendingVulnerabilityStatus : VulnerabilityStatus := "Pending".
Definition UnsupportedVulnerabilityStatus : VulnerabilityStatus := "Unsupported".
Definition CleanSeverity : VulnerabilityStatus := "Clean".
Definition UnknownSeverity : VulnerabilityStatus := "Unknown".
Definition NegligibleSeverity : VulnerabilityStatus := "Negligible".
Definition LowSeverity : VulnerabilityStatus := "Low".
Definition MediumSeverity : VulnerabilityStatus := "Medium".
Definition HighSeverity : VulnerabilityStatus := "High".
Definition CriticalSeverity : VulnerabilityStatus := "Critical".
Definition Defcon1Severity : VulnerabilityStatus := "Defcon1".

(** The literal of [var sevMap = map[VulnerabilityStatus]uint{...}], entry
    by entry. *)
Definition sevTable : list (string * nat) :=
  [ (ErrorVulnerabilityStatus, 0);
    (PendingVulnerabilityStatus, 0);
    (UnsupportedVulnerabilityStatus, 0);
    (CleanSeverity, 1);
    (UnknownSeverity, 2);
    (NegligibleSeverity, 3);
    (LowSeverity, 4);
    (MediumSeverity, 5);
    (HighSeverity, 6);
    (CriticalSeverity, 7);
    (Defcon1Severity, 8) ].

Definition sevMap : gmap string nat := list_to_map sevTable.

(** Go's index expression [sevMap[s]]: the zero value when [s] is no key. *)
Definition sevIndex (s : VulnerabilityStatus) : nat := default 0 (sevMap !! s).
#[global] Arguments sevIndex : simpl never.

(** [func (s VulnerabilityStatus) HasReport() bool] *)
Definition HasReport (s : VulnerabilityStatus) : bool := 0 <? sevIndex s.

(** The state of the first loop of [MergeVulnerabilityStatuses]: the map
    [hasSpecialSeverity] and the variable [result]. *)
Definition mergeState : Type := gmap string bool * string.

(** One iteration of [for _, s := range sevs]. *)
Definition mergeStep (st : mergeState) (s : VulnerabilityStatus) : mergeState :=
  if sevIndex s =? 0 then (<[s := true]> (st.1), st.2)
  else if sevIndex (st.2) <? sevIndex s then (st.1, s)
  else st.

(** [overrides]: the special statuses in their priority order. *)
Definition overrides : list VulnerabilityStatus :=
  [ ErrorVulnerabilityStatus;
    UnsupportedVulnerabilityStatus;
    PendingVulnerabilityStatus ].

(** The second loop: the first override [s] with [hasSpecialSeverity[s]]
    true (a missing key reads as [false]). *)
Fixpoint firstOverride (hasSpecialSeverity : gmap string bool)
    (ovs : list VulnerabilityStatus) : option VulnerabilityStatus :=
  match ovs with
  | [] => None
  | s :: rest =>
      if default false (hasSpecialSeverity !! s) then Some s
      else firstOverride hasSpecialSeverity rest
  end.

(** [func MergeVulnerabilityStatuses(sevs ...VulnerabilityStatus)
     VulnerabilityStatus] *)
Definition MergeVulnerabilityStatuses (sevs : list VulnerabilityStatus)
    : VulnerabilityStatus :=
  let st := foldl mergeStep (∅, CleanSeverity) sevs in
  match firstOverride (st.1) overrides with
  | Some s => s
  | None => st.2
  end.

(** *** Notions that the properties are stated with *)

(** The eight ordered severities, lowest first, and the eleven statuses of
    the enumeration. *)
Definition severities : list VulnerabilityStatus :=
  [ CleanSeverity; UnknownSeverity; NegligibleSeverity; LowSeverity;
    MediumSeverity; HighSeverity; CriticalSeverity; Defcon1Severity ].

Definition specialStatuses : list VulnerabilityStatus :=
  [ ErrorVulnerabilityStatus; PendingVulnerabilityStatus;
    UnsupportedVulnerabilityStatus ].

Definition allStatuses : list VulnerabilityStatus :=
  specialStatuses ++ severities.

(** The severity order of the specification: [a] is strictly below [b]. *)
Definition sevLt (a b : VulnerabilityStatus) : Prop :=
  0 < sevIndex a ∧ sevIndex a < sevIndex b.

(** The flag that the second loop reads: [hasSpecialSeverity[x]]. *)
Definition flagged (hs : gmap string bool) (x : VulnerabilityStatus) : bool :=
  default false (hs !! x).

(** The highest individual severity of [sevs]: [r] has a report, is
    [CleanSeverity] or one of the inputs, and no input ranks above it. *)
Definition highestSeverity (sevs : list VulnerabilityStatus)
    (r : VulnerabilityStatus) : Prop :=
  r ∈ severities
  ∧ (r = CleanSeverity ∨ r ∈ sevs)
  ∧ (∀ s, s ∈ sevs → sevIndex s ≤ sevIndex r)
  ∧ ((∃ s, s ∈ sevs ∧ s ∈ severities) → r ∈ sevs).

(** The priority that the merge gives a status: the severities by
    [sevMap], above them Pending, Unsupported and Error; a string that is
    no status counts for nothing. *)
Definition priority (s : VulnerabilityStatus) : nat :=
  if String.eqb s ErrorVulnerabilityStatus then 11
  else if String.eqb s UnsupportedVulnerabilityStatus then 10
  else if String.eqb s PendingVulnerabilityStatus then 9
  else sevIndex s.

Definition maxPriority (sevs : list VulnerabilityStatus) : nat :=
  foldr (λ s acc, priority s `max` acc) 1 sevs.

(** The laws of the merge, checked at one triple of statuses. *)
Definition mergeLawsAt (a b c : VulnerabilityStatus) : bool :=
  String.eqb (MergeVulnerabilityStatuses [a; b])
             (MergeVulnerabilityStatuses [b; a])
  && String.eqb
       (MergeVulnerabilityStatuses [MergeVulnerabilityStatuses [a; b]; c])
       (MergeVulnerabilityStatuses [a; MergeVulnerabilityStatuses [b; c]])
  && String.eqb (MergeVulnerabilityStatuses [a; b; c])
                (MergeVulnerabilityStatuses [MergeVulnerabilityStatuses [a; b]; c])
  && String.eqb (MergeVulnerabilityStatuses [a]) a.

(** *** Cases of the unit test [TestMergeVulnerabilityStatuses] *)

Example test_merge_empty : MergeVulnerabilityStatuses [] = CleanSeverity.
Proof. reflexivity. Qed.

Example test_merge_error_high :
  MergeVulnerabilityStatuses [ErrorVulnerabilityStatus; HighSeverity]
  = ErrorVulnerabilityStatus.
Proof. vm_compute. reflexivity. Qed.

Example test_merge_pending_unsupported :
  MergeVulnerabilityStatuses
    [PendingVulnerabilityStatus; UnsupportedVulnerabilityStatus]
  = UnsupportedVulnerabilityStatus.
Proof. vm_compute. reflexivity. Qed.

Example test_merge_low_high :
  MergeVulnerabilityStatuses [LowSeverity; HighSeverity] = HighSeverity.
Proof. vm_compute. reflexivity. Qed.

(** *** Facts about [sevMap] *)

Lemma sevIndex_severity (s : VulnerabilityStatus) :
  0 < sevIndex s → s ∈ severities.
Proof.
  unfold sevIndex. intros Hpos.
  destruct (sevMap !! s) as [n|] eqn:Hlook; simpl in Hpos; [|lia].
  apply elem_of_list_to_map_2 in Hlook.
  unfold sevTable in Hlook.
  repeat (apply elem_of_cons in Hlook as [Heq|Hlook];
          [injection Heq as -> ->; try lia; unfold severities;
           repeat first [apply list_elem_of_here | apply list_elem_of_further]|]).
  by apply elem_of_nil in Hlook.
Qed.

Lemma sevIndex_unlisted (s : VulnerabilityStatus) :
  s ∉ allStatuses → sevIndex s = 0.
Proof.
  intros Hout. unfold sevIndex, sevMap.
  rewrite (not_elem_of_list_to_map_1 sevTable s); [done|].
  intros Hin. apply Hout. exact Hin.
Qed.

(** *** The first loop *)

Lemma foldl_mergeStep_flagged (sevs : list VulnerabilityStatus) :
  ∀ (st : mergeState) (x : VulnerabilityStatus),
    flagged (foldl mergeStep st sevs).1 x = true
    ↔ flagged st.1 x = true ∨ (x ∈ sevs ∧ sevIndex x = 0).
Proof.
  induction sevs as [|s sevs IH]; intros st x; simpl.
  - split; [by left|]. intros [H|[H _]]; [done|]. by apply elem_of_nil in H.
  - rewrite IH. unfold mergeStep, flagged.
    destruct (sevIndex s =? 0) eqn:Hz; cbn [fst snd].
    + apply Nat.eqb_eq in Hz.
      destruct (decide (s = x)) as [->|Hne].
      * rewrite lookup_insert_eq. cbn [default]. split; [|by left].
        intros _. right. split; [apply list_elem_of_here|exact Hz].
      * rewrite lookup_insert_ne by done. rewrite elem_of_cons.
        split; (intros [Hfl|[Hin H0]]; [by left|right]).
        -- split; [by right|exact H0].
        -- split; [|exact H0]. destruct Hin as [->|Hin]; [contradiction|done].
    + apply Nat.eqb_neq in Hz.
      assert (Hx : x ∈ s :: sevs ∧ sevIndex x = 0 ↔ x ∈ sevs ∧ sevIndex x = 0).
      { rewrite elem_of_cons. split; [|tauto].
        intros [[->|Hin] H0]; [contradiction|done]. }
      rewrite Hx. destruct (sevIndex st.2 <? sevIndex s); cbn [fst snd]; tauto.
Qed.

Lemma foldl_mergeStep_result (sevs : list VulnerabilityStatus) :
  ∀ (st : mergeState),
    ((foldl mergeStep st sevs).2 = st.2 ∨ (foldl mergeStep st sevs).2 ∈ sevs)
    ∧ sevIndex st.2 ≤ sevIndex (foldl mergeStep st sevs).2
    ∧ (∀ s, s ∈ sevs → sevIndex s ≤ sevIndex (foldl mergeStep st sevs).2).
Proof.
  induction sevs as [|s sevs IH]; intros st; simpl.
  - split; [by left|]. split; [done|]. intros s Hs. by apply elem_of_nil in Hs.
  - destruct (IH (mergeStep st s)) as (Hsel & Hmono & Hmax).
    assert (Hstep : ((mergeStep st s).2 = st.2 ∨ (mergeStep st s).2 = s)
                    ∧ sevIndex st.2 ≤ sevIndex (mergeStep st s).2
                    ∧ sevIndex s ≤ sevIndex (mergeStep st s).2).
    { unfold mergeStep.
      destruct (sevIndex s =? 0) eqn:Hz; cbn [fst snd].
      - apply Nat.eqb_eq in Hz. split; [by left|]. lia.
      - destruct (sevIndex st.2 <? sevIndex s) eqn:Hlt; cbn [fst snd].
        + apply Nat.ltb_lt in Hlt. split; [by right|]. lia.
        + apply Nat.ltb_ge in Hlt. split; [by left|]. lia. }
    destruct Hstep as (Hsel1 & Hmono1 & Hmax1).
    split; [|split].
    + destruct Hsel as [Heq|Hin]; [|right; by apply list_elem_of_further].
      rewrite Heq. destruct Hsel1 as [->| ->]; [by left|right].
      apply list_elem_of_here.
    + lia.
    + intros s' [->|Hin]%elem_of_cons; [lia|by apply Hmax].
Qed.

(** *** The second loop *)

Lemma firstOverride_overrides (hs : gmap string bool) :
  firstOverride hs overrides =
    if flagged hs ErrorVulnerabilityStatus then Some ErrorVulnerabilityStatus
    else if flagged hs UnsupportedVulnerabilityStatus
         then Some UnsupportedVulnerabilityStatus
    else if flagged hs PendingVulnerabilityStatus
         then Some PendingVulnerabilityStatus
    else None.
Proof. reflexivity. Qed.

Lemma flagged_special (sevs : list VulnerabilityStatus) (x : VulnerabilityStatus) :
  x ∈ specialStatuses →
  flagged (foldl mergeStep (∅, CleanSeverity) sevs).1 x = true ↔ x ∈ sevs.
Proof.
  intros Hx. rewrite foldl_mergeStep_flagged. simpl.
  assert (H0 : sevIndex x = 0).
  { unfold specialStatuses in Hx.
    repeat (apply elem_of_cons in Hx as [->|Hx]; [vm_compute; reflexivity|]).
    by apply elem_of_nil in Hx. }
  unfold flagged at 1. rewrite lookup_empty. simpl.
  split; [|intros Hin; by right].
  intros [Hf|[Hin _]]; [discriminate|exact Hin].
Qed.

Lemma flagged_special_false (sevs : list VulnerabilityStatus) (x : VulnerabilityStatus) :
  x ∈ specialStatuses → x ∉ sevs →
  flagged (foldl mergeStep (∅, CleanSeverity) sevs).1 x = false.
Proof.
  intros Hx Hout. apply not_true_is_false. intros Hf.
  apply Hout. by apply (flagged_special sevs x Hx).
Qed.

Lemma merge_result_highest (sevs : list VulnerabilityStatus) :
  highestSeverity sevs (foldl mergeStep (∅, CleanSeverity) sevs).2.
Proof.
  destruct (foldl_mergeStep_result sevs (∅, CleanSeverity)) as (Hsel & Hmono & Hmax).
  simpl in Hsel, Hmono.
  assert (Hpos : 0 < sevIndex (foldl mergeStep (∅, CleanSeverity) sevs).2).
  { change (sevIndex CleanSeverity) with 1 in Hmono. lia. }
  split; [by apply sevIndex_severity|].
  split; [exact Hsel|]. split; [exact Hmax|].
  intros (s & Hin & Hsev).
  destruct Hsel as [Heq|Hin']; [|done].
  rewrite Heq in Hmax |- *.
  specialize (Hmax s Hin). change (sevIndex CleanSeverity) with 1 in Hmax.
  unfold severities in Hsev.
  repeat (apply elem_of_cons in Hsev as [->|Hsev];
          [first [exact Hin | vm_compute in Hmax; lia]|]).
  by apply elem_of_nil in Hsev.
Qed.

(** *** [HasReport] *)

Lemma HasReport_severity (s : VulnerabilityStatus) :
  s ∈ severities → HasReport s = true.
Proof.
  unfold severities. intros Hs.
  repeat (apply elem_of_cons in Hs as [->|Hs]; [vm_compute; reflexivity|]).
  by apply elem_of_nil in Hs.
Qed.

(** C9. [HasReport] answers true exactly on the eight ordered severities
    Clean, Unknown, Negligible, Low, Medium, High, Critical and Defcon1; it
    answers false on Error, Pending and Unsupported, and on every string
    that is not one of the eleven enumerated statuses, because the lookup
    in [sevMap] then yields the zero value. *)
Theorem HasReport_exactly_severities (s : VulnerabilityStatus) :
  (HasReport s = true ↔ s ∈ severities)
  ∧ (s ∈ specialStatuses → HasReport s = false)
  ∧ (s ∉ allStatuses → HasReport s = false ∧ sevMap !! s = None).
Proof.
  split; [split|split].
  - unfold HasReport. intros Hpos. apply Nat.ltb_lt in Hpos.
    by apply sevIndex_severity.
  - apply HasReport_severity.
  - unfold specialStatuses. intros Hs.
    repeat (apply elem_of_cons in Hs as [->|Hs]; [vm_compute; reflexivity|]).
    by apply elem_of_nil in Hs.
  - intros Hout. split.
    + unfold HasReport. by rewrite sevIndex_unlisted.
    + unfold sevMap. apply not_elem_of_list_to_map_1. exact Hout.
Qed.

Lemma HasReport_exactly_severities_witness :
  HasReport HighSeverity = true
  ∧ HasReport PendingVulnerabilityStatus = false
  ∧ HasReport "Bogus" = false.
Proof.
  split; [|split].
  - apply (proj1 (HasReport_exactly_severities HighSeverity)).
    unfold severities. elem_of_literal.
  - apply (proj1 (proj2 (HasReport_exactly_severities PendingVulnerabilityStatus))).
    unfold specialStatuses. elem_of_literal.
  - apply (proj2 (proj2 (HasReport_exactly_severities "Bogus"))).
    unfold allStatuses, specialStatuses, severities. not_elem_of_literal.
Defined.

(** *** [MergeVulnerabilityStatuses] *)

(** The severity order of the specification is the order of [sevMap]. *)
Lemma severity_chain :
  sevLt CleanSeverity UnknownSeverity
  ∧ sevLt UnknownSeverity NegligibleSeverity
  ∧ sevLt NegligibleSeverity LowSeverity
  ∧ sevLt LowSeverity MediumSeverity
  ∧ sevLt MediumSeverity HighSeverity
  ∧ sevLt HighSeverity CriticalSeverity
  ∧ sevLt CriticalSeverity Defcon1Severity.
Proof. unfold sevLt. vm_compute. repeat split; lia. Qed.

Lemma Merge_unfold (sevs : list VulnerabilityStatus) :
  MergeVulnerabilityStatuses sevs =
    let st := foldl mergeStep (∅, CleanSeverity) sevs in
    if flagged st.1 ErrorVulnerabilityStatus then ErrorVulnerabilityStatus
    else if flagged st.1 UnsupportedVulnerabilityStatus
         then UnsupportedVulnerabilityStatus
    else if flagged st.1 PendingVulnerabilityStatus
         then PendingVulnerabilityStatus
    else st.2.
Proof.
  unfold MergeVulnerabilityStatuses. cbv zeta.
  rewrite firstOverride_overrides.
  repeat (match goal with |- context [if ?b then _ else _] => destruct b end;
          try reflexivity).
Qed.

Lemma special_Error : ErrorVulnerabilityStatus ∈ specialStatuses.
Proof. apply list_elem_of_here. Qed.

Lemma special_Pending : PendingVulnerabilityStatus ∈ specialStatuses.
Proof. apply list_elem_of_further, list_elem_of_here. Qed.

Lemma special_Unsupported : UnsupportedVulnerabilityStatus ∈ specialStatuses.
Proof. do 2 apply list_elem_of_further. apply list_elem_of_here. Qed.

(** The four cases of the merge, one of which applies to any input. *)
Lemma MergeVulnerabilityStatuses_cases (sevs : list VulnerabilityStatus) :
  ((ErrorVulnerabilityStatus ∈ sevs)
   ∧ MergeVulnerabilityStatuses sevs = ErrorVulnerabilityStatus)
  ∨ ((ErrorVulnerabilityStatus ∉ sevs)
     ∧ (UnsupportedVulnerabilityStatus ∈ sevs)
     ∧ MergeVulnerabilityStatuses sevs = UnsupportedVulnerabilityStatus)
  ∨ ((ErrorVulnerabilityStatus ∉ sevs)
     ∧ (UnsupportedVulnerabilityStatus ∉ sevs)
     ∧ (PendingVulnerabilityStatus ∈ sevs)
     ∧ MergeVulnerabilityStatuses sevs = PendingVulnerabilityStatus)
  ∨ ((ErrorVulnerabilityStatus ∉ sevs)
     ∧ (UnsupportedVulnerabilityStatus ∉ sevs)
     ∧ (PendingVulnerabilityStatus ∉ sevs)
     ∧ highestSeverity sevs (MergeVulnerabilityStatuses sevs)).
Proof.
  rewrite Merge_unfold. cbv zeta.
  destruct (decide (ErrorVulnerabilityStatus ∈ sevs)) as [HE|HE].
  { left. split; [done|].
    by rewrite (proj2 (flagged_special sevs _ special_Error) HE). }
  rewrite (flagged_special_false sevs _ special_Error HE).
  destruct (decide (UnsupportedVulnerabilityStatus ∈ sevs)) as [HU|HU].
  { right; left. split; [done|]. split; [done|].
    by rewrite (proj2 (flagged_special sevs _ special_Unsupported) HU). }
  rewrite (flagged_special_false sevs _ special_Unsupported HU).
  destruct (decide (PendingVulnerabilityStatus ∈ sevs)) as [HP|HP].
  { right; right; left. split; [done|]. split; [done|]. split; [done|].
    by rewrite (proj2 (flagged_special sevs _ special_Pending) HP). }
  rewrite (flagged_special_false sevs _ special_Pending HP).
  right; right; right. split; [done|]. split; [done|]. split; [done|].
  apply merge_result_highest.
Qed.

(** C3. [MergeVulnerabilityStatuses] returns Error if any input is Error;
    otherwise Unsupported if any input is Unsupported; otherwise Pending if
    any input is Pending; otherwise the highest input severity under the
    order Clean < Unknown < Negligible < Low < Medium < High < Critical <
    Defcon1; and Clean for the empty input. *)
Theorem MergeVulnerabilityStatuses_spec (sevs : list VulnerabilityStatus) :
  (ErrorVulnerabilityStatus ∈ sevs →
     MergeVulnerabilityStatuses sevs = ErrorVulnerabilityStatus)
  ∧ (ErrorVulnerabilityStatus ∉ sevs →
     UnsupportedVulnerabilityStatus ∈ sevs →
     MergeVulnerabilityStatuses sevs = UnsupportedVulnerabilityStatus)
  ∧ (ErrorVulnerabilityStatus ∉ sevs →
     UnsupportedVulnerabilityStatus ∉ sevs →
     PendingVulnerabilityStatus ∈ sevs →
     MergeVulnerabilityStatuses sevs = PendingVulnerabilityStatus)
  ∧ (ErrorVulnerabilityStatus ∉ sevs →
     UnsupportedVulnerabilityStatus ∉ sevs →
     PendingVulnerabilityStatus ∉ sevs →
     highestSeverity sevs (MergeVulnerabilityStatuses sevs))
  ∧ MergeVulnerabilityStatuses [] = CleanSeverity
  ∧ (sevLt CleanSeverity UnknownSeverity
     ∧ sevLt UnknownSeverity NegligibleSeverity
     ∧ sevLt NegligibleSeverity LowSeverity
     ∧ sevLt LowSeverity MediumSeverity
     ∧ sevLt MediumSeverity HighSeverity
     ∧ sevLt HighSeverity CriticalSeverity
     ∧ sevLt CriticalSeverity Defcon1Severity).
Proof.
  pose proof (flagged_special sevs _ special_Error) as HE.
  pose proof (flagged_special sevs _ special_Unsupported) as HU.
  pose proof (flagged_special sevs _ special_Pending) as HP.
  split; [|split; [|split; [|split; [|split]]]].
  - intros Hin. rewrite Merge_unfold. cbv zeta.
    apply HE in Hin. by rewrite Hin.
  - intros HnE Hin. rewrite Merge_unfold. cbv zeta.
    rewrite (flagged_special_false sevs _ special_Error HnE).
    apply HU in Hin. by rewrite Hin.
  - intros HnE HnU Hin. rewrite Merge_unfold. cbv zeta.
    rewrite (flagged_special_false sevs _ special_Error HnE).
    rewrite (flagged_special_false sevs _ special_Unsupported HnU).
    apply HP in Hin. by rewrite Hin.
  - intros HnE HnU HnP. rewrite Merge_unfold. cbv zeta.
    rewrite (flagged_special_false sevs _ special_Error HnE).
    rewrite (flagged_special_false sevs _ special_Unsupported HnU).
    rewrite (flagged_special_false sevs _ special_Pending HnP).
    apply merge_result_highest.
  - reflexivity.
  - exact severity_chain.
Qed.

Lemma MergeVulnerabilityStatuses_spec_witness :
  MergeVulnerabilityStatuses
    [CleanSeverity; HighSeverity; PendingVulnerabilityStatus;
     ErrorVulnerabilityStatus] = ErrorVulnerabilityStatus
  ∧ MergeVulnerabilityStatuses
      [HighSeverity; UnsupportedVulnerabilityStatus;
       PendingVulnerabilityStatus] = UnsupportedVulnerabilityStatus
  ∧ MergeVulnerabilityStatuses
      [CleanSeverity; HighSeverity; PendingVulnerabilityStatus]
    = PendingVulnerabilityStatus
  ∧ highestSeverity [LowSeverity; HighSeverity]
      (MergeVulnerabilityStatuses [LowSeverity; HighSeverity]).
Proof.
  split; [|split; [|split]].
  - apply (proj1 (MergeVulnerabilityStatuses_spec _)). elem_of_literal.
  - apply (proj1 (proj2 (MergeVulnerabilityStatuses_spec _)));
      [not_elem_of_literal | elem_of_literal].
  - apply (proj1 (proj2 (proj2 (MergeVulnerabilityStatuses_spec _))));
      [not_elem_of_literal | not_elem_of_literal | elem_of_literal].
  - apply (proj1 (proj2 (proj2 (proj2 (MergeVulnerabilityStatuses_spec _)))));
      not_elem_of_literal.
Defined.

(** [sevMap] ranks no two severities alike, so the highest severity of an
    input list is determined by [highestSeverity]. *)
Lemma sevIndex_injective (a b : VulnerabilityStatus) :
  a ∈ severities → b ∈ severities → sevIndex a = sevIndex b → a = b.
Proof.
  unfold severities. intros Ha Hb.
  repeat (apply elem_of_cons in Ha as [->|Ha];
          [repeat (apply elem_of_cons in Hb as [->|Hb];
                   [vm_compute; intros Heq; first [reflexivity | discriminate Heq]|]);
           by apply elem_of_nil in Hb|]).
  by apply elem_of_nil in Ha.
Qed.

Lemma highestSeverity_unique (sevs : list VulnerabilityStatus)
    (r r' : VulnerabilityStatus) :
  highestSeverity sevs r → highestSeverity sevs r' → r = r'.
Proof.
  intros (Hs & Hsel & Hmax & Hex) (Hs' & Hsel' & Hmax' & Hex').
  assert (Hboth : r ∈ sevs → r' ∈ sevs → r = r').
  { intros Hin Hin'. apply sevIndex_injective; [done|done|].
    specialize (Hmax r' Hin'). specialize (Hmax' r Hin). lia. }
  destruct Hsel as [->|Hin], Hsel' as [->|Hin'].
  - reflexivity.
  - apply Hboth; [|done]. apply Hex. by exists r'.
  - apply Hboth; [done|]. apply Hex'. by exists r.
  - by apply Hboth.
Qed.

(** *** The merge as a maximum *)

Lemma sevIndex_le_8 (s : VulnerabilityStatus) : sevIndex s ≤ 8.
Proof.
  destruct (sevIndex s) as [|n] eqn:Hs; [lia|].
  assert (Hsev : s ∈ severities) by (apply sevIndex_severity; lia).
  rewrite <- Hs. clear Hs. unfold severities in Hsev.
  repeat (apply elem_of_cons in Hsev as [->|Hsev]; [vm_compute; lia|]).
  by apply elem_of_nil in Hsev.
Qed.

Lemma priority_special (s : VulnerabilityStatus) :
  (priority s = 11 ↔ s = ErrorVulnerabilityStatus)
  ∧ (priority s = 10 ↔ s = UnsupportedVulnerabilityStatus)
  ∧ (priority s = 9 ↔ s = PendingVulnerabilityStatus)
  ∧ priority s ≤ 11.
Proof.
  unfold priority. pose proof (sevIndex_le_8 s) as Hle.
  destruct (String.eqb s ErrorVulnerabilityStatus) eqn:HE.
  { apply String.eqb_eq in HE as ->. repeat split; done || lia. }
  destruct (String.eqb s UnsupportedVulnerabilityStatus) eqn:HU.
  { apply String.eqb_eq in HU as ->. repeat split; done || lia. }
  destruct (String.eqb s PendingVulnerabilityStatus) eqn:HP.
  { apply String.eqb_eq in HP as ->. repeat split; done || lia. }
  apply String.eqb_neq in HE, HU, HP. repeat split; done || lia.
Qed.

Lemma priority_severity (s : VulnerabilityStatus) :
  s ≠ ErrorVulnerabilityStatus → s ≠ UnsupportedVulnerabilityStatus →
  s ≠ PendingVulnerabilityStatus → priority s = sevIndex s.
Proof.
  intros HE HU HP. unfold priority.
  apply String.eqb_neq in HE, HU, HP. by rewrite HE, HU, HP.
Qed.

Lemma maxPriority_ge (sevs : list VulnerabilityStatus) :
  1 ≤ maxPriority sevs ∧ ∀ s, s ∈ sevs → priority s ≤ maxPriority sevs.
Proof.
  induction sevs as [|x sevs [IH1 IH]]; simpl.
  - split; [done|]. intros s Hs. by apply elem_of_nil in Hs.
  - split; [lia|]. intros s [->|Hs]%elem_of_cons; [lia|].
    specialize (IH s Hs). lia.
Qed.

Lemma maxPriority_le (sevs : list VulnerabilityStatus) (k : nat) :
  1 ≤ k → (∀ s, s ∈ sevs → priority s ≤ k) → maxPriority sevs ≤ k.
Proof.
  intros Hk. induction sevs as [|x sevs IH]; simpl; intros Hall; [done|].
  pose proof (Hall x (list_elem_of_here _ _)).
  assert (maxPriority sevs ≤ k); [|lia].
  apply IH. intros s Hs. apply Hall. by apply list_elem_of_further.
Qed.

Lemma maxPriority_app (xs ys : list VulnerabilityStatus) :
  maxPriority (xs ++ ys) = maxPriority xs `max` maxPriority ys.
Proof.
  induction xs as [|x xs IH]; simpl.
  - pose proof (maxPriority_ge ys) as [? _]. lia.
  - rewrite IH. lia.
Qed.

Lemma maxPriority_perm (xs ys : list VulnerabilityStatus) :
  xs ≡ₚ ys → maxPriority xs = maxPriority ys.
Proof.
  induction 1 as [|x xs ys _ IH|x y xs|xs ys zs _ IH1 _ IH2]; simpl;
    [done|by rewrite IH|lia|congruence].
Qed.

Lemma Merge_enumerated (sevs : list VulnerabilityStatus) :
  MergeVulnerabilityStatuses sevs ∈ allStatuses.
Proof.
  destruct (MergeVulnerabilityStatuses_cases sevs) as [H|[H|[H|H]]].
  - destruct H as [_ ->]. unfold allStatuses, specialStatuses. cbn [app].
    elem_of_literal.
  - destruct H as (_ & _ & ->). unfold allStatuses, specialStatuses. cbn [app].
    elem_of_literal.
  - destruct H as (_ & _ & _ & ->). unfold allStatuses, specialStatuses.
    cbn [app]. elem_of_literal.
  - destruct H as (_ & _ & _ & Hsev & _). unfold allStatuses.
    apply elem_of_app. by right.
Qed.

(** The merge returns the status of the highest priority among its inputs,
    Clean being the least it returns. *)
Lemma priority_Merge (sevs : list VulnerabilityStatus) :
  priority (MergeVulnerabilityStatuses sevs) = maxPriority sevs.
Proof.
  pose proof (maxPriority_ge sevs) as [Hone Hge].
  destruct (MergeVulnerabilityStatuses_cases sevs) as [H|[H|[H|H]]].
  - destruct H as [Hin ->]. specialize (Hge _ Hin).
    change (priority ErrorVulnerabilityStatus) with 11 in *.
    assert (maxPriority sevs ≤ 11); [|lia].
    apply maxPriority_le; [lia|]. intros s _. apply priority_special.
  - destruct H as (HnE & Hin & ->). specialize (Hge _ Hin).
    change (priority UnsupportedVulnerabilityStatus) with 10 in *.
    assert (maxPriority sevs ≤ 10); [|lia].
    apply maxPriority_le; [lia|]. intros s Hs.
    pose proof (priority_special s) as (HE & _ & _ & Hle).
    assert (priority s ≠ 11); [|lia]. intros Heq. apply HE in Heq as ->. done.
  - destruct H as (HnE & HnU & Hin & ->). specialize (Hge _ Hin).
    change (priority PendingVulnerabilityStatus) with 9 in *.
    assert (maxPriority sevs ≤ 9); [|lia].
    apply maxPriority_le; [lia|]. intros s Hs.
    pose proof (priority_special s) as (HE & HU & _ & Hle).
    assert (priority s ≠ 11) by (intros Heq; apply HE in Heq as ->; done).
    assert (priority s ≠ 10) by (intros Heq; apply HU in Heq as ->; done).
    lia.
  - destruct H as (HnE & HnU & HnP & Hsev & Hsel & Hmax & _).
    set (r := MergeVulnerabilityStatuses sevs) in *.
    assert (Hr : priority r = sevIndex r ∧ 1 ≤ sevIndex r).
    { clearbody r. unfold severities in Hsev.
      repeat (apply elem_of_cons in Hsev as [->|Hsev];
              [vm_compute; split; [reflexivity|lia]|]).
      by apply elem_of_nil in Hsev. }
    destruct Hr as [Hr Hpos]. apply Nat.le_antisymm.
    + destruct Hsel as [Hclean|Hin]; [|by apply Hge].
      rewrite Hr, Hclean. change (sevIndex CleanSeverity) with 1. lia.
    + apply maxPriority_le; [lia|]. intros s Hs.
      rewrite Hr, priority_severity; [by apply Hmax|congruence..].
Qed.

Lemma priority_injective (a b : VulnerabilityStatus) :
  a ∈ allStatuses → b ∈ allStatuses → priority a = priority b → a = b.
Proof.
  unfold allStatuses, specialStatuses, severities. cbn [app]. intros Ha Hb.
  repeat (apply elem_of_cons in Ha as [->|Ha];
          [repeat (apply elem_of_cons in Hb as [->|Hb];
                   [vm_compute; intros Heq; first [reflexivity | discriminate Heq]|]);
           by apply elem_of_nil in Hb|]).
  by apply elem_of_nil in Ha.
Qed.

(** The order of the inputs does not matter, whatever their number. *)
Lemma Merge_permutation (xs ys : list VulnerabilityStatus) :
  xs ≡ₚ ys → MergeVulnerabilityStatuses xs = MergeVulnerabilityStatuses ys.
Proof.
  intros Hperm. apply priority_injective; try apply Merge_enumerated.
  rewrite !priority_Merge. by apply maxPriority_perm.
Qed.

(** X2. The merge of many inputs is the binary merge of the merges of its
    parts: statuses merged in groups, and the results merged again, give
    the merge of all of them. *)
Lemma Merge_app (xs ys : list VulnerabilityStatus) :
  MergeVulnerabilityStatuses (xs ++ ys)
  = MergeVulnerabilityStatuses
      [MergeVulnerabilityStatuses xs; MergeVulnerabilityStatuses ys].
Proof.
  apply priority_injective; try apply Merge_enumerated.
  rewrite !priority_Merge, maxPriority_app. simpl. rewrite !priority_Merge.
  pose proof (maxPriority_ge ys) as [? _]. lia.
Qed.

(** *** Algebra of the merge on the enumeration *)

Lemma mergeLaws_enumerated :
  forallb (λ a, forallb (λ b, forallb (mergeLawsAt a b) allStatuses)
                        allStatuses) allStatuses = true.
Proof. vm_compute. reflexivity. Qed.

(** C4. Over the eleven enumerated statuses the merge is commutative and
    associative (the n-ary merge of three inputs being the repeated binary
    merge), returns [s] on the singleton [s], and returns Clean on no
    input. *)
Theorem MergeVulnerabilityStatuses_algebra (a b c : VulnerabilityStatus) :
  a ∈ allStatuses → b ∈ allStatuses → c ∈ allStatuses →
  MergeVulnerabilityStatuses [a; b] = MergeVulnerabilityStatuses [b; a]
  ∧ MergeVulnerabilityStatuses [MergeVulnerabilityStatuses [a; b]; c]
    = MergeVulnerabilityStatuses [a; MergeVulnerabilityStatuses [b; c]]
  ∧ MergeVulnerabilityStatuses [a; b; c]
    = MergeVulnerabilityStatuses [MergeVulnerabilityStatuses [a; b]; c]
  ∧ MergeVulnerabilityStatuses [a] = a
  ∧ MergeVulnerabilityStatuses [] = CleanSeverity.
Proof.
  intros Ha Hb Hc.
  pose proof mergeLaws_enumerated as Hall.
  rewrite forallb_forall in Hall.
  specialize (Hall a (proj1 (list_elem_of_In _ _) Ha)).
  rewrite forallb_forall in Hall.
  specialize (Hall b (proj1 (list_elem_of_In _ _) Hb)).
  rewrite forallb_forall in Hall.
  specialize (Hall c (proj1 (list_elem_of_In _ _) Hc)).
  unfold mergeLawsAt in Hall.
  repeat (apply andb_prop in Hall as [Hall ?]).
  repeat match goal with H : String.eqb _ _ = true |- _ =>
    apply String.eqb_eq in H end.
  repeat split; assumption || reflexivity.
Qed.

Lemma MergeVulnerabilityStatuses_algebra_witness :
  MergeVulnerabilityStatuses [HighSeverity; PendingVulnerabilityStatus]
  = MergeVulnerabilityStatuses [PendingVulnerabilityStatus; HighSeverity]
  ∧ MergeVulnerabilityStatuses
      [MergeVulnerabilityStatuses [HighSeverity; PendingVulnerabilityStatus];
       LowSeverity]
    = MergeVulnerabilityStatuses
        [HighSeverity;
         MergeVulnerabilityStatuses [PendingVulnerabilityStatus; LowSeverity]]
  ∧ MergeVulnerabilityStatuses
      [HighSeverity; PendingVulnerabilityStatus; LowSeverity]
    = MergeVulnerabilityStatuses
        [MergeVulnerabilityStatuses [HighSeverity; PendingVulnerabilityStatus];
         LowSeverity]
  ∧ MergeVulnerabilityStatuses [HighSeverity] = HighSeverity
  ∧ MergeVulnerabilityStatuses [] = CleanSeverity.
Proof.
  apply (MergeVulnerabilityStatuses_algebra
           HighSeverity PendingVulnerabilityStatus LowSeverity);
    unfold allStatuses, specialStatuses, severities; cbv [app];
    elem_of_literal.
Defined.

(** *** Merging lists of any length and content *)

Lemma priority_unlisted (s : VulnerabilityStatus) :
  s ∉ allStatuses → priority s = 0.
Proof.
  intros Hout. rewrite priority_severity.
  - by apply sevIndex_unlisted.
  - intros ->. apply Hout. unfold allStatuses, specialStatuses. cbn [app].
    elem_of_literal.
  - intros ->. apply Hout. unfold allStatuses, specialStatuses. cbn [app].
    elem_of_literal.
  - intros ->. apply Hout. unfold allStatuses, specialStatuses. cbn [app].
    elem_of_literal.
Qed.

Lemma maxPriority_statuses_present (xs ys : list VulnerabilityStatus) :
  (∀ s, s ∈ allStatuses → s ∈ xs → s ∈ ys) →
  maxPriority xs ≤ maxPriority ys.
Proof.
  intros Hsub. pose proof (maxPriority_ge ys) as [Hone Hge].
  apply maxPriority_le; [done|]. intros s Hs.
  destruct (decide (s ∈ allStatuses)) as [Hin|Hout].
  - apply Hge. by apply Hsub.
  - rewrite (priority_unlisted s Hout). lia.
Qed.

(** X1. The result of [MergeVulnerabilityStatuses] is always one of the
    eleven enumerated statuses, and it depends only on which of them occur
    among the inputs: the order of the inputs, their repetition, and any
    string that is no enumerated status (for which [sevMap] yields the zero
    value, and which [overrides] does not list) have no influence. *)
Theorem MergeVulnerabilityStatuses_statuses_present
    (xs ys : list VulnerabilityStatus) :
  (∀ s, s ∈ allStatuses → (s ∈ xs ↔ s ∈ ys)) →
  MergeVulnerabilityStatuses xs = MergeVulnerabilityStatuses ys
  ∧ MergeVulnerabilityStatuses xs ∈ allStatuses.
Proof.
  intros Hsame. split; [|apply Merge_enumerated].
  apply priority_injective; try apply Merge_enumerated.
  rewrite !priority_Merge. apply Nat.le_antisymm.
  - apply maxPriority_statuses_present. intros s Hs. by apply Hsame.
  - apply maxPriority_statuses_present. intros s Hs. by apply Hsame.
Qed.

Lemma MergeVulnerabilityStatuses_statuses_present_witness :
  MergeVulnerabilityStatuses
    [LowSeverity; "Bogus"; HighSeverity; LowSeverity; ""]
  = MergeVulnerabilityStatuses [HighSeverity; LowSeverity]
  ∧ MergeVulnerabilityStatuses
      [LowSeverity; "Bogus"; HighSeverity; LowSeverity; ""]
    ∈ allStatuses.
Proof.
  apply (MergeVulnerabilityStatuses_statuses_present
           [LowSeverity; "Bogus"; HighSeverity; LowSeverity; ""]
           [HighSeverity; LowSeverity]).
  intros s Hs. unfold allStatuses, specialStatuses, severities in Hs.
  cbn [app] in Hs.
  repeat (apply elem_of_cons in Hs as [->|Hs];
          [split; intros Hin;
           first [ by elem_of_literal
                 | repeat (apply elem_of_cons in Hin as [Hin|Hin];
                           [discriminate Hin|]);
                   by apply elem_of_nil in Hin ]|]).
  by apply elem_of_nil in Hs.
Defined.

(** X3. [HasReport] of a merged status: the merge of any inputs has a
    vulnerability report exactly when none of the inputs is Error,
    Unsupported or Pending. *)
Theorem HasReport_MergeVulnerabilityStatuses (sevs : list VulnerabilityStatus) :
  HasReport (MergeVulnerabilityStatuses sevs) = true
  ↔ (ErrorVulnerabilityStatus ∉ sevs)
    ∧ (UnsupportedVulnerabilityStatus ∉ sevs)
    ∧ (PendingVulnerabilityStatus ∉ sevs).
Proof.
  destruct (MergeVulnerabilityStatuses_cases sevs) as [H|[H|[H|H]]].
  - destruct H as [Hin ->]. split; [by vm_compute|]. by intros [? _].
  - destruct H as (_ & Hin & ->). split; [by vm_compute|]. by intros (_ & ? & _).
  - destruct H as (_ & _ & Hin & ->). split; [by vm_compute|].
    by intros (_ & _ & ?).
  - destruct H as (HE & HU & HP & Hsev & _). split; [done|]. intros _.
    by apply HasReport_severity.
Qed.

End Clair.

(* ===================================================================== *)
(** ** Keppel API: paginated queries                                      *)
(* ===================================================================== *)

Module Pagination.

Local Open Scope N_scope.

(** *** The Go library functions that [Prepare] calls *)

(** [url.Values] is [map[string][]string]; [Get] returns the first value
    of the key, or the empty string when there is none. *)
Definition url_Values_Get (v : gmap string (list string)) (key : string) : string :=
  match v !! key with
  | Some (x :: _) => x
  | _ => ""
  end.

(** The two causes that [strconv.ParseUint] wraps in a [*NumError]. *)
Inductive numErrorCause : Set := ErrSyntax | ErrRange.

Record NumError : Set := mkNumError {
  Func : string;
  Num : string;
  Err : numErrorCause
}.

Definition isDigit (c : ascii) : bool :=
  (48 <=? N_of_ascii c) && (N_of_ascii c <=? 57).

Definition digitVal (c : ascii) : N := N_of_ascii c - 48.

Definition maxUint64 : N := 18446744073709551615.
Definition uint64 (n : N) : N := n mod 2 ^ 64.

(** The digit loop of [strconv.ParseUint] at base 10 and bit size 64: a
    byte that is no decimal digit is a syntax error (a letter has a digit
    value of at least 10, every other byte none at all); [cutoff] is the
    least [n] with [n * 10 > maxUint64]; the sum [n1] is computed in
    [uint64] and checked for wrap-around. *)
Definition cutoff : N := maxUint64 / 10 + 1.

Fixpoint parseUintLoop (s : string) (n : N) : numErrorCause + N :=
  match s with
  | EmptyString => inr n
  | String c rest =>
      if isDigit c then
        if cutoff <=? n then inl ErrRange
        else
          let n' := uint64 (n * 10) in
          let n1 := uint64 (n' + digitVal c) in
          if (n1 <? n') || (maxUint64 <? n1) then inl ErrRange
          else parseUintLoop rest n1
      else inl ErrSyntax
  end.

(** [strconv.ParseUint(s, 10, 64)] *)
Definition ParseUint (s : string) : NumError + N :=
  let failure cause := inl (mkNumError "ParseUint" s cause) in
  match s with
  | EmptyString => failure ErrSyntax
  | _ => match parseUintLoop s 0 with
         | inl cause => failure cause
         | inr n => inr n
         end
  end.

(** [strconv.FormatUint(n, 10)] *)
Definition FormatUint (n : N) : string :=
  DecimalString.NilZero.string_of_uint (N.to_uint n).

(** [old] is a prefix of [s]: what follows it. *)
Fixpoint stripPrefix (old s : string) : option string :=
  match old, s with
  | EmptyString, _ => Some s
  | String a old', String b s' =>
      if Ascii.eqb a b then stripPrefix old' s' else None
  | String _ _, EmptyString => None
  end.

(** [strings.Replace(s, old, new, 1)]: the leftmost instance of [old] in
    [s] is replaced by [new]; [s] is returned when there is none. *)
Fixpoint strings_Replace1 (s old new : string) : string :=
  match stripPrefix old s with
  | Some rest => new +:+ rest
  | None =>
      match s with
      | EmptyString => EmptyString
      | String c s' => String c (strings_Replace1 s' old new)
      end
  end.

(** *** [paginatedQuery] *)

(** A bind value ([interface{}]): the callers pass strings and integers. *)
Inductive bindValue : Set :=
  | BindString (s : string)
  | BindInt (z : Z).

Record paginatedQuery : Type := mkPaginatedQuery {
  SQL : string;
  MarkerField : string;
  Options : gmap string (list string);
  BindValues : list bindValue
}.

(** The four results of [Prepare]. *)
Record prepared : Type := mkPrepared {
  modifiedSQLQuery : string;
  modifiedBindValues : list bindValue;
  limit : N;
  err : option NumError
}.

(** [func (q paginatedQuery) Prepare() (modifiedSQLQuery string,
    modifiedBindValues []interface{}, limit uint64, err error)] *)
Definition Prepare (q : paginatedQuery) : prepared :=
  let limit0 := 1000 in
  let limitStr := url_Values_Get (Options q) "limit" in
  let parsed :=
    if String.eqb limitStr "" then inr limit0
    else match ParseUint limitStr with
         | inl e => inl e
         | inr limitVal => inr (if limitVal <? limit0 then limitVal else limit0)
         end in
  match parsed with
  | inl e => mkPrepared "" [] 0 (Some e)
  | inr limit =>
      let query := strings_Replace1 (SQL q) "$LIMIT" (FormatUint (uint64 (limit + 1))) in
      let marker := url_Values_Get (Options q) "marker" in
      if String.eqb marker "" then
        let query := strings_Replace1 query "$CONDITION" "TRUE" in
        mkPrepared query (BindValues q) limit None
      else
        let query := strings_Replace1 query "$CONDITION" (MarkerField q +:+ " > $2") in
        mkPrepared query (BindValues q ++ [BindString marker]) limit None
  end.

(** A query in the style of the API's listings, as an example. *)
Definition exampleQuery (opts : gmap string (list string)) : paginatedQuery :=
  mkPaginatedQuery
    "SELECT * FROM repos WHERE account_name = $1 AND $CONDITION ORDER BY name ASC LIMIT $LIMIT"
    "name" opts [BindString "test1"].

(** *** Notions that the properties are stated with *)

(** A numeral: every byte is a decimal digit. *)
Fixpoint allDigits (s : string) : bool :=
  match s with
  | EmptyString => true
  | String c rest => isDigit c && allDigits rest
  end.

(** The number a numeral denotes, read from the left with [n] already
    accumulated; the value is not bounded. *)
Fixpoint decimalFrom (n : N) (s : string) : N :=
  match s with
  | EmptyString => n
  | String c rest => decimalFrom (n * 10 + digitVal c) rest
  end.

Definition decimalValue (s : string) : N := decimalFrom 0 s.

(** [old] stands in [s] after the prefix [pre]. *)
Definition occursAfter (old s pre : string) : Prop :=
  ∃ post, s = pre +:+ old +:+ post.

(** What [Prepare] writes for [$CONDITION], and the bind values it returns. *)
Definition conditionFor (q : paginatedQuery) : string :=
  if String.eqb (url_Values_Get (Options q) "marker") "" then "TRUE"
  else MarkerField q +:+ " > $2".

Definition bindValuesFor (q : paginatedQuery) : list bindValue :=
  if String.eqb (url_Values_Get (Options q) "marker") "" then BindValues q
  else BindValues q ++ [BindString (url_Values_Get (Options q) "marker")].

(** The successful result for the effective limit [lim]: [lim + 1] written
    for the leftmost [$LIMIT], then the condition for the leftmost
    [$CONDITION]. *)
Definition preparedWith (q : paginatedQuery) (lim : N) : prepared :=
  mkPrepared
    (strings_Replace1
       (strings_Replace1 (SQL q) "$LIMIT" (FormatUint (lim + 1)))
       "$CONDITION" (conditionFor q))
    (bindValuesFor q) lim None.

(** The failed result: empty query, no bind values, limit 0. *)
Definition preparedError (e : NumError) : prepared :=
  mkPrepared "" [] 0 (Some e).

(** The numeral of 2^64, one above the largest [uint64]. *)
Definition hugeLimit : string := "18446744073709551616".

(** *** Examples *)

Example Prepare_first_page :
  Prepare (exampleQuery {[ "limit" := ["3"] ]}) =
  mkPrepared
    "SELECT * FROM repos WHERE account_name = $1 AND TRUE ORDER BY name ASC LIMIT 4"
    [BindString "test1"] 3 None.
Proof. vm_compute. reflexivity. Qed.

Example Prepare_next_page :
  Prepare (exampleQuery {[ "limit" := ["3"]; "marker" := ["repo1-3"] ]}) =
  mkPrepared
    "SELECT * FROM repos WHERE account_name = $1 AND name > $2 ORDER BY name ASC LIMIT 4"
    [BindString "test1"; BindString "repo1-3"] 3 None.
Proof. vm_compute. reflexivity. Qed.

Example Prepare_default_limit :
  Prepare (exampleQuery ∅) =
  mkPrepared
    "SELECT * FROM repos WHERE account_name = $1 AND TRUE ORDER BY name ASC LIMIT 1001"
    [BindString "test1"] 1000 None.
Proof. vm_compute. reflexivity. Qed.

(** *** What the library functions compute *)

Lemma decimalFrom_ge (s : string) : ∀ n, n ≤ decimalFrom n s.
Proof.
  induction s as [|c rest IH]; intros n; simpl; [lia|].
  specialize (IH (n * 10 + digitVal c)). lia.
Qed.

Lemma isDigit_digitVal (c : ascii) : isDigit c = true → digitVal c ≤ 9.
Proof.
  unfold isDigit, digitVal. intros H.
  apply andb_prop in H as [_ H]. apply N.leb_le in H. lia.
Qed.

Lemma uint64_small (n : N) : n ≤ maxUint64 → uint64 n = n.
Proof. unfold uint64, maxUint64. intros H. apply N.mod_small. lia. Qed.

Lemma uint64_wrap (n : N) :
  maxUint64 < n → n < 2 * 2 ^ 64 → uint64 n = n - 2 ^ 64.
Proof.
  unfold uint64, maxUint64. intros Hlo Hhi.
  symmetry. apply (N.mod_unique n (2 ^ 64) 1); lia.
Qed.

(** On a numeral the loop returns the denoted number when it fits 64 bits
    and a range error otherwise. *)
Lemma parseUintLoop_digits (s : string) :
  ∀ n, allDigits s = true → n ≤ maxUint64 →
    parseUintLoop s n =
      if decimalFrom n s <=? maxUint64 then inr (decimalFrom n s)
      else inl ErrRange.
Proof.
  induction s as [|c rest IH]; intros n Hdig Hn; simpl.
  - apply N.leb_le in Hn. by rewrite Hn.
  - simpl in Hdig. apply andb_prop in Hdig as [Hc Hrest].
    rewrite Hc. pose proof (isDigit_digitVal c Hc) as Hd.
    pose proof (decimalFrom_ge rest (n * 10 + digitVal c)) as Hge.
    destruct (cutoff <=? n) eqn:Hcut.
    + apply N.leb_le in Hcut. unfold cutoff, maxUint64 in Hcut.
      change (18446744073709551615 / 10 + 1) with 1844674407370955162 in Hcut.
      destruct (decimalFrom (n * 10 + digitVal c) rest <=? maxUint64) eqn:Hfit;
        [|reflexivity].
      apply N.leb_le in Hfit. unfold maxUint64 in Hfit. lia.
    + apply N.leb_gt in Hcut. unfold cutoff, maxUint64 in Hcut.
      change (18446744073709551615 / 10 + 1) with 1844674407370955162 in Hcut.
      rewrite (uint64_small (n * 10)) by (unfold maxUint64; lia).
      destruct (N.le_gt_cases (n * 10 + digitVal c) maxUint64) as [Hsmall|Hbig].
      * rewrite (uint64_small _ Hsmall).
        replace (n * 10 + digitVal c <? n * 10) with false
          by (symmetry; apply N.ltb_ge; lia).
        replace (maxUint64 <? n * 10 + digitVal c) with false
          by (symmetry; apply N.ltb_ge; lia).
        cbn [orb]. by apply IH.
      * rewrite (uint64_wrap _ Hbig) by lia.
        replace (n * 10 + digitVal c - 2 ^ 64 <? n * 10) with true
          by (symmetry; apply N.ltb_lt; unfold maxUint64 in Hbig; lia).
        cbn [orb].
        replace (decimalFrom (n * 10 + digitVal c) rest <=? maxUint64) with false
          by (symmetry; apply N.leb_gt; lia).
        reflexivity.
Qed.

(** A byte that is no digit makes the loop fail, with a syntax error or,
    when the digits before it already overflow, a range error. *)
Lemma parseUintLoop_not_digits (s : string) :
  ∀ n, allDigits s = false → ∃ cause, parseUintLoop s n = inl cause.
Proof.
  induction s as [|c rest IH]; intros n Hdig; simpl in *; [discriminate|].
  destruct (isDigit c); [|by exists ErrSyntax].
  destruct (cutoff <=? n); [by exists ErrRange|].
  destruct (_ || _); [by exists ErrRange|].
  by apply IH.
Qed.

Lemma ParseUint_numeral (s : string) :
  s ≠ "" → allDigits s = true →
  ParseUint s =
    if decimalValue s <=? maxUint64 then inr (decimalValue s)
    else inl (mkNumError "ParseUint" s ErrRange).
Proof.
  intros Hne Hdig. unfold ParseUint, decimalValue.
  destruct s as [|c rest]; [done|].
  rewrite (parseUintLoop_digits _ 0 Hdig) by (unfold maxUint64; lia).
  by destruct (_ <=? _).
Qed.

Lemma ParseUint_not_numeral (s : string) :
  allDigits s = false → ∃ e, ParseUint s = inl e.
Proof.
  intros Hdig. unfold ParseUint.
  destruct s as [|c rest]; [discriminate|].
  destruct (parseUintLoop_not_digits _ 0 Hdig) as [cause ->]. eauto.
Qed.

Lemma stripPrefix_Some (old s rest : string) :
  stripPrefix old s = Some rest ↔ s = old +:+ rest.
Proof.
  revert s. induction old as [|a old IH]; intros s; simpl.
  - split; [by intros [= ->]|by intros ->].
  - destruct s as [|b s]; [split; discriminate|].
    destruct (Ascii.eqb a b) eqn:Hab.
    + apply Ascii.eqb_eq in Hab as ->. rewrite IH.
      split; [by intros ->|by intros [= ->]].
    + apply Ascii.eqb_neq in Hab. split; [discriminate|].
      intros [= Hba _]. by destruct Hab.
Qed.

Lemma strings_Replace1_eq (s old new : string) :
  strings_Replace1 s old new =
    match stripPrefix old s with
    | Some rest => new +:+ rest
    | None =>
        match s with
        | EmptyString => EmptyString
        | String c s' => String c (strings_Replace1 s' old new)
        end
    end.
Proof. by destruct s. Qed.

Lemma strings_Replace1_absent (s old new : string) :
  (∀ pre, ¬ occursAfter old s pre) → strings_Replace1 s old new = s.
Proof.
  induction s as [|c s IH]; intros Habs.
  - rewrite strings_Replace1_eq.
    destruct (stripPrefix old "") as [rest|] eqn:Hp; [|done].
    apply stripPrefix_Some in Hp. destruct (Habs ""). by exists rest.
  - rewrite strings_Replace1_eq.
    destruct (stripPrefix old (String c s)) as [rest|] eqn:Hp.
    + apply stripPrefix_Some in Hp. destruct (Habs ""). by exists rest.
    + f_equal. apply IH. intros pre [post Hocc].
      apply (Habs (String c pre)). exists post. simpl. by rewrite Hocc.
Qed.

Lemma strings_Replace1_leftmost (pre old new post : string) :
  (∀ pre', occursAfter old (pre +:+ old +:+ post) pre' →
           (String.length pre ≤ String.length pre')%nat) →
  strings_Replace1 (pre +:+ old +:+ post) old new = pre +:+ new +:+ post.
Proof.
  induction pre as [|c pre IH]; intros Hleft.
  - change ("" +:+ old +:+ post) with (old +:+ post).
    change ("" +:+ new +:+ post) with (new +:+ post).
    rewrite strings_Replace1_eq.
    assert (Hp : stripPrefix old (old +:+ post) = Some post)
      by by apply stripPrefix_Some.
    by rewrite Hp.
  - change (String c pre +:+ old +:+ post) with (String c (pre +:+ old +:+ post)).
    change (String c pre +:+ new +:+ post) with (String c (pre +:+ new +:+ post)).
    rewrite strings_Replace1_eq.
    destruct (stripPrefix old (String c (pre +:+ old +:+ post)))
      as [rest|] eqn:Hp.
    + apply stripPrefix_Some in Hp.
      assert (String.length (String c pre) ≤ String.length "")%nat as Hlen.
      { apply Hleft. by exists rest. }
      simpl in Hlen. lia.
    + f_equal. apply IH. intros pre' [post' Hocc].
      assert (String.length (String c pre) ≤ String.length (String c pre'))%nat
        as Hlen.
      { apply Hleft. exists post'.
        change (String c pre' +:+ old +:+ post')
          with (String c (pre' +:+ old +:+ post')).
        by rewrite <- Hocc. }
      simpl in Hlen. lia.
Qed.

(** *** [Prepare] *)

Lemma Prepare_with_limit (q : paginatedQuery) (lim : N) :
  lim ≤ 1000 →
  (let query := strings_Replace1 (SQL q) "$LIMIT" (FormatUint (uint64 (lim + 1))) in
   let marker := url_Values_Get (Options q) "marker" in
   if String.eqb marker "" then
     mkPrepared (strings_Replace1 query "$CONDITION" "TRUE") (BindValues q) lim None
   else
     mkPrepared (strings_Replace1 query "$CONDITION" (MarkerField q +:+ " > $2"))
       (BindValues q ++ [BindString marker]) lim None)
  = preparedWith q lim.
Proof.
  intros Hlim. cbv zeta. unfold preparedWith, conditionFor, bindValuesFor.
  rewrite uint64_small by (unfold maxUint64; lia).
  by destruct (String.eqb _ "").
Qed.

(** C7, as amended. [Prepare] takes 1000 as the effective limit when
    [?limit=] is absent or empty, and the smaller of the requested value and
    1000 when it is a decimal numeral of at most 2^64 - 1; it writes the
    effective limit plus one for [$LIMIT] and, for [$CONDITION], [TRUE]
    without a marker and [MarkerField > $2] with one, the marker then being
    appended to the bind values. A limit that is no decimal numeral, or a
    numeral above 2^64 - 1, makes [Prepare] return an error. *)
Theorem Prepare_spec (q : paginatedQuery) :
  (url_Values_Get (Options q) "limit" = "" → Prepare q = preparedWith q 1000)
  ∧ (url_Values_Get (Options q) "limit" ≠ "" →
     allDigits (url_Values_Get (Options q) "limit") = true →
     decimalValue (url_Values_Get (Options q) "limit") ≤ maxUint64 →
     Prepare q =
       preparedWith q (N.min (decimalValue (url_Values_Get (Options q) "limit")) 1000))
  ∧ (url_Values_Get (Options q) "limit" ≠ "" →
     allDigits (url_Values_Get (Options q) "limit") = false →
     ∃ e, Prepare q = preparedError e)
  ∧ (url_Values_Get (Options q) "limit" ≠ "" →
     allDigits (url_Values_Get (Options q) "limit") = true →
     maxUint64 < decimalValue (url_Values_Get (Options q) "limit") →
     Prepare q =
       preparedError
         (mkNumError "ParseUint" (url_Values_Get (Options q) "limit") ErrRange)).
Proof.
  unfold Prepare. cbv zeta.
  set (limitStr := url_Values_Get (Options q) "limit").
  split; [|split; [|split]].
  - intros ->. cbn [String.eqb]. by apply Prepare_with_limit.
  - intros Hne Hdig Hfit.
    apply String.eqb_neq in Hne. rewrite Hne.
    rewrite (ParseUint_numeral limitStr) by (by apply String.eqb_neq || done).
    apply N.leb_le in Hfit. rewrite Hfit.
    destruct (decimalValue limitStr <? 1000) eqn:Hlt.
    + apply N.ltb_lt in Hlt. rewrite N.min_l by lia.
      apply Prepare_with_limit. lia.
    + apply N.ltb_ge in Hlt. rewrite N.min_r by lia.
      by apply Prepare_with_limit.
  - intros Hne Hdig. apply String.eqb_neq in Hne. rewrite Hne.
    destruct (ParseUint_not_numeral limitStr Hdig) as [e ->]. by exists e.
  - intros Hne Hdig Hbig.
    rewrite (ParseUint_numeral limitStr Hne Hdig).
    apply String.eqb_neq in Hne. rewrite Hne.
    apply N.leb_gt in Hbig. by rewrite Hbig.
Qed.

Lemma Prepare_spec_witness :
  Prepare (exampleQuery ∅) = preparedWith (exampleQuery ∅) 1000
  ∧ Prepare (exampleQuery {[ "limit" := ["3"] ]})
    = preparedWith (exampleQuery {[ "limit" := ["3"] ]}) 3
  ∧ (∃ e, Prepare (exampleQuery {[ "limit" := ["3 rows"] ]}) = preparedError e)
  ∧ Prepare (exampleQuery {[ "limit" := [hugeLimit] ]})
    = preparedError (mkNumError "ParseUint" hugeLimit ErrRange).
Proof.
  split; [|split; [|split]].
  - pose proof (proj1 (Prepare_spec (exampleQuery ∅))) as H.
    vm_compute in H. vm_compute. apply H. reflexivity.
  - pose proof (proj1 (proj2 (Prepare_spec (exampleQuery {[ "limit" := ["3"] ]}))))
      as H.
    vm_compute in H. vm_compute. apply H; [discriminate|reflexivity|discriminate].
  - pose proof (proj1 (proj2 (proj2
                  (Prepare_spec (exampleQuery {[ "limit" := ["3 rows"] ]})))))
      as H.
    vm_compute in H. vm_compute. apply H; [discriminate|reflexivity].
  - pose proof (proj2 (proj2 (proj2
                  (Prepare_spec (exampleQuery {[ "limit" := [hugeLimit] ]})))))
      as H.
    vm_compute in H. vm_compute. apply H; [discriminate|reflexivity|reflexivity].
Defined.

(** C7 as first stated fails on a numeral of 2^64 or more: the
    requested value is numeric and the smaller of it and 1000 is 1000, yet
    [Prepare] returns a range error and no limit. *)
Lemma Prepare_numeral_out_of_range :
  allDigits hugeLimit = true
  ∧ N.min (decimalValue hugeLimit) 1000 = 1000
  ∧ Prepare (exampleQuery {[ "limit" := [hugeLimit] ]})
    = preparedError (mkNumError "ParseUint" hugeLimit ErrRange)
  ∧ Prepare (exampleQuery {[ "limit" := [hugeLimit] ]})
    ≠ preparedWith (exampleQuery {[ "limit" := [hugeLimit] ]}) 1000.
Proof.
  split; [reflexivity|]. split; [vm_compute; reflexivity|].
  split; [vm_compute; reflexivity|].
  intros Heq. apply (f_equal limit) in Heq. vm_compute in Heq. discriminate Heq.
Qed.

(** *** What the marker and the caller's bind values do to the result *)

(** Every successful result is [preparedWith] at a limit of at most 1000. *)
Lemma Prepare_success (q : paginatedQuery) :
  err (Prepare q) = None →
  ∃ lim, lim ≤ 1000 ∧ Prepare q = preparedWith q lim.
Proof.
  unfold Prepare. cbv zeta.
  destruct (String.eqb (url_Values_Get (Options q) "limit") "").
  { intros _. exists 1000. split; [lia|]. by apply Prepare_with_limit. }
  destruct (ParseUint (url_Values_Get (Options q) "limit")) as [e|limitVal].
  { discriminate. }
  intros _. destruct (limitVal <? 1000) eqn:Hlt.
  - apply N.ltb_lt in Hlt. exists limitVal. split; [lia|].
    apply Prepare_with_limit. lia.
  - exists 1000. split; [lia|]. by apply Prepare_with_limit.
Qed.

(** X4. The marker never reaches the SQL text: the query, the limit and the
    error that [Prepare] returns depend on the SQL template, on
    [MarkerField], on [?limit=] and on whether a [?marker=] is given, but
    not on the marker's value nor on the caller's bind values. The marker
    travels in the bind values only. *)
Theorem Prepare_query_independent_of_marker (q1 q2 : paginatedQuery) :
  SQL q1 = SQL q2 →
  MarkerField q1 = MarkerField q2 →
  url_Values_Get (Options q1) "limit" = url_Values_Get (Options q2) "limit" →
  (url_Values_Get (Options q1) "marker" = ""
   ↔ url_Values_Get (Options q2) "marker" = "") →
  modifiedSQLQuery (Prepare q1) = modifiedSQLQuery (Prepare q2)
  ∧ limit (Prepare q1) = limit (Prepare q2)
  ∧ err (Prepare q1) = err (Prepare q2).
Proof.
  intros Hsql Hfield Hlimit Hmarker. unfold Prepare. cbv zeta.
  rewrite Hsql, Hfield, Hlimit.
  assert (String.eqb (url_Values_Get (Options q1) "marker") ""
          = String.eqb (url_Values_Get (Options q2) "marker") "") as ->.
  { destruct (String.eqb (url_Values_Get (Options q2) "marker") "") eqn:H2.
    - apply String.eqb_eq in H2. apply String.eqb_eq. by apply Hmarker.
    - apply String.eqb_neq in H2. apply String.eqb_neq. intros H1.
      apply H2. by apply Hmarker. }
  destruct (String.eqb (url_Values_Get (Options q2) "limit") "");
    [|destruct (ParseUint _) as [e|limitVal]];
    by destruct (String.eqb (url_Values_Get (Options q2) "marker") "").
Qed.

Lemma Prepare_query_independent_of_marker_witness :
  modifiedSQLQuery (Prepare (exampleQuery {[ "marker" := ["bar"] ]}))
  = modifiedSQLQuery
      (Prepare (exampleQuery {[ "marker" := ["x' OR '1' = '1"] ]}))
  ∧ limit (Prepare (exampleQuery {[ "marker" := ["bar"] ]}))
    = limit (Prepare (exampleQuery {[ "marker" := ["x' OR '1' = '1"] ]}))
  ∧ err (Prepare (exampleQuery {[ "marker" := ["bar"] ]}))
    = err (Prepare (exampleQuery {[ "marker" := ["x' OR '1' = '1"] ]})).
Proof.
  pose proof (Prepare_query_independent_of_marker
                (exampleQuery {[ "marker" := ["bar"] ]})
                (exampleQuery {[ "marker" := ["x' OR '1' = '1"] ]})) as H.
  vm_compute in H. vm_compute. apply H; try reflexivity.
  split; discriminate.
Defined.

(** X5. The condition that [Prepare] writes for a marker names the
    placeholder [$2] whatever the number of the caller's bind values, while
    the marker is appended behind them: [$2] denotes the marker when the
    caller passed exactly one bind value; with none it denotes nothing, and
    with two or more it denotes the caller's second value. *)
Theorem Prepare_marker_placeholder (q : paginatedQuery) :
  url_Values_Get (Options q) "marker" ≠ "" →
  err (Prepare q) = None →
  (∃ lim, lim ≤ 1000 ∧ Prepare q = preparedWith q lim)
  ∧ conditionFor q = MarkerField q +:+ " > $2"
  ∧ modifiedBindValues (Prepare q)
    = (BindValues q ++ [BindString (url_Values_Get (Options q) "marker")])%list
  ∧ (length (BindValues q) = 1%nat →
     modifiedBindValues (Prepare q) !! 1%nat
     = Some (BindString (url_Values_Get (Options q) "marker")))
  ∧ (BindValues q = [] → modifiedBindValues (Prepare q) !! 1%nat = None)
  ∧ (2 ≤ length (BindValues q) →
     modifiedBindValues (Prepare q) !! 1%nat = BindValues q !! 1%nat)%nat.
Proof.
  intros Hmarker Herr.
  destruct (Prepare_success q Herr) as (lim & Hlim & Hprep).
  apply String.eqb_neq in Hmarker.
  assert (Hbind : modifiedBindValues (Prepare q)
                  = (BindValues q
                     ++ [BindString (url_Values_Get (Options q) "marker")])%list).
  { rewrite Hprep. unfold preparedWith, bindValuesFor. cbn [modifiedBindValues].
    by rewrite Hmarker. }
  split; [by exists lim|]. split.
  { unfold conditionFor. by rewrite Hmarker. }
  split; [exact Hbind|]. rewrite Hbind.
  split; [|split].
  - intros Hlen. destruct (BindValues q) as [|v [|v' vs]]; by simplify_eq/=.
  - by intros ->.
  - intros Hlen. destruct (BindValues q) as [|v [|v' vs]]; simpl in *; [lia..|done].
Qed.

Lemma Prepare_marker_placeholder_witness :
  modifiedBindValues (Prepare (exampleQuery {[ "marker" := ["bar"] ]})) !! 1%nat
  = Some (BindString "bar").
Proof.
  pose proof (Prepare_marker_placeholder
                (exampleQuery {[ "marker" := ["bar"] ]})) as H.
  vm_compute in H. vm_compute.
  destruct H as (_ & _ & _ & H & _); [discriminate|reflexivity|].
  apply H. reflexivity.
Defined.

End Pagination.

(* ===================================================================== *)
(** ** Go values shared by the drivers and the janitor                    *)
(* ===================================================================== *)

Module Go.

(** An [error] value: the sentinel [sql.ErrNoRows], which the code
    compares by identity, or any other error, known by its message. *)
Inductive error : Set :=
  | sql_ErrNoRows
  | errorString (msg : string).

(** The method [Error()]. *)
Definition Error (e : error) : string :=
  match e with
  | sql_ErrNoRows => "sql: no rows in result set"
  | errorString msg => msg
  end.

(** [strings.HasSuffix(s, suffix)] *)
Definition strings_HasSuffix (s suffix : string) : bool :=
  (String.length suffix <=? String.length s)
  && String.eqb
       (String.substring (String.length s - String.length suffix)
                         (String.length suffix) s)
       suffix.

(** The verb [%q] on a string that needs no escaping: the string between
    two double quotes. *)
Definition doubleQuote : string := String (ascii_of_nat 34) EmptyString.
Definition quotePlain (s : string) : string := doubleQuote +:+ s +:+ doubleQuote.

(** [filepath.Join] on two clean, non-empty elements. *)
Definition joinPlain (dir name : string) : string := dir +:+ "/" +:+ name.

End Go.

(* ===================================================================== *)
(** ** Package keppel: the models used below                              *)
(* ===================================================================== *)

Module Keppel.

(** The fields of [keppel.Account] that the drivers read. *)
Record Account : Set := mkAccount {
  AuthTenantID : string;
  Name : string
}.

End Keppel.

(* ===================================================================== *)
(** ** The filesystem storage driver                                      *)
(* ===================================================================== *)

Module Filesystem.

Import Go.
Import Keppel.

Record StoredBlobInfo : Set := mkStoredBlobInfo { StorageID : string }.

Record StoredManifestInfo : Set := mkStoredManifestInfo {
  RepoName : string;
  Digest : string
}.

(** The part of [afero.Fs] that listing uses: [Open] fails or yields the
    directory at a path, whose [Readdirnames(-1)] fails or yields the names
    in it. *)
Record Fs : Type := mkFs {
  Open : string → option error;
  Readdirnames : string → error + list string
}.

(** *** A concrete storage *)

(** An account with one blob, one temporary upload and one manifest in
    storage, and the same account after everything was deleted. *)
Definition exampleAccount : Account := mkAccount "tenant1" "test1".

Definition exampleFs : Fs :=
  mkFs (λ _, None)
       (λ path,
          if String.eqb path "tenant1/test1/b" then inr ["6b86b273"; "d4735e3a.tmp"]
          else if String.eqb path "tenant1/test1/m" then inr ["foo"]
          else if String.eqb path "tenant1/test1/m/foo" then inr ["sha256:8a92"]
          else inl (errorString "no such file or directory")).

Definition emptiedFs : Fs :=
  mkFs (λ _, None)
       (λ path,
          if String.eqb path "tenant1/test1/b" then inr ["d4735e3a.tmp"]
          else if String.eqb path "tenant1/test1/m" then inr ["foo"]
          else if String.eqb path "tenant1/test1/m/foo" then inr []
          else inl (errorString "no such file or directory")).

Section Driver.

(** [filepath.Join] on two elements, and the verb [%q] of [fmt]. *)
Variable filepath_Join : string → string → string.
Variable quote : string → string.

(** The driver's field [root]. *)
Variable root : Fs.

Definition blobBasePath (account : Account) : string :=
  AuthTenantID account +:+ "/" +:+ Name account +:+ "/b".

Definition manifestBasePath (account : Account) : string :=
  AuthTenantID account +:+ "/" +:+ Name account +:+ "/m".

(** The loop of [getBlobs]: names ending in [.tmp] are skipped. *)
Fixpoint blobsOfNames (names : list string) : list StoredBlobInfo :=
  match names with
  | [] => []
  | name :: rest =>
      if strings_HasSuffix name ".tmp" then blobsOfNames rest
      else mkStoredBlobInfo name :: blobsOfNames rest
  end.

Definition getBlobs (account : Account) : error + list StoredBlobInfo :=
  match Open root (blobBasePath account) with
  | Some err => inl err
  | None =>
      match Readdirnames root (blobBasePath account) with
      | inl err => inl err
      | inr names => inr (blobsOfNames names)
      end
  end.

(** The loop of [getRepoManifests]. *)
Fixpoint manifestsOfDigests (repo : string) (digests : list string)
    : list StoredManifestInfo :=
  match digests with
  | [] => []
  | digest :: rest =>
      if strings_HasSuffix digest ".tmp" then manifestsOfDigests repo rest
      else mkStoredManifestInfo repo digest :: manifestsOfDigests repo rest
  end.

Definition getRepoManifests (account : Account) (repo : string)
    : error + list StoredManifestInfo :=
  let path := filepath_Join (manifestBasePath account) repo in
  match Open root path with
  | Some err => inl err
  | None =>
      match Readdirnames root path with
      | inl err => inl err
      | inr digests => inr (manifestsOfDigests repo digests)
      end
  end.

(** The loop of [getManifests] over the repositories, with the manifests
    collected so far. *)
Fixpoint manifestsOfRepos (account : Account) (repos : list string)
    (manifests : list StoredManifestInfo) : error + list StoredManifestInfo :=
  match repos with
  | [] => inr manifests
  | repo :: rest =>
      match getRepoManifests account repo with
      | inl err => inl err
      | inr repoManifests =>
          manifestsOfRepos account rest (manifests ++ repoManifests)
      end
  end.

Definition getManifests (account : Account) : error + list StoredManifestInfo :=
  match Open root (manifestBasePath account) with
  | Some err => inl err
  | None =>
      match Readdirnames root (manifestBasePath account) with
      | inl err => inl err
      | inr repos => manifestsOfRepos account repos []
      end
  end.

(** [ListStorageContents]: the three results, [nil, nil, err] on failure. *)
Definition ListStorageContents (account : Account)
    : list StoredBlobInfo * list StoredManifestInfo * option error :=
  match getBlobs account with
  | inl err => ([], [], Some err)
  | inr blobs =>
      match getManifests account with
      | inl err => ([], [], Some err)
      | inr manifests => (blobs, manifests, None)
      end
  end.

(** [CleanupAccount]: the returned [error], [None] for [nil]. *)
Definition CleanupAccount (account : Account) : option error :=
  let '(storedBlobs, storedManifests, err) := ListStorageContents account in
  match storedBlobs with
  | blob :: _ =>
      Some (errorString
              ("found undeleted blob during CleanupAccount: storageID = "
               +:+ quote (StorageID blob)))
  | [] =>
      match storedManifests with
      | manifest :: _ =>
          Some (errorString
                  ("found undeleted manifest during CleanupAccount: "
                   +:+ RepoName manifest +:+ "@" +:+ Digest manifest))
      | [] => err
      end
  end.

(** *** Notions that the properties are stated with *)

(** A directory that opens, lists, and holds temporary files only. *)
Definition onlyTemporaries (path : string) : Prop :=
  Open root path = None
  ∧ ∃ names, Readdirnames root path = inr names
             ∧ ∀ n, n ∈ names → strings_HasSuffix n ".tmp" = true.

(** Nothing is stored for the account: its blob directory and each of its
    repository directories hold temporary files only. *)
Definition storageEmpty (account : Account) : Prop :=
  onlyTemporaries (blobBasePath account)
  ∧ Open root (manifestBasePath account) = None
  ∧ ∃ repos, Readdirnames root (manifestBasePath account) = inr repos
             ∧ ∀ r, r ∈ repos →
                 onlyTemporaries (filepath_Join (manifestBasePath account) r).

(** *** What the listing finds *)

Lemma blobsOfNames_empty (names : list string) :
  blobsOfNames names = [] ↔ ∀ n, n ∈ names → strings_HasSuffix n ".tmp" = true.
Proof.
  induction names as [|name rest IH]; simpl.
  - split; [|done]. intros _ n Hn. by apply elem_of_nil in Hn.
  - destruct (strings_HasSuffix name ".tmp") eqn:Htmp.
    + rewrite IH. split.
      * intros Hrest n [->|Hn]%elem_of_cons; [done|by apply Hrest].
      * intros Hall n Hn. apply Hall. by apply list_elem_of_further.
    + split; [discriminate|].
      intros Hall. specialize (Hall name (list_elem_of_here _ _)). congruence.
Qed.

Lemma manifestsOfDigests_empty (repo : string) (digests : list string) :
  manifestsOfDigests repo digests = []
  ↔ ∀ dg, dg ∈ digests → strings_HasSuffix dg ".tmp" = true.
Proof.
  induction digests as [|digest rest IH]; simpl.
  - split; [|done]. intros _ n Hn. by apply elem_of_nil in Hn.
  - destruct (strings_HasSuffix digest ".tmp") eqn:Htmp.
    + rewrite IH. split.
      * intros Hrest n [->|Hn]%elem_of_cons; [done|by apply Hrest].
      * intros Hall n Hn. apply Hall. by apply list_elem_of_further.
    + split; [discriminate|].
      intros Hall. specialize (Hall digest (list_elem_of_here _ _)). congruence.
Qed.

Lemma getBlobs_empty (account : Account) :
  getBlobs account = inr [] ↔ onlyTemporaries (blobBasePath account).
Proof.
  unfold getBlobs, onlyTemporaries.
  destruct (Open root (blobBasePath account)) as [e|].
  { split; [discriminate|]. by intros [? _]. }
  destruct (Readdirnames root (blobBasePath account)) as [e|names].
  { split; [discriminate|]. by intros [_ (names & ? & _)]. }
  split.
  - intros [= Hnil]. split; [done|]. exists names. split; [done|].
    by apply blobsOfNames_empty.
  - intros [_ (names' & [= <-] & Hall)]. f_equal. by apply blobsOfNames_empty.
Qed.

Lemma getRepoManifests_empty (account : Account) (repo : string) :
  getRepoManifests account repo = inr []
  ↔ onlyTemporaries (filepath_Join (manifestBasePath account) repo).
Proof.
  unfold getRepoManifests, onlyTemporaries. cbv zeta.
  destruct (Open root _) as [e|].
  { split; [discriminate|]. by intros [? _]. }
  destruct (Readdirnames root _) as [e|digests].
  { split; [discriminate|]. by intros [_ (names & ? & _)]. }
  split.
  - intros [= Hnil]. split; [done|]. exists digests. split; [done|].
    by apply (manifestsOfDigests_empty repo).
  - intros [_ (names' & [= <-] & Hall)]. f_equal.
    by apply manifestsOfDigests_empty.
Qed.

Lemma manifestsOfRepos_empty (account : Account) (repos : list string) :
  ∀ acc, manifestsOfRepos account repos acc = inr []
    ↔ acc = [] ∧ ∀ r, r ∈ repos → getRepoManifests account r = inr [].
Proof.
  induction repos as [|repo rest IH]; intros acc; simpl.
  - split.
    + intros [= ->]. split; [done|]. intros r Hr. by apply elem_of_nil in Hr.
    + by intros [-> _].
  - destruct (getRepoManifests account repo) as [e|ms] eqn:Hrepo.
    + split; [discriminate|]. intros [_ Hall].
      specialize (Hall repo (list_elem_of_here _ _)). congruence.
    + rewrite IH. split.
      * intros [Happ Hrest]. apply app_eq_nil in Happ as [-> ->].
        split; [done|]. intros r [->|Hr]%elem_of_cons; [done|by apply Hrest].
      * intros [-> Hall].
        pose proof (Hall repo (list_elem_of_here _ _)) as Hhd.
        rewrite Hrepo in Hhd. injection Hhd as ->.
        split; [done|]. intros r Hr. apply Hall. by apply list_elem_of_further.
Qed.

Lemma ListStorageContents_empty (account : Account) :
  ListStorageContents account = ([], [], None) ↔ storageEmpty account.
Proof.
  unfold ListStorageContents, storageEmpty.
  rewrite <- getBlobs_empty.
  destruct (getBlobs account) as [e|blobs].
  { split; [discriminate|]. by intros [? _]. }
  unfold getManifests.
  destruct (Open root (manifestBasePath account)) as [e|].
  { split; [discriminate|]. by intros (_ & ? & _). }
  destruct (Readdirnames root (manifestBasePath account)) as [e|repos].
  { split; [discriminate|]. by intros (_ & _ & repos & ? & _). }
  destruct (manifestsOfRepos account repos []) as [e|ms] eqn:Hms.
  - split; [discriminate|]. intros (_ & _ & repos' & [= <-] & Hall).
    assert (manifestsOfRepos account repos [] = inr []); [|congruence].
    apply manifestsOfRepos_empty. split; [done|].
    intros r Hr. apply getRepoManifests_empty. by apply Hall.
  - split.
    + intros [= -> ->]. split; [done|]. split; [done|].
      exists repos. split; [done|]. intros r Hr.
      apply getRepoManifests_empty.
      by apply (proj1 (manifestsOfRepos_empty account repos [])).
    + intros ([= ->] & _ & repos' & [= <-] & Hall).
      assert (manifestsOfRepos account repos [] = inr []) as Hnil.
      { apply manifestsOfRepos_empty. split; [done|].
        intros r Hr. apply getRepoManifests_empty. by apply Hall. }
      rewrite Hnil in Hms. by injection Hms as <-.
Qed.

(** *** [CleanupAccount] *)

(** C8. [CleanupAccount] refuses while objects remain: when the listing
    reports a blob it returns an error naming the first blob; when it
    reports no blob but a manifest, an error naming the first manifest; and
    it returns nil exactly when the listing succeeded with no blob and no
    manifest, in which case the account's directories hold nothing but
    temporary files. *)
Theorem CleanupAccount_refuses (account : Account)
    (blobs : list StoredBlobInfo) (manifests : list StoredManifestInfo)
    (err : option error) :
  ListStorageContents account = (blobs, manifests, err) →
  (∀ b rest, blobs = b :: rest →
     CleanupAccount account =
       Some (errorString
               ("found undeleted blob during CleanupAccount: storageID = "
                +:+ quote (StorageID b))))
  ∧ (∀ m rest, blobs = [] → manifests = m :: rest →
     CleanupAccount account =
       Some (errorString
               ("found undeleted manifest during CleanupAccount: "
                +:+ RepoName m +:+ "@" +:+ Digest m)))
  ∧ (blobs ≠ [] ∨ manifests ≠ [] → CleanupAccount account ≠ None)
  ∧ (CleanupAccount account = None
     ↔ blobs = [] ∧ manifests = [] ∧ err = None)
  ∧ (CleanupAccount account = None → storageEmpty account).
Proof.
  intros Hlist.
  assert (Hnil : CleanupAccount account = None
                 ↔ blobs = [] ∧ manifests = [] ∧ err = None).
  { unfold CleanupAccount. rewrite Hlist.
    destruct blobs as [|b bs]; [|split; [discriminate|by intros [? _]]].
    destruct manifests as [|m ms]; [|split; [discriminate|by intros (_ & ? & _)]].
    split; [by intros ->|by intros (_ & _ & ->)]. }
  split; [|split; [|split; [|split]]].
  - intros b rest ->. unfold CleanupAccount. by rewrite Hlist.
  - intros m rest -> ->. unfold CleanupAccount. by rewrite Hlist.
  - intros Hsome Hnone. apply Hnil in Hnone as (-> & -> & _).
    by destruct Hsome.
  - exact Hnil.
  - intros Hnone. apply Hnil in Hnone as (-> & -> & ->).
    by apply ListStorageContents_empty.
Qed.

(** *** What the listing reports *)

Lemma substring_app_suffix (s suffix : string) :
  String.substring (String.length s) (String.length suffix) (s +:+ suffix)
  = suffix.
Proof.
  induction s as [|c s IH]; simpl; [|exact IH].
  induction suffix as [|c suffix IH]; simpl; [done|].
  destruct suffix; simpl in *; by f_equal.
Qed.

Lemma strings_HasSuffix_app (s suffix : string) :
  strings_HasSuffix (s +:+ suffix) suffix = true.
Proof.
  unfold strings_HasSuffix.
  assert (Hlen : String.length (s +:+ suffix)
                 = String.length s + String.length suffix).
  { induction s as [|c s IH]; simpl; [done|by rewrite IH]. }
  rewrite Hlen.
  replace (String.length s + String.length suffix - String.length suffix)
    with (String.length s) by lia.
  rewrite substring_app_suffix, String.eqb_refl.
  apply andb_true_iff. split; [|done]. apply Nat.leb_le. lia.
Qed.

Lemma blobsOfNames_elem (names : list string) (b : StoredBlobInfo) :
  b ∈ blobsOfNames names
  ↔ StorageID b ∈ names ∧ strings_HasSuffix (StorageID b) ".tmp" = false.
Proof.
  induction names as [|name rest IH]; simpl.
  - split; [by intros ?%elem_of_nil|by intros [?%elem_of_nil _]].
  - destruct (strings_HasSuffix name ".tmp") eqn:Htmp.
    + rewrite IH. split.
      * intros [Hin Hs]. split; [by apply list_elem_of_further|done].
      * intros [[Heq|Hin]%elem_of_cons Hs]; [congruence|done].
    + rewrite elem_of_cons, IH. split.
      * intros [->|[Hin Hs]]; simpl.
        -- split; [apply list_elem_of_here|done].
        -- split; [by apply list_elem_of_further|done].
      * intros [[Heq|Hin]%elem_of_cons Hs].
        -- left. destruct b as [sid]. simpl in Heq. by subst.
        -- by right.
Qed.

Lemma manifestsOfDigests_elem (repo : string) (digests : list string)
    (m : StoredManifestInfo) :
  m ∈ manifestsOfDigests repo digests
  ↔ RepoName m = repo ∧ Digest m ∈ digests
    ∧ strings_HasSuffix (Digest m) ".tmp" = false.
Proof.
  induction digests as [|digest rest IH]; simpl.
  - split; [by intros ?%elem_of_nil|by intros (_ & ?%elem_of_nil & _)].
  - destruct (strings_HasSuffix digest ".tmp") eqn:Htmp.
    + rewrite IH. split.
      * intros (Hr & Hin & Hs). by repeat split; [|apply list_elem_of_further|].
      * intros (Hr & [Heq|Hin]%elem_of_cons & Hs); [congruence|done].
    + rewrite elem_of_cons, IH. split.
      * intros [->|(Hr & Hin & Hs)]; simpl.
        -- by repeat split; [apply list_elem_of_here|].
        -- by repeat split; [|apply list_elem_of_further|].
      * intros (Hr & [Heq|Hin]%elem_of_cons & Hs).
        -- left. destruct m as [r dg]. simpl in *. by subst.
        -- by right.
Qed.

Lemma getRepoManifests_elem (account : Account) (repo : string)
    (ms : list StoredManifestInfo) (m : StoredManifestInfo) :
  getRepoManifests account repo = inr ms →
  ∃ digests,
    Readdirnames root (filepath_Join (manifestBasePath account) repo)
    = inr digests
    ∧ (m ∈ ms ↔ RepoName m = repo ∧ Digest m ∈ digests
                ∧ strings_HasSuffix (Digest m) ".tmp" = false).
Proof.
  unfold getRepoManifests. cbv zeta.
  destruct (Open root _) as [e|]; [discriminate|].
  destruct (Readdirnames root _) as [e|digests]; [discriminate|].
  intros [= <-]. exists digests. split; [done|].
  apply manifestsOfDigests_elem.
Qed.

Lemma manifestsOfRepos_elem (account : Account) (repos : list string)
    (m : StoredManifestInfo) :
  ∀ acc ms, manifestsOfRepos account repos acc = inr ms →
    (m ∈ ms
     ↔ m ∈ acc
       ∨ ∃ digests,
           RepoName m ∈ repos
           ∧ Readdirnames root
               (filepath_Join (manifestBasePath account) (RepoName m))
             = inr digests
           ∧ Digest m ∈ digests
           ∧ strings_HasSuffix (Digest m) ".tmp" = false).
Proof.
  induction repos as [|repo rest IH]; intros acc ms; simpl.
  - intros [= <-]. split; [by left|].
    intros [?|(? & ?%elem_of_nil & _)]; done.
  - destruct (getRepoManifests account repo) as [e|rms] eqn:Hrepo;
      [discriminate|].
    intros Hrest. rewrite (IH _ _ Hrest), elem_of_app.
    destruct (getRepoManifests_elem account repo rms m Hrepo)
      as (digests & Hread & Hin).
    rewrite Hin. split.
    + intros [[Hacc|(Hr & Hdg & Hs)]|(dgs & Hr & Hrd & Hdg & Hs)].
      * by left.
      * right. exists digests. rewrite Hr.
        by repeat split; [apply list_elem_of_here|..].
      * right. exists dgs. by repeat split; [apply list_elem_of_further|..].
    + intros [Hacc|(dgs & [Hr|Hr]%elem_of_cons & Hrd & Hdg & Hs)].
      * by left; left.
      * left; right. rewrite Hr, Hread in Hrd. injection Hrd as <-.
        by repeat split.
      * right. by exists dgs.
Qed.

(** X6. When [ListStorageContents] succeeds it reports exactly the entries
    of the account's directories whose names do not end in [.tmp]: a blob
    for each such name in the blob directory, and a manifest for each such
    name in each repository directory under the manifest directory. The
    temporary file of an upload in progress or of a manifest being
    written, named by the final name followed by [.tmp], is therefore
    never reported. *)
Theorem ListStorageContents_reports (account : Account)
    (blobs : list StoredBlobInfo) (manifests : list StoredManifestInfo) :
  ListStorageContents account = (blobs, manifests, None) →
  (∃ names repos,
     Readdirnames root (blobBasePath account) = inr names
     ∧ Readdirnames root (manifestBasePath account) = inr repos
     ∧ (∀ b, b ∈ blobs
             ↔ StorageID b ∈ names
               ∧ strings_HasSuffix (StorageID b) ".tmp" = false)
     ∧ (∀ m, m ∈ manifests
             ↔ ∃ digests,
                 RepoName m ∈ repos
                 ∧ Readdirnames root
                     (filepath_Join (manifestBasePath account) (RepoName m))
                   = inr digests
                 ∧ Digest m ∈ digests
                 ∧ strings_HasSuffix (Digest m) ".tmp" = false))
  ∧ (∀ storageID, mkStoredBlobInfo (storageID +:+ ".tmp") ∉ blobs)
  ∧ (∀ repo digest, mkStoredManifestInfo repo (digest +:+ ".tmp") ∉ manifests).
Proof.
  unfold ListStorageContents, getBlobs, getManifests.
  destruct (Open root (blobBasePath account)) as [e|]; [discriminate|].
  destruct (Readdirnames root (blobBasePath account)) as [e|names];
    [discriminate|].
  destruct (Open root (manifestBasePath account)) as [e|]; [discriminate|].
  destruct (Readdirnames root (manifestBasePath account)) as [e|repos];
    [discriminate|].
  destruct (manifestsOfRepos account repos []) as [e|ms] eqn:Hms;
    [discriminate|].
  intros [= <- <-].
  assert (Hm : ∀ m, m ∈ ms
             ↔ ∃ digests,
                 RepoName m ∈ repos
                 ∧ Readdirnames root
                     (filepath_Join (manifestBasePath account) (RepoName m))
                   = inr digests
                 ∧ Digest m ∈ digests
                 ∧ strings_HasSuffix (Digest m) ".tmp" = false).
  { intros m. rewrite (manifestsOfRepos_elem account repos m [] ms Hms).
    split; [|by right]. by intros [?%elem_of_nil|?]. }
  split; [|split].
  - exists names, repos. split; [done|]. split; [done|].
    split; [apply blobsOfNames_elem|exact Hm].
  - intros sid [_ Hs]%blobsOfNames_elem. simpl in Hs.
    by rewrite strings_HasSuffix_app in Hs.
  - intros repo dg (dgs & _ & _ & _ & Hs)%Hm. simpl in Hs.
    by rewrite strings_HasSuffix_app in Hs.
Qed.

(** X7. A failure of the listing goes before anything found:
    [ListStorageContents] returns no partial lists with an error, and
    [CleanupAccount] returns the error of the listing as it is whenever a
    directory of the account cannot be opened or read, be it that the blob
    directory does not exist, or that the manifest directory fails after
    blobs were found. *)
Theorem CleanupAccount_listing_error (account : Account) :
  (∀ blobs manifests e,
     ListStorageContents account = (blobs, manifests, Some e) →
     blobs = [] ∧ manifests = [] ∧ CleanupAccount account = Some e)
  ∧ (∀ e, Open root (blobBasePath account) = Some e →
          CleanupAccount account = Some e)
  ∧ (∀ e, Open root (blobBasePath account) = None →
          Readdirnames root (blobBasePath account) = inl e →
          CleanupAccount account = Some e)
  ∧ (∀ names e, Open root (blobBasePath account) = None →
          Readdirnames root (blobBasePath account) = inr names →
          Open root (manifestBasePath account) = Some e →
          CleanupAccount account = Some e).
Proof.
  split; [|split; [|split]].
  - intros blobs manifests e Hlist.
    assert (blobs = [] ∧ manifests = []) as [-> ->].
    { revert Hlist. unfold ListStorageContents.
      destruct (getBlobs account) as [e1|bs]; [by intros [= <- <- _]|].
      destruct (getManifests account) as [e2|ms]; [by intros [= <- <- _]|].
      discriminate. }
    split; [done|]. split; [done|]. unfold CleanupAccount. by rewrite Hlist.
  - intros e Hopen.
    unfold CleanupAccount, ListStorageContents, getBlobs. by rewrite Hopen.
  - intros e Hopen Hread.
    unfold CleanupAccount, ListStorageContents, getBlobs.
    by rewrite Hopen, Hread.
  - intros names e Hopen Hread HopenM.
    unfold CleanupAccount, ListStorageContents, getBlobs, getManifests.
    by rewrite Hopen, Hread, HopenM.
Qed.

End Driver.

Lemma CleanupAccount_refuses_witness :
  CleanupAccount joinPlain quotePlain exampleFs exampleAccount
  = Some (errorString
            ("found undeleted blob during CleanupAccount: storageID = "
             +:+ quotePlain "6b86b273"))
  ∧ CleanupAccount joinPlain quotePlain emptiedFs exampleAccount = None.
Proof.
  split.
  - apply (proj1 (CleanupAccount_refuses joinPlain quotePlain exampleFs
                    exampleAccount
                    [mkStoredBlobInfo "6b86b273"]
                    [mkStoredManifestInfo "foo" "sha256:8a92"] None
                    eq_refl)
             (mkStoredBlobInfo "6b86b273") []).
    reflexivity.
  - apply (proj1 (proj2 (proj2 (proj2
             (CleanupAccount_refuses joinPlain quotePlain emptiedFs
                exampleAccount [] [] None eq_refl))))).
    repeat split.
Defined.

Lemma ListStorageContents_reports_witness :
  mkStoredBlobInfo ("d4735e3a" +:+ ".tmp")
  ∉ (ListStorageContents joinPlain exampleFs exampleAccount).1.1.
Proof.
  apply (proj1 (proj2 (ListStorageContents_reports joinPlain exampleFs
                         exampleAccount
                         [mkStoredBlobInfo "6b86b273"]
                         [mkStoredManifestInfo "foo" "sha256:8a92"]
                         eq_refl))
           "d4735e3a").
Defined.

End Filesystem.

(* ===================================================================== *)
(** ** The rate-limit engine                                              *)
(* ===================================================================== *)

Module RateLimit.

Import Go.
Import Keppel.

Local Open Scope Z_scope.

(** [type RateLimitedAction string] *)
Abbreviation RateLimitedAction := string (only parsing).

Definition BlobPullAction : RateLimitedAction := "pullblob".
Definition BlobPushAction : RateLimitedAction := "pushblob".
Definition ManifestPullAction : RateLimitedAction := "pullmanifest".
Definition ManifestPushAction : RateLimitedAction := "pushmanifest".
Definition AnycastBlobBytePullAction : RateLimitedAction := "pullblobbytesanycast".

(** The five actions that the package defines. *)
Definition rateLimitedActions : list RateLimitedAction :=
  [ BlobPullAction; BlobPushAction; ManifestPullAction; ManifestPushAction;
    AnycastBlobBytePullAction ].

Definition math_MaxInt64 : Z := 9223372036854775807.

(** [time.Duration] counts nanoseconds. *)
Definition time_Second : Z := 1000000000.

(** [redis_rate.Limit] and [redis_rate.Result], field by field. *)
Record Limit : Set := mkLimit {
  Rate : Z;
  Burst : Z;
  Period : Z
}.

Record Result : Set := mkResult {
  ResultLimit : Limit;
  Allowed : Z;
  Remaining : Z;
  RetryAfter : Z;
  ResetAfter : Z
}.

(** The zero value [redis_rate.Result{}]. *)
Definition zeroResult : Result := mkResult (mkLimit 0 0 0) 0 0 0 0.

(** The interface [RateLimitDriver]: [GetRateLimit] returns nil ([None])
    when the action has no rate limit. *)
Record RateLimitDriver : Type := mkRateLimitDriver {
  GetRateLimit : Account → RateLimitedAction → option Limit
}.

(** The conversion [int(amount)] of a [uint64] on a 64-bit platform. *)
Definition int_of_uint64 (amount : Z) : Z :=
  if amount <? 2 ^ 63 then amount else amount - 2 ^ 64.

(** *** A concrete driver *)

(** A driver that limits manifest pushes only, and a redis stand-in that
    counts the calls it receives. *)
Definition pushLimitDriver : RateLimitDriver :=
  mkRateLimitDriver
    (λ _ action,
       if String.eqb action ManifestPushAction
       then Some (mkLimit 10 10 time_Second) else None).

Definition countingAllowN (calls : nat) (_ : string) (limit : Limit) (_ : Z)
    : (error + Result) * nat :=
  (inr (mkResult limit 1 0 (-1) 0), S calls).

Section Engine.

(** The redis server behind [e.Client], and what [Limiter.AllowN] does on
    it for a key, a limit and a count. *)
Variable Redis : Type.
Variable AllowN : Redis → string → Limit → Z → (error + Result) * Redis.

(** What the engine acts on: the redis server and the calls made to the
    limiter so far. *)
Record World : Type := mkWorld {
  redis : Redis;
  limiterCalls : list (string * Limit * Z)
}.

Definition limiter_AllowN (key : string) (limit : Limit) (n : Z) (w : World)
    : (error + Result) * World :=
  let '(r, redis') := AllowN (redis w) key limit n in
  (r, mkWorld redis' (limiterCalls w ++ [(key, limit, n)])).

(** [RateLimitEngine]: the field [Driver]; [Client] is the redis server of
    the [World]. *)
Record RateLimitEngine : Type := mkRateLimitEngine {
  Driver : RateLimitDriver
}.

(** [func (e RateLimitEngine) RateLimitAllows(account Account, action
    RateLimitedAction, amount uint64) (bool, *redis_rate.Result, error)] *)
Definition RateLimitAllows (e : RateLimitEngine) (account : Account)
    (action : RateLimitedAction) (amount : Z) (w : World)
    : (bool * Result * option error) * World :=
  match GetRateLimit (Driver e) account action with
  | None =>
      ((true,
        mkResult (mkLimit math_MaxInt64 0 time_Second) 0 math_MaxInt64 (-1) 0,
        None), w)
  | Some rateQuota =>
      let key := "keppel-ratelimit-" +:+ action +:+ "-" +:+ Name account in
      match limiter_AllowN key rateQuota (int_of_uint64 amount) w with
      | (inl err, w') => ((false, zeroResult, Some err), w')
      | (inr result, w') => ((0 <? Allowed result, result, None), w')
      end
  end.

(** The key of the last call that the limiter received. *)
Definition lastLimiterKey (w : World) : option string :=
  (λ call, call.1.1) <$> last (limiterCalls w).

(** C10. When the driver's [GetRateLimit] returns nil for the account and
    action, [RateLimitAllows] answers allowed = true with a nil error and a
    result whose [Remaining] is [math.MaxInt64] and whose [RetryAfter] is
    -1, and the limiter is not called: redis and the record of limiter
    calls are as before. *)
Theorem RateLimitAllows_without_limit (e : RateLimitEngine) (account : Account)
    (action : RateLimitedAction) (amount : Z) (w : World) :
  GetRateLimit (Driver e) account action = None →
  ∃ result,
    RateLimitAllows e account action amount w = ((true, result, None), w)
    ∧ Remaining result = 9223372036854775807
    ∧ RetryAfter result = -1
    ∧ ResetAfter result = 0
    ∧ ResultLimit result = mkLimit 9223372036854775807 0 1000000000.
Proof.
  intros Hnil. unfold RateLimitAllows. rewrite Hnil.
  eexists. split; [reflexivity|]. by repeat split.
Qed.

(** With a limit the limiter is called exactly once, on the key of the
    action and account. *)
Lemma RateLimitAllows_with_limit (e : RateLimitEngine) (account : Account)
    (action : RateLimitedAction) (amount : Z) (w : World) (rateQuota : Limit) :
  GetRateLimit (Driver e) account action = Some rateQuota →
  limiterCalls (RateLimitAllows e account action amount w).2
  = (limiterCalls w
     ++ [("keppel-ratelimit-" +:+ action +:+ "-" +:+ Name account,
          rateQuota, int_of_uint64 amount)])%list.
Proof.
  intros Hsome. unfold RateLimitAllows, limiter_AllowN. rewrite Hsome.
  destruct (AllowN _ _ _ _) as [[err|result] redis']; reflexivity.
Qed.

(** X8. [RateLimitAllows] fails closed: whenever it returns an error the
    answer is "not allowed" and the result is the zero [Result]; an answer
    of "allowed" comes with a nil error, and with a limit in force only
    when the limiter granted the request ([Allowed > 0]). *)
Theorem RateLimitAllows_fails_closed (e : RateLimitEngine) (account : Account)
    (action : RateLimitedAction) (amount : Z) (w : World) :
  (∀ err, (RateLimitAllows e account action amount w).1.2 = Some err →
     (RateLimitAllows e account action amount w).1.1.1 = false
     ∧ (RateLimitAllows e account action amount w).1.1.2 = zeroResult
     ∧ GetRateLimit (Driver e) account action ≠ None)
  ∧ ((RateLimitAllows e account action amount w).1.1.1 = true →
     (RateLimitAllows e account action amount w).1.2 = None
     ∧ (GetRateLimit (Driver e) account action = None
        ∨ 0 < Allowed (RateLimitAllows e account action amount w).1.1.2)).
Proof.
  unfold RateLimitAllows, limiter_AllowN.
  destruct (GetRateLimit (Driver e) account action) as [rateQuota|].
  - destruct (AllowN _ _ _ _) as [[err|result] redis']; cbn [fst snd].
    + split; [by intros ? [= <-]|discriminate].
    + split; [discriminate|]. intros Hpos. split; [done|]. right.
      by apply Z.ltb_lt.
  - cbn [fst snd]. split; [discriminate|]. intros _. split; [done|by left].
Qed.

(** X9. No two rate limits share a bucket: for the five actions of the
    package, the key under which [RateLimitAllows] consults the limiter
    determines both the action and the name of the account. *)
Theorem RateLimitAllows_key_injective (e1 e2 : RateLimitEngine)
    (account1 account2 : Account) (action1 action2 : RateLimitedAction)
    (amount1 amount2 : Z) (w1 w2 : World) :
  action1 ∈ rateLimitedActions →
  action2 ∈ rateLimitedActions →
  GetRateLimit (Driver e1) account1 action1 ≠ None →
  GetRateLimit (Driver e2) account2 action2 ≠ None →
  lastLimiterKey (RateLimitAllows e1 account1 action1 amount1 w1).2
  = lastLimiterKey (RateLimitAllows e2 account2 action2 amount2 w2).2 →
  action1 = action2 ∧ Name account1 = Name account2.
Proof.
  intros Ha1 Ha2 Hq1 Hq2.
  destruct (GetRateLimit (Driver e1) account1 action1) as [q1|] eqn:H1; [|done].
  destruct (GetRateLimit (Driver e2) account2 action2) as [q2|] eqn:H2; [|done].
  unfold lastLimiterKey.
  rewrite (RateLimitAllows_with_limit e1 account1 action1 amount1 w1 q1 H1).
  rewrite (RateLimitAllows_with_limit e2 account2 action2 amount2 w2 q2 H2).
  rewrite !last_snoc. cbn [fmap option_fmap option_map fst].
  intros [= Hkey]. revert Hkey.
  unfold rateLimitedActions in Ha1, Ha2.
  repeat (apply elem_of_cons in Ha1 as [->|Ha1];
          [repeat (apply elem_of_cons in Ha2 as [->|Ha2];
                   [cbn; intros Hkey; by simplify_eq|]);
           by apply elem_of_nil in Ha2|]).
  by apply elem_of_nil in Ha1.
Qed.

End Engine.

Lemma RateLimitAllows_without_limit_witness :
  ∃ result,
    RateLimitAllows nat countingAllowN (mkRateLimitEngine pushLimitDriver)
      (mkAccount "tenant1" "test1") BlobPullAction 1 (mkWorld nat 0%nat [])
    = ((true, result, None), mkWorld nat 0%nat [])
    ∧ Remaining result = 9223372036854775807
    ∧ RetryAfter result = -1
    ∧ ResetAfter result = 0
    ∧ ResultLimit result = mkLimit 9223372036854775807 0 1000000000.
Proof.
  apply (RateLimitAllows_without_limit nat countingAllowN
           (mkRateLimitEngine pushLimitDriver)
           (mkAccount "tenant1" "test1") BlobPullAction 1 (mkWorld nat 0%nat [])).
  reflexivity.
Defined.

Lemma RateLimitAllows_key_injective_witness :
  ManifestPushAction = ManifestPushAction
  ∧ Name (mkAccount "tenant1" "test1") = Name (mkAccount "tenant2" "test1").
Proof.
  apply (RateLimitAllows_key_injective nat countingAllowN
           (mkRateLimitEngine pushLimitDriver) (mkRateLimitEngine pushLimitDriver)
           (mkAccount "tenant1" "test1") (mkAccount "tenant2" "test1")
           ManifestPushAction ManifestPushAction 1 2
           (mkWorld nat 0%nat []) (mkWorld nat 5%nat [])).
  - unfold rateLimitedActions. elem_of_literal.
  - unfold rateLimitedActions. elem_of_literal.
  - discriminate.
  - discriminate.
  - reflexivity.
Defined.

End RateLimit.

(* ===================================================================== *)
(** ** Package tasks: the blob-mount sweeper                              *)
(* ===================================================================== *)

Module Tasks.

Import Go.

Local Open Scope Z_scope.

(** *** The tables *)

(** [time.Time] in seconds since the epoch, the unit of the fixtures. *)
Abbreviation Time := Z (only parsing).

Definition time_Minute : Z := 60.
Definition time_Hour : Z := 3600.

(** [keppel.Repository], a row of [repos]. *)
Record Repository : Set := mkRepository {
  ID : Z;
  AccountName : string;
  Name : string;
  NextBlobMountSweepAt : option Time;
  NextManifestSyncAt : option Time;
  NextGarbageCollectionAt : option Time
}.

(** The zero value of [var repo keppel.Repository]. *)
Definition zeroRepository : Repository :=
  mkRepository 0 "" "" None None None.

(** A row of [blob_mounts]. *)
Record BlobMount : Set := mkBlobMount {
  bm_blob_id : Z;
  bm_repo_id : Z;
  bm_can_be_deleted_at : option Time
}.

(** A row of [manifest_blob_refs]. *)
Record ManifestBlobRef : Set := mkManifestBlobRef {
  ref_repo_id : Z;
  ref_digest : string;
  ref_blob_id : Z
}.

(** The columns of [manifests] that the sweeper's queries read. *)
Record Manifest : Set := mkManifest {
  m_repo_id : Z;
  m_digest : string;
  m_validation_error_message : string
}.

(** The database: each table as the list of its rows, in the order in which
    a scan yields them. *)
Record DB : Set := mkDB {
  repos : list Repository;
  blob_mounts : list BlobMount;
  manifest_blob_refs : list ManifestBlobRef;
  manifests : list Manifest
}.

(** *** SQL conditions *)

(** A condition is true, false or unknown ([None], from a NULL operand);
    [WHERE] keeps the rows on which it is true. *)
Definition sqlBool : Set := option bool.

Definition sql_and (a b : sqlBool) : sqlBool :=
  match a, b with
  | Some false, _ | _, Some false => Some false
  | Some true, Some true => Some true
  | _, _ => None
  end.

Definition sql_or (a b : sqlBool) : sqlBool :=
  match a, b with
  | Some true, _ | _, Some true => Some true
  | Some false, Some false => Some false
  | _, _ => None
  end.

Definition sql_is_null {A : Type} (x : option A) : sqlBool :=
  match x with None => Some true | Some _ => Some false end.

Definition sql_lt (x y : option Z) : sqlBool :=
  match x, y with
  | Some a, Some b => Some (a <? b)
  | _, _ => None
  end.

Definition sql_eq (x y : Z) : sqlBool := Some (x =? y).

(** [x IN (...)] and [x NOT IN (...)] over a column that holds no NULL. *)
Definition sql_in (x : Z) (l : list Z) : sqlBool := Some (bool_decide (x ∈ l)).
Definition sql_not_in (x : Z) (l : list Z) : sqlBool :=
  Some (negb (bool_decide (x ∈ l))).

Definition sql_true (c : sqlBool) : bool :=
  match c with Some true => true | _ => false end.

(** *** The five statements *)

(** [SELECT repo_id FROM manifests WHERE validation_error_message != ''] *)
Definition reposWithFailedManifests (d : DB) : list Z :=
  m_repo_id <$>
    filter (λ m, negb (String.eqb (m_validation_error_message m) "")) (manifests d).

(** The [WHERE] clause of [blobMountSweepSearchQuery]. [AND] binds tighter
    than [OR]: the clause reads [a OR (b AND c)]. *)
Definition blobMountSweepSearchWhere (d : DB) (now : Time) (r : Repository)
    : sqlBool :=
  sql_or (sql_is_null (NextBlobMountSweepAt r))
         (sql_and (sql_lt (NextBlobMountSweepAt r) (Some now))
                  (sql_not_in (ID r) (reposWithFailedManifests d))).

(** [ORDER BY next_blob_mount_sweep_at IS NULL DESC,
    next_blob_mount_sweep_at ASC]: [a] does not come after [b]. *)
Definition sweepOrderLe (a b : Repository) : bool :=
  match NextBlobMountSweepAt a, NextBlobMountSweepAt b with
  | None, _ => true
  | Some _, None => false
  | Some x, Some y => x <=? y
  end.

(** Sorting for [ORDER BY]: rows that rank alike keep their scan order. *)
Fixpoint insertOrdered (r : Repository) (sorted : list Repository)
    : list Repository :=
  match sorted with
  | [] => [r]
  | x :: rest =>
      if sweepOrderLe r x then r :: x :: rest
      else x :: insertOrdered r rest
  end.

Definition orderBySweep (rows : list Repository) : list Repository :=
  foldr insertOrdered [] rows.

(** [blobMountSweepSearchQuery], with [LIMIT 1]. *)
Definition blobMountSweepSearchQuery (d : DB) (now : Time) : list Repository :=
  take 1 (orderBySweep
            (filter (λ r, sql_true (blobMountSweepSearchWhere d now r) = true)
                    (repos d))).

(** [SELECT blob_id FROM manifest_blob_refs WHERE repo_id = $1] *)
Definition referencedBlobs (d : DB) (repoID : Z) : list Z :=
  ref_blob_id <$> filter (λ ref, ref_repo_id ref = repoID) (manifest_blob_refs d).

Definition withBlobMounts (d : DB) (mounts : list BlobMount) : DB :=
  mkDB (repos d) mounts (manifest_blob_refs d) (manifests d).

Definition setCanBeDeletedAt (m : BlobMount) (t : option Time) : BlobMount :=
  mkBlobMount (bm_blob_id m) (bm_repo_id m) t.

(** [blobMountMarkQuery] *)
Definition blobMountMarkWhere (d : DB) (repoID : Z) (m : BlobMount) : sqlBool :=
  sql_and (sql_eq (bm_repo_id m) repoID)
    (sql_and (sql_is_null (bm_can_be_deleted_at m))
             (sql_not_in (bm_blob_id m) (referencedBlobs d repoID))).

Definition blobMountMarkQuery (repoID : Z) (canBeDeletedAt : Time) (d : DB) : DB :=
  withBlobMounts d
    ((λ m, if sql_true (blobMountMarkWhere d repoID m)
           then setCanBeDeletedAt m (Some canBeDeletedAt) else m)
     <$> blob_mounts d).

(** [blobMountUnmarkQuery] *)
Definition blobMountUnmarkWhere (d : DB) (repoID : Z) (m : BlobMount) : sqlBool :=
  sql_and (sql_eq (bm_repo_id m) repoID)
          (sql_in (bm_blob_id m) (referencedBlobs d repoID)).

Definition blobMountUnmarkQuery (repoID : Z) (d : DB) : DB :=
  withBlobMounts d
    ((λ m, if sql_true (blobMountUnmarkWhere d repoID m)
           then setCanBeDeletedAt m None else m)
     <$> blob_mounts d).

(** [blobMountSweepMarkedQuery]. The foreign key of migration 006,
    [manifest_blob_refs (blob_id, repo_id) REFERENCES blob_mounts ON DELETE
    RESTRICT], makes the statement fail, deleting nothing, when a row to be
    deleted is referenced. The result carries the number of rows deleted. *)
Definition blobMountSweepMarkedWhere (repoID : Z) (now : Time) (m : BlobMount)
    : sqlBool :=
  sql_and (sql_eq (bm_repo_id m) repoID)
          (sql_lt (bm_can_be_deleted_at m) (Some now)).

Definition isReferenced (d : DB) (m : BlobMount) : bool :=
  bool_decide (bm_blob_id m ∈ referencedBlobs d (bm_repo_id m)).

Definition foreignKeyViolation : error :=
  errorString
    "pq: update or delete on table blob_mounts violates foreign key constraint manifest_blob_refs_blob_id_repo_id_fkey on table manifest_blob_refs".

(** The rows that the sweep statement is to delete. *)
Definition doomed (repoID : Z) (now : Time) (m : BlobMount) : Prop :=
  sql_true (blobMountSweepMarkedWhere repoID now m) = true.

#[global] Instance doomed_dec (repoID : Z) (now : Time) (m : BlobMount) :
  Decision (doomed repoID now m).
Proof. unfold doomed. apply _. Defined.

Definition blobMountSweepMarkedQuery (repoID : Z) (now : Time) (d : DB)
    : error + DB * Z :=
  if existsb (isReferenced d) (filter (doomed repoID now) (blob_mounts d))
  then inl foreignKeyViolation
  else inr (withBlobMounts d
              (filter (λ m, ¬ doomed repoID now m) (blob_mounts d)),
            Z.of_nat (length (filter (doomed repoID now) (blob_mounts d)))).

(** [blobMountSweepDoneQuery] *)
Definition blobMountSweepDoneQuery (repoID : Z) (next : Time) (d : DB) : DB :=
  mkDB ((λ r, if ID r =? repoID
              then mkRepository (ID r) (AccountName r) (Name r) (Some next)
                     (NextManifestSyncAt r) (NextGarbageCollectionAt r)
              else r) <$> repos d)
       (blob_mounts d) (manifest_blob_refs d) (manifests d).

(** *** Notions that the properties are stated with *)

(** A repository holds a manifest that failed validation. *)
Definition hasFailedManifest (d : DB) (r : Repository) : Prop :=
  ∃ m, m ∈ manifests d ∧ m_repo_id m = ID r ∧ m_validation_error_message m ≠ "".

(** The first row of a list ranks before every row of it. *)
Definition headFirst (l : list Repository) : Prop :=
  match l with
  | [] => True
  | x :: _ => ∀ y, y ∈ l → sweepOrderLe x y = true
  end.

(** Some row of [manifest_blob_refs] names the mount's blob in the mount's
    repository. *)
Definition referencedIn (d : DB) (m : BlobMount) : Prop :=
  ∃ ref, ref ∈ manifest_blob_refs d
         ∧ ref_repo_id ref = bm_repo_id m ∧ ref_blob_id ref = bm_blob_id m.

(** Two rows are the same mount: the same blob in the same repository. *)
Definition sameMount (m m' : BlobMount) : Prop :=
  bm_blob_id m' = bm_blob_id m ∧ bm_repo_id m' = bm_repo_id m.

(** Invariant 1 of the data model: every reference has its mount. *)
Definition mountBeforeReference (d : DB) : Prop :=
  ∀ ref, ref ∈ manifest_blob_refs d →
    ∃ m, m ∈ blob_mounts d
         ∧ bm_blob_id m = ref_blob_id ref ∧ bm_repo_id m = ref_repo_id ref.

(** The row that the mark, and the unmark, statement leaves for [m]. *)
Definition markedRow (d : DB) (repoID : Z) (canBeDeletedAt : Time)
    (m : BlobMount) : BlobMount :=
  if sql_true (blobMountMarkWhere d repoID m)
  then setCanBeDeletedAt m (Some canBeDeletedAt) else m.

Definition unmarkedRow (d : DB) (repoID : Z) (m : BlobMount) : BlobMount :=
  if sql_true (blobMountUnmarkWhere d repoID m)
  then setCanBeDeletedAt m None else m.

(** From [d] to [d'] the references are the same and no referenced mount
    is lost. *)
Definition keepsReferenced (d d' : DB) : Prop :=
  manifest_blob_refs d' = manifest_blob_refs d
  ∧ ∀ m, m ∈ blob_mounts d → referencedIn d m →
         ∃ m', m' ∈ blob_mounts d' ∧ sameMount m m'.

(** From [d] to [d'] nothing has changed but the mounts of the repository
    [repoID] and the sweep time of that repository: the manifests and the
    references are the same, so are the mounts of the other repositories
    and the rows of the other repositories, and the rows of [repos] are
    the same up to [next_blob_mount_sweep_at]. *)
Definition withoutSweepTime (r : Repository) : Repository :=
  mkRepository (ID r) (AccountName r) (Name r) None
    (NextManifestSyncAt r) (NextGarbageCollectionAt r).

Definition touchesOnly (repoID : Z) (d d' : DB) : Prop :=
  manifests d' = manifests d
  ∧ manifest_blob_refs d' = manifest_blob_refs d
  ∧ filter (λ m, bm_repo_id m ≠ repoID) (blob_mounts d')
    = filter (λ m, bm_repo_id m ≠ repoID) (blob_mounts d)
  ∧ filter (λ r, ID r ≠ repoID) (repos d')
    = filter (λ r, ID r ≠ repoID) (repos d)
  ∧ withoutSweepTime <$> repos d' = withoutSweepTime <$> repos d.

(** What a run without faults on the repository [repoID] does to a row of
    [blob_mounts], given the database at its start, the clock reading
    [markedAt] of the mark statement and the clock reading [sweptAt] of
    the sweep statement: [None] when the row is deleted, the row that the
    run leaves otherwise. *)
Definition fate (d : DB) (repoID : Z) (markedAt sweptAt : Time) (m : BlobMount)
    : option BlobMount :=
  if bool_decide (bm_repo_id m = repoID) then
    if isReferenced d m then Some (setCanBeDeletedAt m None)
    else
      match bm_can_be_deleted_at m with
      | None =>
          if markedAt + 30 * time_Minute <? sweptAt then None
          else Some (setCanBeDeletedAt m (Some (markedAt + 30 * time_Minute)))
      | Some t => if t <? sweptAt then None else Some m
      end
  else Some m.

(** *** The janitor and its world *)

(** What the janitor logs. *)
Inductive logEntry : Set :=
  | DebugNoBlobMountsToSweep
  | InfoBlobMountsSweeped (rowsDeleted : Z) (repoFullName : string).

(** What a run acts on: the database, the two prometheus counters, the log,
    and how often the clock and the database were called so far. *)
Record World : Set := mkWorld {
  db : DB;
  sweepBlobMountsSuccessCounter : nat;
  sweepBlobMountsFailedCounter : nat;
  logged : list logEntry;
  clockReads : nat;
  dbCalls : nat
}.

(** What a run does not control: the value [j.timeNow()] returns at each
    call, and the calls to the database that fail for reasons of their own
    (a lost connection, say) and with which error. *)
Record Env : Set := mkEnv {
  timeNow : nat → Time;
  dbFault : nat → option error
}.

(** The updates of the world. *)
Definition withDB (w : World) (d : DB) : World :=
  mkWorld d (sweepBlobMountsSuccessCounter w) (sweepBlobMountsFailedCounter w)
    (logged w) (clockReads w) (dbCalls w).

Definition tickClock (w : World) : World :=
  mkWorld (db w) (sweepBlobMountsSuccessCounter w)
    (sweepBlobMountsFailedCounter w) (logged w) (S (clockReads w)) (dbCalls w).

Definition tickDb (w : World) : World :=
  mkWorld (db w) (sweepBlobMountsSuccessCounter w)
    (sweepBlobMountsFailedCounter w) (logged w) (clockReads w) (S (dbCalls w)).

Definition appendLog (w : World) (entry : logEntry) : World :=
  mkWorld (db w) (sweepBlobMountsSuccessCounter w)
    (sweepBlobMountsFailedCounter w) (logged w ++ [entry])
    (clockReads w) (dbCalls w).

Definition incSuccess (w : World) : World :=
  mkWorld (db w) (S (sweepBlobMountsSuccessCounter w))
    (sweepBlobMountsFailedCounter w) (logged w) (clockReads w) (dbCalls w).

Definition incFailed (w : World) : World :=
  mkWorld (db w) (sweepBlobMountsSuccessCounter w)
    (S (sweepBlobMountsFailedCounter w)) (logged w) (clockReads w) (dbCalls w).

(** *** Concrete tables, clocks and worlds *)

(** [Repository.FullName()] as keppel writes it, account and name joined
    by a slash. *)
Definition fullNamePlain (r : Repository) : string :=
  AccountName r +:+ "/" +:+ Name r.

(** A clock that stands at 21600 and a database that never fails. *)
Definition steadyEnv : Env := mkEnv (λ _, 21600) (λ _, None).

(** The same, with the connection lost at the third database call, the
    unmark statement. *)
Definition faultyEnv : Env :=
  mkEnv (λ _, 21600)
        (λ n, if (n =? 2)%nat then Some (errorString "connection lost") else None).

Definition freshWorld (d : DB) : World := mkWorld d 0 0 [] 0 0.

Definition fooRepo : Repository := mkRepository 1 "test1" "foo" None None None.

(** The second seed scenario: mounts 1, 2, 3 and 5, all referenced. *)
Definition allReferencedDB : DB :=
  mkDB [fooRepo]
       [mkBlobMount 1 1 None; mkBlobMount 2 1 None; mkBlobMount 3 1 None;
        mkBlobMount 5 1 None]
       [mkManifestBlobRef 1 "sha256:e255ca60" 1;
        mkManifestBlobRef 1 "sha256:e255ca60" 2;
        mkManifestBlobRef 1 "sha256:e255ca60" 3;
        mkManifestBlobRef 1 "sha256:e255ca60" 5]
       [mkManifest 1 "sha256:e255ca60" ""].

(** Mount 1 is referenced, mount 2 is not and is unmarked, mount 3 is not
    and was marked in an earlier pass. *)
Definition mixedDB : DB :=
  mkDB [fooRepo]
       [mkBlobMount 1 1 None; mkBlobMount 2 1 None; mkBlobMount 3 1 (Some 19800)]
       [mkManifestBlobRef 1 "sha256:e255ca60" 1]
       [mkManifest 1 "sha256:e255ca60" ""].


(** A repository never swept that holds a failed manifest: the fixture of
    the manifest validation test with its manifest marked as failed, and
    with a second mount that the manifest does not reference. *)
Definition failedManifestDB : DB :=
  mkDB [fooRepo]
       [mkBlobMount 1 1 None; mkBlobMount 2 1 None]
       [mkManifestBlobRef 1 "sha256:8a9217f1" 1]
       [mkManifest 1 "sha256:8a9217f1" "manifest blob unknown to registry"].

(** Two repositories that were never swept, the first with two mounts. *)
Definition barRepo : Repository := mkRepository 2 "test1" "bar" None None None.

Definition twoReposDB : DB :=
  mkDB [fooRepo; barRepo]
       [mkBlobMount 1 1 None; mkBlobMount 2 1 None; mkBlobMount 1 2 None]
       [mkManifestBlobRef 1 "sha256:e255ca60" 1]
       [mkManifest 1 "sha256:e255ca60" ""].

(** A clock that stands at 21600 for the four readings of a first run and
    at 25201, one hour and a second later, from then on. *)
Definition laterEnv : Env :=
  mkEnv (λ n, if (n <? 4)%nat then 21600 else 25201) (λ _, None).


Section Janitor.

(** [Repository.FullName()] and the verb [%q] of [fmt]. *)
Variable FullName : Repository → string.
Variable quote : string → string.

Variable env : Env.

(** A step of the function body: it changes the world and either fails
    with an error (the body then returns it) or yields a value. *)
Definition step (A : Type) : Type := World → (error + A) * World.

Definition ret {A : Type} (a : A) : step A := λ w, (inr a, w).

Definition bind {A B : Type} (m : step A) (k : A → step B) : step B :=
  λ w, match m w with
       | (inl err, w') => (inl err, w')
       | (inr a, w') => k a w'
       end.

#[local] Instance step_ret : MRet step := @ret.
#[local] Instance step_bind : MBind step := λ A B k m, bind m k.

(** [j.timeNow()] *)
Definition j_timeNow : step Time :=
  λ w, (inr (timeNow env (clockReads w)), tickClock w).

(** A call to the database: it fails when the environment says so, and
    otherwise runs the statement. *)
Definition dbCall {A : Type} (stmt : DB → error + DB * A) : step A :=
  λ w,
    match dbFault env (dbCalls w) with
    | Some err => (inl err, tickDb w)
    | None =>
        match stmt (db w) with
        | inl err => (inl err, tickDb w)
        | inr (d', a) => (inr a, tickDb (withDB w d'))
        end
    end.

(** [j.db.SelectOne(&repo, blobMountSweepSearchQuery, now)]:
    [sql.ErrNoRows] when the query yields no row. *)
Definition db_SelectOne_search (now : Time) : step Repository :=
  dbCall (λ d, match blobMountSweepSearchQuery d now with
               | [] => inl sql_ErrNoRows
               | repo :: _ => inr (d, repo)
               end).

(** [j.db.Exec] on the update statements; the [sql.Result] is dropped. *)
Definition db_Exec_update (stmt : DB → DB) : step unit :=
  dbCall (λ d, inr (stmt d, tt)).

(** [j.db.Exec(blobMountSweepMarkedQuery, ...)]; the [sql.Result] holds the
    number of rows deleted. *)
Definition db_Exec_sweep (repoID : Z) (now : Time) : step Z :=
  dbCall (blobMountSweepMarkedQuery repoID now).

(** [result.RowsAffected()] *)
Definition result_RowsAffected (result : Z) : step Z :=
  dbCall (λ d, inr (d, result)).

Definition logg (entry : logEntry) : step unit :=
  λ w, (inr tt, appendLog w entry).

(** The body up to the point where [repo] is known: [find repo to sweep]. *)
Definition findRepo : step Repository :=
  λ w,
    match j_timeNow w with
    | (inl err, w1) => (inl err, w1)
    | (inr now, w1) =>
        match db_SelectOne_search now w1 with
        | (inl sql_ErrNoRows, w2) =>
            (inl sql_ErrNoRows, appendLog w2 DebugNoBlobMountsToSweep)
        | (inl err, w2) => (inl err, w2)
        | (inr repo, w2) => (inr repo, w2)
        end
    end.

(** The rest of the body: mark, unmark, sweep, reschedule. *)
Definition sweepRepo (repo : Repository) : step unit :=
  now ← j_timeNow;
  let canBeDeletedAt := now + 30 * time_Minute in
  db_Exec_update (blobMountMarkQuery (ID repo) canBeDeletedAt);;
  db_Exec_update (blobMountUnmarkQuery (ID repo));;
  now ← j_timeNow;
  result ← db_Exec_sweep (ID repo) now;
  rowsDeleted ← result_RowsAffected result;
  (if 0 <? rowsDeleted
   then logg (InfoBlobMountsSweeped rowsDeleted (FullName repo))
   else mret tt);;
  now ← j_timeNow;
  db_Exec_update (blobMountSweepDoneQuery (ID repo) (now + 1 * time_Hour)).

(** The function body without the deferred function: the variable [repo],
    the error it returns and the world it leaves. *)
Definition sweepBody (w : World) : Repository * option error * World :=
  match findRepo w with
  | (inl err, w1) => (zeroRepository, Some err, w1)
  | (inr repo, w1) =>
      match sweepRepo repo w1 with
      | (inl err, w2) => (repo, Some err, w2)
      | (inr _, w2) => (repo, None, w2)
      end
  end.

(** The deferred function, run on the named result [returnErr]. *)
Definition deferred (repo : Repository) (returnErr : option error) (w : World)
    : option error * World :=
  match returnErr with
  | None => (None, incSuccess w)
  | Some sql_ErrNoRows => (Some sql_ErrNoRows, w)
  | Some err =>
      (Some (errorString
               ("while sweeping blob mounts in repo " +:+ quote (FullName repo)
                +:+ ": " +:+ Error err)),
       incFailed w)
  end.

(** [func (j *Janitor) SweepBlobMountsInNextRepo() (returnErr error)] *)
Definition SweepBlobMountsInNextRepo (w : World) : option error * World :=
  let '(repo, returnErr, w') := sweepBody w in
  deferred repo returnErr w'.

(** A run of the body leaves the counters alone, loses no referenced mount
    and changes no reference. *)
Definition bodyFrame (w w' : World) : Prop :=
  keepsReferenced (db w) (db w')
  ∧ sweepBlobMountsSuccessCounter w' = sweepBlobMountsSuccessCounter w
  ∧ sweepBlobMountsFailedCounter w' = sweepBlobMountsFailedCounter w.

Definition stepKeeps {A : Type} (s : step A) : Prop :=
  ∀ w r w', s w = (r, w') → bodyFrame w w'.

(** The clock readings of a run that starts in [w]: at the search, the
    mark, the sweep and the rescheduling. *)
Definition searchTime (w : World) : Time := timeNow env (clockReads w).
Definition markTime (w : World) : Time := timeNow env (S (clockReads w)).
Definition sweepTime (w : World) : Time := timeNow env (S (S (clockReads w))).
Definition doneTime (w : World) : Time :=
  timeNow env (S (S (S (clockReads w)))).

(** The database after the mark and the unmark statement of a run on
    [repo] that starts in [w]. *)
Definition afterMark (w : World) (repo : Repository) : DB :=
  blobMountMarkQuery (ID repo) (markTime w + 30 * time_Minute) (db w).

Definition afterUnmark (w : World) (repo : Repository) : DB :=
  blobMountUnmarkQuery (ID repo) (afterMark w repo).

(** A step changes the database in the way [P] allows, whatever its
    outcome; a step that leaves [repos] as it is when it fails. *)
Definition stepFrame {A : Type} (P : DB → DB → Prop) (s : step A) : Prop :=
  ∀ w r w', s w = (r, w') → P (db w) (db w').

Definition keepsReposOnError {A : Type} (s : step A) : Prop :=
  ∀ w err w', s w = (inl err, w') → repos (db w') = repos (db w).

(** The lines that a run on [repo] that deletes [rowsDeleted] rows logs. *)
Definition sweepLog (repo : Repository) (rowsDeleted : Z) : list logEntry :=
  if 0 <? rowsDeleted then [InfoBlobMountsSweeped rowsDeleted (FullName repo)]
  else [].

(** *** What the search query selects *)

Lemma reposWithFailedManifests_spec (d : DB) (r : Repository) :
  ID r ∈ reposWithFailedManifests d ↔ hasFailedManifest d r.
Proof.
  unfold reposWithFailedManifests, hasFailedManifest.
  rewrite list_elem_of_fmap. split.
  - intros (m & Hid & Hm). apply list_elem_of_filter in Hm as [Hmsg Hm].
    exists m. split; [done|]. split; [done|].
    intros Hempty. rewrite Hempty in Hmsg. by vm_compute in Hmsg.
  - intros (m & Hm & Hid & Hmsg). exists m. split; [done|].
    apply list_elem_of_filter. split; [|done].
    destruct (String.eqb _ "") eqn:Heq; [|done].
    by apply String.eqb_eq in Heq.
Qed.

(** The [WHERE] clause holds for a repository never swept, whatever its
    manifests, and for one past due that has no failed manifest. *)
Lemma blobMountSweepSearchWhere_true (d : DB) (now : Time) (r : Repository) :
  sql_true (blobMountSweepSearchWhere d now r) = true
  ↔ NextBlobMountSweepAt r = None
    ∨ (∃ t, NextBlobMountSweepAt r = Some t ∧ t < now ∧ ¬ hasFailedManifest d r).
Proof.
  pose proof (reposWithFailedManifests_spec d r) as Hspec.
  unfold blobMountSweepSearchWhere.
  destruct (NextBlobMountSweepAt r) as [t|]; simpl; [|by split; [left|]].
  destruct (t <? now) eqn:Hlt; simpl.
  - apply Z.ltb_lt in Hlt.
    destruct (bool_decide (ID r ∈ reposWithFailedManifests d)) eqn:Hin; simpl.
    + apply bool_decide_eq_true in Hin. split; [discriminate|].
      intros [?|(t' & [= <-] & _ & Hnot)]; [discriminate|].
      destruct Hnot. by apply Hspec.
    + apply bool_decide_eq_false in Hin. split; [|done].
      intros _. right. exists t. split; [done|]. split; [done|].
      intros Hfailed. apply Hin. by apply Hspec.
  - apply Z.ltb_ge in Hlt. split; [discriminate|].
    intros [?|(t' & [= <-] & ? & _)]; [discriminate|lia].
Qed.

Lemma sweepOrderLe_total (a b : Repository) :
  sweepOrderLe a b = true ∨ sweepOrderLe b a = true.
Proof.
  unfold sweepOrderLe.
  destruct (NextBlobMountSweepAt a) as [x|], (NextBlobMountSweepAt b) as [y|];
    auto.
  destruct (Z.le_ge_cases x y); [left|right]; by apply Z.leb_le.
Qed.

Lemma sweepOrderLe_trans (a b c : Repository) :
  sweepOrderLe a b = true → sweepOrderLe b c = true → sweepOrderLe a c = true.
Proof.
  unfold sweepOrderLe.
  destruct (NextBlobMountSweepAt a) as [x|], (NextBlobMountSweepAt b) as [y|],
           (NextBlobMountSweepAt c) as [z|]; try done.
  rewrite !Z.leb_le. lia.
Qed.

Lemma insertOrdered_elem (r x : Repository) (l : list Repository) :
  x ∈ insertOrdered r l ↔ x = r ∨ x ∈ l.
Proof.
  induction l as [|y l IH]; simpl.
  - rewrite list_elem_of_singleton. split; [by left|].
    intros [?|H]; [done|by apply elem_of_nil in H].
  - destruct (sweepOrderLe r y).
    + by rewrite elem_of_cons.
    + rewrite !elem_of_cons, IH. tauto.
Qed.

Lemma orderBySweep_elem (x : Repository) (l : list Repository) :
  x ∈ orderBySweep l ↔ x ∈ l.
Proof.
  unfold orderBySweep. induction l as [|y l IH]; simpl; [done|].
  rewrite insertOrdered_elem, elem_of_cons, IH. tauto.
Qed.

Lemma insertOrdered_headFirst (r : Repository) (l : list Repository) :
  headFirst l → headFirst (insertOrdered r l).
Proof.
  destruct l as [|x l]; simpl.
  - intros _ y Hy. apply list_elem_of_singleton in Hy as ->.
    by destruct (sweepOrderLe_total r r).
  - intros Hhead. destruct (sweepOrderLe r x) eqn:Hrx; simpl.
    + intros y [->|Hy]%elem_of_cons.
      * by destruct (sweepOrderLe_total r r).
      * eapply sweepOrderLe_trans; [exact Hrx|by apply Hhead].
    + intros y [->|Hy]%elem_of_cons.
      * apply Hhead, list_elem_of_here.
      * apply insertOrdered_elem in Hy as [->|Hy].
        -- by destruct (sweepOrderLe_total x r) as [H|H]; [|congruence].
        -- apply Hhead. by apply list_elem_of_further.
Qed.

Lemma orderBySweep_headFirst (l : list Repository) : headFirst (orderBySweep l).
Proof.
  unfold orderBySweep. induction l as [|y l IH]; simpl; [done|].
  by apply insertOrdered_headFirst.
Qed.

(** The query yields no row, or the one repository that satisfies the
    [WHERE] clause and ranks before all others that do: one never swept if
    there is any, else the one with the earliest time. *)
Lemma blobMountSweepSearchQuery_spec (d : DB) (now : Time) :
  (blobMountSweepSearchQuery d now = []
   ∧ ∀ r, r ∈ repos d → sql_true (blobMountSweepSearchWhere d now r) = false)
  ∨ (∃ r, blobMountSweepSearchQuery d now = [r]
          ∧ r ∈ repos d
          ∧ sql_true (blobMountSweepSearchWhere d now r) = true
          ∧ ∀ r', r' ∈ repos d →
                  sql_true (blobMountSweepSearchWhere d now r') = true →
                  sweepOrderLe r r' = true).
Proof.
  unfold blobMountSweepSearchQuery.
  set (P := λ r, sql_true (blobMountSweepSearchWhere d now r) = true).
  pose proof (orderBySweep_headFirst (filter P (repos d))) as Hhead.
  pose proof (λ x, orderBySweep_elem x (filter P (repos d))) as Helem.
  destruct (orderBySweep (filter P (repos d))) as [|r rest]; simpl.
  - left. split; [done|]. intros r Hr.
    apply not_true_is_false. intros Hw.
    assert (r ∈ filter P (repos d)) as Hin by by apply list_elem_of_filter.
    apply Helem in Hin. by apply elem_of_nil in Hin.
  - right. exists r. split; [by rewrite take_0|].
    assert (r ∈ filter P (repos d)) as Hin by apply Helem, list_elem_of_here.
    apply list_elem_of_filter in Hin as [Hw Hin].
    split; [done|]. split; [done|].
    intros r' Hr' Hw'. apply Hhead, Helem. by apply list_elem_of_filter.
Qed.

(** A repository past due is excluded when it has a failed manifest. *)
Lemma search_excludes_failed_when_due (d : DB) (now t : Time) (r : Repository) :
  NextBlobMountSweepAt r = Some t → hasFailedManifest d r →
  blobMountSweepSearchQuery d now ≠ [r].
Proof.
  intros Hnext Hfailed Hsel.
  destruct (blobMountSweepSearchQuery_spec d now)
    as [[Hnil _]|(r' & Hr' & _ & Hw & _)]; [congruence|].
  rewrite Hsel in Hr'. injection Hr' as <-.
  apply blobMountSweepSearchWhere_true in Hw
    as [Hnull|(t' & _ & _ & Hnot)]; [congruence|contradiction].
Qed.


(** *** What the four statements on the mounts and the repository do *)

Lemma referencedBlobs_spec (d : DB) (repoID b : Z) :
  b ∈ referencedBlobs d repoID
  ↔ ∃ ref, ref ∈ manifest_blob_refs d
           ∧ ref_repo_id ref = repoID ∧ ref_blob_id ref = b.
Proof.
  unfold referencedBlobs. rewrite list_elem_of_fmap. split.
  - intros (ref & -> & Hin). apply list_elem_of_filter in Hin as [Hrepo Hin].
    by exists ref.
  - intros (ref & Hin & Hrepo & <-). exists ref. split; [done|].
    by apply list_elem_of_filter.
Qed.

Lemma isReferenced_spec (d : DB) (m : BlobMount) :
  isReferenced d m = true ↔ referencedIn d m.
Proof.
  unfold isReferenced, referencedIn.
  rewrite bool_decide_eq_true. apply referencedBlobs_spec.
Qed.

Lemma blobMountMarkWhere_true (d : DB) (repoID : Z) (m : BlobMount) :
  sql_true (blobMountMarkWhere d repoID m) = true
  ↔ bm_repo_id m = repoID ∧ bm_can_be_deleted_at m = None ∧ ¬ referencedIn d m.
Proof.
  unfold blobMountMarkWhere, sql_eq, sql_not_in.
  destruct (bm_repo_id m =? repoID) eqn:Hrepo; simpl.
  - apply Z.eqb_eq in Hrepo.
    destruct (bm_can_be_deleted_at m) as [t|]; simpl.
    { split; [discriminate|]. by intros (_ & ? & _). }
    pose proof (isReferenced_spec d m) as Href. unfold isReferenced in Href.
    rewrite Hrepo in Href.
    destruct (bool_decide (bm_blob_id m ∈ referencedBlobs d repoID)); simpl.
    + split; [discriminate|]. intros (_ & _ & Hnot). destruct Hnot.
      by apply Href.
    + split; [|done]. intros _. split; [done|]. split; [done|].
      intros Hr. apply Href in Hr. discriminate Hr.
  - apply Z.eqb_neq in Hrepo. split; [discriminate|]. by intros [? _].
Qed.

Lemma blobMountUnmarkWhere_true (d : DB) (repoID : Z) (m : BlobMount) :
  sql_true (blobMountUnmarkWhere d repoID m) = true
  ↔ bm_repo_id m = repoID ∧ referencedIn d m.
Proof.
  unfold blobMountUnmarkWhere, sql_eq, sql_in.
  destruct (bm_repo_id m =? repoID) eqn:Hrepo; simpl.
  - apply Z.eqb_eq in Hrepo.
    pose proof (isReferenced_spec d m) as Href. unfold isReferenced in Href.
    rewrite Hrepo in Href.
    destruct (bool_decide (bm_blob_id m ∈ referencedBlobs d repoID)); simpl.
    + split; [|done]. intros _. split; [done|]. by apply Href.
    + split; [discriminate|]. intros [_ Hr]. apply Href in Hr. discriminate Hr.
  - apply Z.eqb_neq in Hrepo. split; [discriminate|]. by intros [? _].
Qed.

Lemma blobMountSweepMarkedWhere_true (repoID : Z) (now : Time) (m : BlobMount) :
  sql_true (blobMountSweepMarkedWhere repoID now m) = true
  ↔ bm_repo_id m = repoID ∧ ∃ t, bm_can_be_deleted_at m = Some t ∧ t < now.
Proof.
  unfold blobMountSweepMarkedWhere, sql_eq.
  destruct (bm_repo_id m =? repoID) eqn:Hrepo; simpl.
  - apply Z.eqb_eq in Hrepo.
    destruct (bm_can_be_deleted_at m) as [t|]; simpl.
    + destruct (t <? now) eqn:Hlt.
      * apply Z.ltb_lt in Hlt. split; [|done]. intros _. split; [done|].
        by exists t.
      * apply Z.ltb_ge in Hlt. split; [discriminate|].
        intros (_ & t' & [= <-] & ?). lia.
    + split; [discriminate|]. by intros (_ & t' & ? & _).
  - apply Z.eqb_neq in Hrepo. split; [discriminate|]. by intros [? _].
Qed.

Lemma markedRow_sameMount (d : DB) (repoID : Z) (t : Time) (m : BlobMount) :
  sameMount m (markedRow d repoID t m).
Proof. unfold markedRow, sameMount. by destruct (sql_true _). Qed.

Lemma unmarkedRow_sameMount (d : DB) (repoID : Z) (m : BlobMount) :
  sameMount m (unmarkedRow d repoID m).
Proof. unfold unmarkedRow, sameMount. by destruct (sql_true _). Qed.

Lemma referencedIn_sameMount (d d' : DB) (m m' : BlobMount) :
  manifest_blob_refs d' = manifest_blob_refs d → sameMount m m' →
  referencedIn d m ↔ referencedIn d' m'.
Proof.
  intros Hrefs [Hb Hr]. unfold referencedIn. rewrite Hrefs, Hb, Hr. done.
Qed.

Lemma keepsReferenced_refl (d : DB) : keepsReferenced d d.
Proof. split; [done|]. intros m Hm _. by exists m. Qed.

Lemma keepsReferenced_trans (d1 d2 d3 : DB) :
  keepsReferenced d1 d2 → keepsReferenced d2 d3 → keepsReferenced d1 d3.
Proof.
  intros [Hrefs12 Hkeep12] [Hrefs23 Hkeep23]. split; [congruence|].
  intros m Hm Href.
  destruct (Hkeep12 m Hm Href) as (m2 & Hm2 & Hsame12).
  destruct (Hkeep23 m2 Hm2) as (m3 & Hm3 & Hsame23).
  { by apply (referencedIn_sameMount d1 d2 m m2). }
  exists m3. split; [done|].
  destruct Hsame12 as [? ?], Hsame23 as [? ?]. split; congruence.
Qed.

Lemma keepsReferenced_invariant (d d' : DB) :
  keepsReferenced d d' → mountBeforeReference d → mountBeforeReference d'.
Proof.
  intros [Hrefs Hkeep] Hinv ref Href. rewrite Hrefs in Href.
  destruct (Hinv ref Href) as (m & Hm & Hb & Hr).
  destruct (Hkeep m Hm) as (m' & Hm' & Hb' & Hr').
  { exists ref. by rewrite Hb, Hr. }
  exists m'. split; [done|]. split; congruence.
Qed.

Lemma blobMountMarkQuery_keeps (repoID : Z) (t : Time) (d : DB) :
  keepsReferenced d (blobMountMarkQuery repoID t d).
Proof.
  split; [done|]. intros m Hm _. exists (markedRow d repoID t m).
  split; [|apply markedRow_sameMount].
  simpl. apply list_elem_of_fmap. by exists m.
Qed.

Lemma blobMountUnmarkQuery_keeps (repoID : Z) (d : DB) :
  keepsReferenced d (blobMountUnmarkQuery repoID d).
Proof.
  split; [done|]. intros m Hm _. exists (unmarkedRow d repoID m).
  split; [|apply unmarkedRow_sameMount].
  simpl. apply list_elem_of_fmap. by exists m.
Qed.

Lemma blobMountSweepDoneQuery_keeps (repoID : Z) (t : Time) (d : DB) :
  keepsReferenced d (blobMountSweepDoneQuery repoID t d).
Proof. split; [done|]. intros m Hm _. by exists m. Qed.

Lemma blobMountSweepMarkedQuery_ok (repoID : Z) (now : Time) (d d' : DB) (n : Z) :
  blobMountSweepMarkedQuery repoID now d = inr (d', n) →
  d' = withBlobMounts d (filter (λ m, ¬ doomed repoID now m) (blob_mounts d))
  ∧ n = Z.of_nat (length (filter (doomed repoID now) (blob_mounts d)))
  ∧ ∀ m, m ∈ blob_mounts d → doomed repoID now m → ¬ referencedIn d m.
Proof.
  unfold blobMountSweepMarkedQuery.
  destruct (existsb _ _) eqn:Hviol; [discriminate|].
  intros [= <- <-]. split; [done|]. split; [done|].
  intros m Hm Hdoomed Href.
  apply isReferenced_spec in Href.
  assert (existsb (isReferenced d)
            (filter (doomed repoID now) (blob_mounts d)) = true) as Hex;
    [|congruence].
  apply existsb_exists. exists m. split; [|done].
  apply list_elem_of_In. by apply list_elem_of_filter.
Qed.

(** The foreign key at work: whatever the state, a sweep statement that
    succeeds loses no referenced mount. *)
Lemma blobMountSweepMarkedQuery_keeps (repoID : Z) (now : Time) (d d' : DB) (n : Z) :
  blobMountSweepMarkedQuery repoID now d = inr (d', n) → keepsReferenced d d'.
Proof.
  intros Hok. apply blobMountSweepMarkedQuery_ok in Hok as (-> & _ & Hfree).
  split; [done|]. intros m Hm Href. exists m. split; [|done].
  simpl. apply list_elem_of_filter. split; [|done].
  intros Hdoomed. by apply (Hfree m).
Qed.

(** The order at work: after the unmark statement no referenced mount of
    the repository is marked, so none is doomed, and the sweep statement
    succeeds without help from the foreign key. *)
Lemma unmark_clears_referenced (repoID : Z) (d : DB) (m : BlobMount) :
  m ∈ blob_mounts (blobMountUnmarkQuery repoID d) →
  bm_repo_id m = repoID → referencedIn d m →
  bm_can_be_deleted_at m = None.
Proof.
  simpl. intros Hm Hrepo Href.
  apply list_elem_of_fmap in Hm as (m0 & -> & Hm0).
  fold (unmarkedRow d repoID m0) in *.
  pose proof (unmarkedRow_sameMount d repoID m0) as Hsame.
  unfold unmarkedRow in *.
  destruct (sql_true (blobMountUnmarkWhere d repoID m0)) eqn:Hw; [done|].
  assert (sql_true (blobMountUnmarkWhere d repoID m0) = true); [|congruence].
  apply blobMountUnmarkWhere_true. done.
Qed.

Lemma doomed_after_unmark_unreferenced (repoID : Z) (now : Time) (d : DB)
    (m : BlobMount) :
  m ∈ blob_mounts (blobMountUnmarkQuery repoID d) →
  doomed repoID now m → ¬ referencedIn (blobMountUnmarkQuery repoID d) m.
Proof.
  intros Hm Hdoomed Href.
  apply blobMountSweepMarkedWhere_true in Hdoomed as (Hrepo & t & Ht & _).
  assert (bm_can_be_deleted_at m = None); [|congruence].
  by apply (unmark_clears_referenced repoID d).
Qed.

Lemma sweep_after_unmark_succeeds (repoID : Z) (now : Time) (d : DB) :
  ∃ d' n, blobMountSweepMarkedQuery repoID now (blobMountUnmarkQuery repoID d)
          = inr (d', n).
Proof.
  unfold blobMountSweepMarkedQuery.
  destruct (existsb _ _) eqn:Hviol; [|eauto].
  apply existsb_exists in Hviol as (m & Hm & Href).
  apply list_elem_of_In, list_elem_of_filter in Hm as [Hdoomed Hm].
  apply isReferenced_spec in Href.
  by destruct (doomed_after_unmark_unreferenced repoID now d m).
Qed.

(** *** What a run keeps *)

Lemma bodyFrame_refl (w : World) : bodyFrame w w.
Proof. split; [apply keepsReferenced_refl|done]. Qed.

Lemma bodyFrame_trans (w1 w2 w3 : World) :
  bodyFrame w1 w2 → bodyFrame w2 w3 → bodyFrame w1 w3.
Proof.
  intros (Hk12 & Hs12 & Hf12) (Hk23 & Hs23 & Hf23).
  split; [by eapply keepsReferenced_trans|]. split; congruence.
Qed.

Lemma stepKeeps_ret {A : Type} (a : A) : stepKeeps (mret a).
Proof. intros w r w' [= <- <-]. apply bodyFrame_refl. Qed.

Lemma stepKeeps_bind {A B : Type} (m : step A) (k : A → step B) :
  stepKeeps m → (∀ a, stepKeeps (k a)) → stepKeeps (m ≫= k).
Proof.
  intros Hm Hk w r w'. unfold mbind, step_bind, bind.
  destruct (m w) as [[err|a] w1] eqn:Hrun.
  - intros [= <- <-]. by apply (Hm w (inl err)).
  - intros Hrest. eapply bodyFrame_trans; [by apply (Hm w (inr a))|].
    by apply (Hk a w1 r).
Qed.

Lemma stepKeeps_timeNow : stepKeeps j_timeNow.
Proof.
  intros w r w' [= <- <-]. split; [apply keepsReferenced_refl|done].
Qed.

Lemma stepKeeps_logg (entry : logEntry) : stepKeeps (logg entry).
Proof.
  intros w r w' [= <- <-]. split; [apply keepsReferenced_refl|done].
Qed.

Lemma stepKeeps_dbCall {A : Type} (stmt : DB → error + DB * A) :
  (∀ d d' a, stmt d = inr (d', a) → keepsReferenced d d') →
  stepKeeps (dbCall stmt).
Proof.
  intros Hstmt w r w'. unfold dbCall.
  destruct (dbFault env (dbCalls w)) as [err|].
  { intros [= <- <-]. split; [apply keepsReferenced_refl|done]. }
  destruct (stmt (db w)) as [err|[d' a]] eqn:Hrun.
  { intros [= <- <-]. split; [apply keepsReferenced_refl|done]. }
  intros [= <- <-]. split; [|done]. by apply (Hstmt _ _ a).
Qed.

Lemma stepKeeps_update (stmt : DB → DB) :
  (∀ d, keepsReferenced d (stmt d)) → stepKeeps (db_Exec_update stmt).
Proof.
  intros Hstmt. apply stepKeeps_dbCall. intros d d' a [= <- _]. apply Hstmt.
Qed.

Lemma stepKeeps_sweepRepo (repo : Repository) : stepKeeps (sweepRepo repo).
Proof.
  unfold sweepRepo.
  apply stepKeeps_bind; [apply stepKeeps_timeNow|]. intros tMark.
  apply stepKeeps_bind.
  { apply stepKeeps_update. apply blobMountMarkQuery_keeps. }
  intros _. apply stepKeeps_bind.
  { apply stepKeeps_update. apply blobMountUnmarkQuery_keeps. }
  intros _. apply stepKeeps_bind; [apply stepKeeps_timeNow|]. intros tSweep.
  apply stepKeeps_bind.
  { apply stepKeeps_dbCall. apply blobMountSweepMarkedQuery_keeps. }
  intros result. apply stepKeeps_bind.
  { apply stepKeeps_dbCall. intros d d' a [= <- _]. apply keepsReferenced_refl. }
  intros rowsDeleted. apply stepKeeps_bind.
  { destruct (0 <? rowsDeleted); [apply stepKeeps_logg|apply stepKeeps_ret]. }
  intros _. apply stepKeeps_bind; [apply stepKeeps_timeNow|]. intros tDone.
  apply stepKeeps_update. apply blobMountSweepDoneQuery_keeps.
Qed.

(** The search leaves the database as it is, and the repository it yields
    is the row of the search query. *)
Lemma findRepo_spec (w : World) (r : error + Repository) (w1 : World) :
  findRepo w = (r, w1) →
  db w1 = db w
  ∧ sweepBlobMountsSuccessCounter w1 = sweepBlobMountsSuccessCounter w
  ∧ sweepBlobMountsFailedCounter w1 = sweepBlobMountsFailedCounter w
  ∧ clockReads w1 = S (clockReads w)
  ∧ ∀ repo, r = inr repo →
      dbFault env (dbCalls w) = None
      ∧ blobMountSweepSearchQuery (db w) (timeNow env (clockReads w)) = [repo].
Proof.
  unfold findRepo, j_timeNow, db_SelectOne_search, dbCall. simpl.
  destruct (dbFault env (dbCalls w)) as [err|] eqn:Hfault.
  { destruct err; intros [= <- <-]; by repeat split. }
  pose proof (blobMountSweepSearchQuery_spec (db w) (timeNow env (clockReads w)))
    as [[Hnil _]|(repo & Hsel & _)].
  - rewrite Hnil. intros [= <- <-]. by repeat split.
  - rewrite Hsel. intros [= <- <-]. repeat split; try done; congruence.
Qed.

Lemma sweepBody_frame (w : World) (repo : Repository) (returnErr : option error)
    (w' : World) :
  sweepBody w = (repo, returnErr, w') → bodyFrame w w'.
Proof.
  unfold sweepBody.
  destruct (findRepo w) as [[err|found] w1] eqn:Hfind.
  - intros [= _ _ <-].
    apply findRepo_spec in Hfind as (Hdb & Hs & Hf & _).
    split; [rewrite Hdb; apply keepsReferenced_refl|done].
  - apply findRepo_spec in Hfind as (Hdb & Hs & Hf & _).
    assert (bodyFrame w w1) as Hw1.
    { split; [rewrite Hdb; apply keepsReferenced_refl|done]. }
    destruct (sweepRepo found w1) as [[err|[]] w2] eqn:Hsweep;
      intros [= _ _ <-];
      (eapply bodyFrame_trans; [exact Hw1|]);
      by apply (stepKeeps_sweepRepo found w1 _ w2 Hsweep).
Qed.

(** *** A run without faults *)

Lemma findRepo_no_fault (w : World) (repo : Repository) :
  dbFault env (dbCalls w) = None →
  blobMountSweepSearchQuery (db w) (timeNow env (clockReads w)) = [repo] →
  findRepo w = (inr repo, tickDb (tickClock w)).
Proof.
  intros Hfault Hsel.
  unfold findRepo, j_timeNow, db_SelectOne_search, dbCall.
  cbn [db dbCalls clockReads tickClock]. by rewrite Hfault, Hsel.
Qed.

(** Without faults a run on the selected repository executes mark, unmark,
    sweep and reschedule in this order, each on the result of the one
    before, and returns nil. *)
Lemma sweep_run_no_fault (w : World) (repo : Repository) :
  (∀ n, dbFault env n = None) →
  blobMountSweepSearchQuery (db w) (searchTime w) = [repo] →
  ∃ swept n w',
    blobMountSweepMarkedQuery (ID repo) (sweepTime w) (afterUnmark w repo)
    = inr (swept, n)
    ∧ SweepBlobMountsInNextRepo w = (None, w')
    ∧ db w' = blobMountSweepDoneQuery (ID repo) (doneTime w + 1 * time_Hour) swept
    ∧ sweepBlobMountsSuccessCounter w' = S (sweepBlobMountsSuccessCounter w)
    ∧ sweepBlobMountsFailedCounter w' = sweepBlobMountsFailedCounter w.
Proof.
  intros Hfault Hsel.
  destruct (sweep_after_unmark_succeeds (ID repo) (sweepTime w) (afterMark w repo))
    as (swept & n & Hsweep).
  fold (afterUnmark w repo) in Hsweep.
  exists swept, n. cut (∃ w', SweepBlobMountsInNextRepo w = (None, w')
    ∧ db w' = blobMountSweepDoneQuery (ID repo) (doneTime w + 1 * time_Hour) swept
    ∧ sweepBlobMountsSuccessCounter w' = S (sweepBlobMountsSuccessCounter w)
    ∧ sweepBlobMountsFailedCounter w' = sweepBlobMountsFailedCounter w).
  { intros (w' & Hrun). by exists w'. }
  unfold SweepBlobMountsInNextRepo, sweepBody.
  rewrite (findRepo_no_fault w repo (Hfault _) Hsel).
  unfold sweepRepo, mbind, step_bind, bind, mret, step_ret, ret,
    db_Exec_update, db_Exec_sweep, result_RowsAffected, dbCall, j_timeNow.
  cbn [db dbCalls clockReads tickClock tickDb withDB].
  rewrite !Hfault.
  cbn [db dbCalls clockReads tickClock tickDb withDB].
  fold (markTime w). fold (afterMark w repo). fold (afterUnmark w repo).
  fold (sweepTime w). fold (doneTime w).
  rewrite Hsweep.
  cbn [db dbCalls clockReads tickClock tickDb withDB].
  rewrite Hfault.
  destruct (0 <? n); unfold logg;
    cbn [db dbCalls clockReads tickClock tickDb withDB appendLog];
    rewrite Hfault; cbn [deferred];
    eexists; (split; [reflexivity|]); by repeat split.
Qed.

Lemma deferred_db (repo : Repository) (returnErr : option error) (w : World) :
  db (deferred repo returnErr w).2 = db w.
Proof. by destruct returnErr as [[|msg]|]. Qed.

(** *** Properties of a run *)

(** C2. A run of [SweepBlobMountsInNextRepo] deletes no blob mount that a
    row of [manifest_blob_refs] names: whatever the clock shows and
    whichever database calls fail, the references are unchanged and every
    referenced mount is still there, so that the mount-before-reference
    invariant is preserved. The unmark statement clears
    [can_be_deleted_at] on every referenced mount of the repository; the
    sweep statement deletes only rows of the repository whose
    [can_be_deleted_at] is not NULL and earlier than now, none of them
    referenced; in a run the sweep statement acts on the result of the
    unmark statement, where it succeeds without the foreign key having to
    refuse it; and the foreign key keeps a sweep statement from deleting a
    referenced mount in every state. *)
Theorem sweep_keeps_referenced_mounts (w : World) :
  keepsReferenced (db w) (db (SweepBlobMountsInNextRepo w).2)
  ∧ (mountBeforeReference (db w) →
     mountBeforeReference (db (SweepBlobMountsInNextRepo w).2))
  ∧ (∀ repoID d m,
       m ∈ blob_mounts (blobMountUnmarkQuery repoID d) →
       bm_repo_id m = repoID → referencedIn d m →
       bm_can_be_deleted_at m = None)
  ∧ (∀ repoID now d d' n m,
       blobMountSweepMarkedQuery repoID now d = inr (d', n) →
       m ∈ blob_mounts d → m ∉ blob_mounts d' →
       bm_repo_id m = repoID
       ∧ (∃ t, bm_can_be_deleted_at m = Some t ∧ t < now)
       ∧ ¬ referencedIn d m)
  ∧ (∀ repo,
       (∀ n, dbFault env n = None) →
       blobMountSweepSearchQuery (db w) (searchTime w) = [repo] →
       ∃ swept n,
         blobMountSweepMarkedQuery (ID repo) (sweepTime w) (afterUnmark w repo)
         = inr (swept, n)
         ∧ db (SweepBlobMountsInNextRepo w).2
           = blobMountSweepDoneQuery (ID repo) (doneTime w + 1 * time_Hour) swept)
  ∧ (∀ repoID now d d' n,
       blobMountSweepMarkedQuery repoID now d = inr (d', n) →
       keepsReferenced d d').
Proof.
  assert (Hkeeps : keepsReferenced (db w) (db (SweepBlobMountsInNextRepo w).2)).
  { unfold SweepBlobMountsInNextRepo.
    destruct (sweepBody w) as [[repo returnErr] w'] eqn:Hbody.
    rewrite deferred_db. by apply (sweepBody_frame w repo returnErr w'). }
  split; [exact Hkeeps|]. split; [by apply keepsReferenced_invariant|].
  split; [apply unmark_clears_referenced|]. split; [|split].
  - intros repoID now d d' n m Hok Hm Hgone.
    apply blobMountSweepMarkedQuery_ok in Hok as (-> & _ & Hfree).
    assert (doomed repoID now m) as Hdoomed.
    { destruct (decide (doomed repoID now m)) as [|Hnot]; [done|].
      destruct Hgone. simpl. by apply list_elem_of_filter. }
    pose proof Hdoomed as Hwhere.
    apply blobMountSweepMarkedWhere_true in Hwhere as [Hrepo Hpast].
    split; [done|]. split; [done|]. by apply Hfree.
  - intros repo Hfault Hsel.
    destruct (sweep_run_no_fault w repo Hfault Hsel)
      as (swept & n & w' & Hsweep & Hrun & Hdb & _).
    exists swept, n. split; [done|]. by rewrite Hrun.
  - apply blobMountSweepMarkedQuery_keeps.
Qed.





(** *** What a run touches *)

Lemma filter_fmap_fixed {A : Type} (P : A → Prop) `{!∀ x, Decision (P x)}
    (f : A → A) (l : list A) :
  (∀ x, P (f x) ↔ P x) → (∀ x, P x → f x = x) →
  filter P (f <$> l) = filter P l.
Proof.
  intros Hiff Hfix. induction l as [|x l IH]; [done|].
  rewrite fmap_cons, !filter_cons, IH.
  destruct (decide (P (f x))) as [Hf|Hf], (decide (P x)) as [Hx|Hx].
  - by rewrite (Hfix x Hx).
  - destruct Hx. by apply Hiff.
  - destruct Hf. by apply Hiff.
  - done.
Qed.

Lemma filter_filter_implied {A : Type} (P Q : A → Prop)
    `{!∀ x, Decision (P x)} `{!∀ x, Decision (Q x)} (l : list A) :
  (∀ x, P x → Q x) → filter P (filter Q l) = filter P l.
Proof.
  intros Himp. induction l as [|x l IH]; [done|].
  rewrite !filter_cons.
  destruct (decide (Q x)) as [Hq|Hq].
  - rewrite filter_cons. by destruct (decide (P x)); rewrite IH.
  - destruct (decide (P x)) as [Hp|Hp]; [destruct Hq; by apply Himp|done].
Qed.

Lemma filter_fmap_omap {A : Type} (P : A → Prop) `{!∀ x, Decision (P x)}
    (f : A → A) (l : list A) :
  filter P (f <$> l)
  = omap (λ x, if decide (P (f x)) then Some (f x) else None) l.
Proof.
  induction l as [|x l IH]; [done|].
  rewrite fmap_cons, filter_cons. cbn [omap list_omap]. rewrite IH.
  by destruct (decide (P (f x))).
Qed.

Lemma touchesOnly_refl (repoID : Z) (d : DB) : touchesOnly repoID d d.
Proof. by repeat split. Qed.

Lemma touchesOnly_trans (repoID : Z) (d1 d2 d3 : DB) :
  touchesOnly repoID d1 d2 → touchesOnly repoID d2 d3 → touchesOnly repoID d1 d3.
Proof.
  intros (Hm1 & Hr1 & Hb1 & Hp1 & Hn1) (Hm2 & Hr2 & Hb2 & Hp2 & Hn2).
  repeat split; congruence.
Qed.

Lemma blobMountMarkQuery_touches (repoID : Z) (t : Time) (d : DB) :
  touchesOnly repoID d (blobMountMarkQuery repoID t d).
Proof.
  repeat split; try done. unfold blobMountMarkQuery. cbn [blob_mounts withBlobMounts].
  apply filter_fmap_fixed.
  - intros m. by destruct (sql_true _).
  - intros m Hm. destruct (sql_true _) eqn:Hw; [|done].
    apply blobMountMarkWhere_true in Hw as [Hid _]. done.
Qed.

Lemma blobMountUnmarkQuery_touches (repoID : Z) (d : DB) :
  touchesOnly repoID d (blobMountUnmarkQuery repoID d).
Proof.
  repeat split; try done. unfold blobMountUnmarkQuery.
  cbn [blob_mounts withBlobMounts].
  apply filter_fmap_fixed.
  - intros m. by destruct (sql_true _).
  - intros m Hm. destruct (sql_true _) eqn:Hw; [|done].
    apply blobMountUnmarkWhere_true in Hw as [Hid _]. done.
Qed.

Lemma blobMountSweepMarkedQuery_touches (repoID : Z) (now : Time) (d d' : DB)
    (n : Z) :
  blobMountSweepMarkedQuery repoID now d = inr (d', n) →
  touchesOnly repoID d d'.
Proof.
  intros (-> & _ & _)%blobMountSweepMarkedQuery_ok.
  repeat split; try done. cbn [blob_mounts withBlobMounts].
  apply filter_filter_implied. intros m Hm Hdoomed.
  apply blobMountSweepMarkedWhere_true in Hdoomed as [Hid _]. done.
Qed.

Lemma blobMountSweepDoneQuery_touches (repoID : Z) (t : Time) (d : DB) :
  touchesOnly repoID d (blobMountSweepDoneQuery repoID t d).
Proof.
  repeat split; try done; unfold blobMountSweepDoneQuery; cbn [repos].
  - apply filter_fmap_fixed.
    + intros r. by destruct (ID r =? repoID).
    + intros r Hr. destruct (ID r =? repoID) eqn:Heq; [|done].
      apply Z.eqb_eq in Heq. done.
  - rewrite <- list_fmap_compose. apply list_fmap_ext. intros i r _. simpl.
    by destruct (ID r =? repoID).
Qed.

Lemma stepFrame_ret {A : Type} (P : DB → DB → Prop) (a : A) :
  (∀ d, P d d) → stepFrame P (mret a).
Proof. intros Hrefl w r w' [= <- <-]. apply Hrefl. Qed.

Lemma stepFrame_bind {A B : Type} (P : DB → DB → Prop) (m : step A)
    (k : A → step B) :
  (∀ d1 d2 d3, P d1 d2 → P d2 d3 → P d1 d3) →
  stepFrame P m → (∀ a, stepFrame P (k a)) → stepFrame P (m ≫= k).
Proof.
  intros Htrans Hm Hk w r w'. unfold mbind, step_bind, bind.
  destruct (m w) as [[err|a] w1] eqn:Hrun.
  - intros [= <- <-]. by apply (Hm w (inl err)).
  - intros Hrest. eapply Htrans; [by apply (Hm w (inr a))|].
    by apply (Hk a w1 r).
Qed.

Lemma stepFrame_timeNow (P : DB → DB → Prop) :
  (∀ d, P d d) → stepFrame P j_timeNow.
Proof. intros Hrefl w r w' [= <- <-]. apply Hrefl. Qed.

Lemma stepFrame_logg (P : DB → DB → Prop) (entry : logEntry) :
  (∀ d, P d d) → stepFrame P (logg entry).
Proof. intros Hrefl w r w' [= <- <-]. apply Hrefl. Qed.

Lemma stepFrame_dbCall {A : Type} (P : DB → DB → Prop)
    (stmt : DB → error + DB * A) :
  (∀ d, P d d) →
  (∀ d d' a, stmt d = inr (d', a) → P d d') →
  stepFrame P (dbCall stmt).
Proof.
  intros Hrefl Hstmt w r w'. unfold dbCall.
  destruct (dbFault env (dbCalls w)) as [err|].
  { intros [= <- <-]. apply Hrefl. }
  destruct (stmt (db w)) as [err|[d' a]] eqn:Hrun.
  { intros [= <- <-]. apply Hrefl. }
  intros [= <- <-]. by apply (Hstmt _ _ a).
Qed.

Lemma stepFrame_sweepRepo (repo : Repository) :
  stepFrame (touchesOnly (ID repo)) (sweepRepo repo).
Proof.
  pose proof (touchesOnly_refl (ID repo)) as Hrefl.
  pose proof (touchesOnly_trans (ID repo)) as Htrans.
  unfold sweepRepo.
  apply stepFrame_bind; [done|by apply stepFrame_timeNow|]. intros tMark.
  apply stepFrame_bind; [done| |].
  { apply stepFrame_dbCall; [done|]. intros d d' a [= <- _].
    apply blobMountMarkQuery_touches. }
  intros _. apply stepFrame_bind; [done| |].
  { apply stepFrame_dbCall; [done|]. intros d d' a [= <- _].
    apply blobMountUnmarkQuery_touches. }
  intros _. apply stepFrame_bind; [done|by apply stepFrame_timeNow|].
  intros tSweep. apply stepFrame_bind; [done| |].
  { apply stepFrame_dbCall; [done|]. apply blobMountSweepMarkedQuery_touches. }
  intros result. apply stepFrame_bind; [done| |].
  { apply stepFrame_dbCall; [done|]. by intros d d' a [= <- _]. }
  intros rowsDeleted. apply stepFrame_bind; [done| |].
  { destruct (0 <? rowsDeleted); [by apply stepFrame_logg|by apply stepFrame_ret]. }
  intros _. apply stepFrame_bind; [done|by apply stepFrame_timeNow|].
  intros tDone. apply stepFrame_dbCall; [done|]. intros d d' a [= <- _].
  apply blobMountSweepDoneQuery_touches.
Qed.

(** X10. A run touches nothing but the selected repository: whatever the
    clock and whichever database calls fail, [SweepBlobMountsInNextRepo]
    leaves the manifests, the references, the blob mounts of every other
    repository and the rows of every other repository as they are, and
    changes no column of [repos] other than [next_blob_mount_sweep_at];
    when the search yields no repository, or fails, the database is left
    as it is. *)
Theorem sweep_touches_selected_repo_only (w : World) :
  (blobMountSweepSearchQuery (db w) (searchTime w) = [(sweepBody w).1.1]
   ∧ touchesOnly (ID (sweepBody w).1.1)
       (db w) (db (SweepBlobMountsInNextRepo w).2))
  ∨ ((sweepBody w).1.2 ≠ None
     ∧ db (SweepBlobMountsInNextRepo w).2 = db w).
Proof.
  unfold SweepBlobMountsInNextRepo.
  destruct (sweepBody w) as [[repo returnErr] w'] eqn:Hbody.
  rewrite deferred_db. cbn [fst snd]. revert Hbody. unfold sweepBody.
  destruct (findRepo w) as [[err|found] w1] eqn:Hfind.
  - intros [= <- <- <-]. right. split; [done|].
    by apply findRepo_spec in Hfind as (Hdb & _).
  - apply findRepo_spec in Hfind as (Hdb & _ & _ & _ & Hsel).
    destruct (Hsel found eq_refl) as [_ Hquery].
    destruct (sweepRepo found w1) as [[err|[]] w2] eqn:Hsweep;
      intros [= <- <- <-]; left; (split; [exact Hquery|]);
      rewrite <- Hdb; by apply (stepFrame_sweepRepo found w1 _ w2 Hsweep).
Qed.

(** *** The whole of a run without faults *)

(** Without faults a run on the selected repository returns nil and leaves
    this world. *)
Lemma sweep_run_no_fault_world (w : World) (repo : Repository) :
  (∀ n, dbFault env n = None) →
  blobMountSweepSearchQuery (db w) (searchTime w) = [repo] →
  ∃ swept n,
    blobMountSweepMarkedQuery (ID repo) (sweepTime w) (afterUnmark w repo)
    = inr (swept, n)
    ∧ SweepBlobMountsInNextRepo w
      = (None,
         mkWorld
           (blobMountSweepDoneQuery (ID repo) (doneTime w + 1 * time_Hour) swept)
           (S (sweepBlobMountsSuccessCounter w))
           (sweepBlobMountsFailedCounter w)
           (logged w ++ sweepLog repo n)
           (S (S (S (S (clockReads w)))))
           (S (S (S (S (S (S (dbCalls w)))))))).
Proof.
  intros Hfault Hsel.
  destruct (sweep_after_unmark_succeeds (ID repo) (sweepTime w) (afterMark w repo))
    as (swept & n & Hsweep).
  fold (afterUnmark w repo) in Hsweep.
  exists swept, n. split; [exact Hsweep|].
  unfold SweepBlobMountsInNextRepo, sweepBody.
  rewrite (findRepo_no_fault w repo (Hfault _) Hsel).
  unfold sweepRepo, mbind, step_bind, bind, mret, step_ret, ret,
    db_Exec_update, db_Exec_sweep, result_RowsAffected, dbCall, j_timeNow.
  cbn [db dbCalls clockReads tickClock tickDb withDB].
  rewrite !Hfault.
  cbn [db dbCalls clockReads tickClock tickDb withDB].
  fold (markTime w). fold (afterMark w repo). fold (afterUnmark w repo).
  fold (sweepTime w). fold (doneTime w).
  rewrite Hsweep.
  cbn [db dbCalls clockReads tickClock tickDb withDB].
  rewrite Hfault. unfold sweepLog.
  destruct (0 <? n); unfold logg;
    cbn [db dbCalls clockReads tickClock tickDb withDB appendLog];
    rewrite Hfault; cbn [deferred incSuccess db dbCalls clockReads tickClock
      tickDb withDB appendLog sweepBlobMountsSuccessCounter
      sweepBlobMountsFailedCounter logged];
    by rewrite ?app_nil_r.
Qed.

Lemma fate_rows (d : DB) (repoID : Z) (markedAt sweptAt : Time) (m : BlobMount) :
  let d1 := blobMountMarkQuery repoID (markedAt + 30 * time_Minute) d in
  let row := unmarkedRow d1 repoID
               (markedRow d repoID (markedAt + 30 * time_Minute) m) in
  (if decide (¬ doomed repoID sweptAt row) then Some row else None)
  = fate d repoID markedAt sweptAt m.
Proof.
  cbv zeta. set (t := markedAt + 30 * time_Minute).
  set (d1 := blobMountMarkQuery repoID t d).
  assert (Href1 : ∀ m', sameMount m m' → referencedIn d1 m' ↔ referencedIn d m).
  { intros m' Hsame. symmetry. by apply (referencedIn_sameMount d d1 m m'). }
  assert (Hdoomed : ∀ row,
            doomed repoID sweptAt row
            ↔ bm_repo_id row = repoID
              ∧ ∃ t', bm_can_be_deleted_at row = Some t' ∧ t' < sweptAt).
  { intros row. apply blobMountSweepMarkedWhere_true. }
  unfold fate. fold t. unfold markedRow, unmarkedRow.
  destruct (sql_true (blobMountMarkWhere d repoID m)) eqn:Hmark.
  - apply blobMountMarkWhere_true in Hmark as (Hid & Hnull & Hunref).
    rewrite bool_decide_eq_true_2 by done.
    assert (isReferenced d m = false) as ->.
    { apply not_true_is_false. by intros ?%isReferenced_spec. }
    rewrite Hnull.
    assert (sql_true (blobMountUnmarkWhere d1 repoID
                        (setCanBeDeletedAt m (Some t))) = false) as ->.
    { apply not_true_is_false. intros [_ Href]%blobMountUnmarkWhere_true.
      apply Hunref. by apply (Href1 (setCanBeDeletedAt m (Some t))). }
    destruct (t <? sweptAt) eqn:Hlt.
    + rewrite decide_False; [done|]. intros Hnot. apply Hnot.
      apply Hdoomed. split; [done|].
      exists t. split; [done|]. by apply Z.ltb_lt.
    + rewrite decide_True; [done|].
      intros (_ & t' & [= <-] & Hlt')%Hdoomed.
      apply Z.ltb_ge in Hlt. lia.
  - destruct (sql_true (blobMountUnmarkWhere d1 repoID m)) eqn:Hunmark.
    + apply blobMountUnmarkWhere_true in Hunmark as (Hid & Href).
      apply (Href1 m) in Href; [|done].
      rewrite bool_decide_eq_true_2 by done.
      rewrite (proj2 (isReferenced_spec d m) Href).
      rewrite decide_True; [done|].
      by intros (_ & t' & [=] & _)%Hdoomed.
    + case_bool_decide as Hid.
      * assert (Hunref : ¬ referencedIn d m).
        { intros Href. apply not_true_iff_false in Hunmark. apply Hunmark.
          apply blobMountUnmarkWhere_true. split; [done|].
          by apply (Href1 m). }
        assert (isReferenced d m = false) as ->.
        { apply not_true_is_false. by intros ?%isReferenced_spec. }
        destruct (bm_can_be_deleted_at m) as [t'|] eqn:Hat.
        -- destruct (t' <? sweptAt) eqn:Hlt.
           ++ rewrite decide_False; [done|]. intros Hnot. apply Hnot.
              apply Hdoomed. split; [done|].
              exists t'. split; [done|]. by apply Z.ltb_lt.
           ++ rewrite decide_True; [done|].
              intros (_ & t'' & Heq & Hlt')%Hdoomed.
              apply Z.ltb_ge in Hlt. rewrite Hat in Heq. simplify_eq. lia.
        -- exfalso. apply not_true_iff_false in Hmark. apply Hmark.
           by apply blobMountMarkWhere_true.
      * rewrite decide_True; [done|].
        by intros (? & _)%Hdoomed.
Qed.

(** The rows, the count and the log of a run without faults. *)
Lemma sweep_run_no_fault_rows (w : World) (repo : Repository) :
  (∀ n, dbFault env n = None) →
  blobMountSweepSearchQuery (db w) (searchTime w) = [repo] →
  ∃ swept n,
    blobMountSweepMarkedQuery (ID repo) (sweepTime w) (afterUnmark w repo)
    = inr (swept, n)
    ∧ (SweepBlobMountsInNextRepo w).1 = None
    ∧ blob_mounts (db (SweepBlobMountsInNextRepo w).2)
      = omap (fate (db w) (ID repo) (markTime w) (sweepTime w))
             (blob_mounts (db w))
    ∧ Z.of_nat (length (blob_mounts (db w)))
      = Z.of_nat (length (blob_mounts (db (SweepBlobMountsInNextRepo w).2))) + n
    ∧ logged (SweepBlobMountsInNextRepo w).2
      = (logged w ++ sweepLog repo n)%list
    ∧ repos (db (SweepBlobMountsInNextRepo w).2)
      = repos (blobMountSweepDoneQuery (ID repo) (doneTime w + 1 * time_Hour)
                 (db w)).
Proof.
  intros Hfault Hsel.
  destruct (sweep_run_no_fault_world w repo Hfault Hsel)
    as (swept & n & Hsweep & Hrun).
  exists swept, n. split; [exact Hsweep|].
  rewrite Hrun. cbn [fst snd db logged]. split; [done|].
  pose proof (blobMountSweepMarkedQuery_ok _ _ _ _ _ Hsweep) as (-> & -> & _).
  cbn [blobMountSweepDoneQuery blob_mounts repos withBlobMounts].
  set (rows := blob_mounts (afterUnmark w repo)).
  assert (Hrows : rows
                  = (λ m, unmarkedRow (afterMark w repo) (ID repo)
                            (markedRow (db w) (ID repo)
                               (markTime w + 30 * time_Minute) m))
                    <$> blob_mounts (db w)).
  { unfold rows, afterUnmark, blobMountUnmarkQuery.
    cbn [blob_mounts withBlobMounts].
    unfold afterMark at 2, blobMountMarkQuery.
    cbn [blob_mounts withBlobMounts].
    by rewrite <- list_fmap_compose. }
  split; [|split; [|split]].
  - rewrite Hrows, filter_fmap_omap. apply list_omap_ext.
    apply Forall2_same_length_lookup_2; [done|].
    intros i m m' Hm Hm'. simplify_eq.
    apply (fate_rows (db w) (ID repo) (markTime w) (sweepTime w) m).
  - assert (length rows = length (blob_mounts (db w))) as <-.
    { by rewrite Hrows, length_fmap. }
    rewrite <- Nat2Z.inj_add. f_equal.
    clear. induction rows as [|m rows IH]; [done|].
    rewrite !filter_cons. destruct (decide (doomed _ _ m)) as [Hd|Hd].
    + rewrite decide_False by (by intros Hn). simpl. lia.
    + rewrite decide_True by done. simpl. lia.
  - done.
  - done.
Qed.

(** X11. The fate of every blob mount in a run without faults. The run on
    the selected repository leaves the rows of [blob_mounts] in their
    order, each as [fate] says: a mount of another repository is left as
    it is; a referenced mount of the repository is kept and unmarked; an
    unreferenced mount that was marked is deleted when its mark is earlier
    than the clock reading of the sweep, and kept with its mark otherwise;
    an unreferenced mount that was not marked is marked with the clock
    reading of the mark plus 30 minutes (and deleted at once, should the
    sweep read the clock later than that). *)
Theorem sweep_fate_of_mounts (w : World) (repo : Repository) :
  (∀ n, dbFault env n = None) →
  blobMountSweepSearchQuery (db w) (searchTime w) = [repo] →
  (SweepBlobMountsInNextRepo w).1 = None
  ∧ blob_mounts (db (SweepBlobMountsInNextRepo w).2)
    = omap (fate (db w) (ID repo) (markTime w) (sweepTime w))
           (blob_mounts (db w)).
Proof.
  intros Hfault Hsel.
  by destruct (sweep_run_no_fault_rows w repo Hfault Hsel)
    as (swept & n & _ & Hnil & Hrows & _).
Qed.

(** X12. What a run logs. A run without faults on the selected repository
    logs one line when the sweep statement deleted rows, carrying their
    number (the number by which [blob_mounts] has shrunk) and the full name
    of the repository, and logs nothing when no row was deleted; a run
    that finds no repository logs the line that it slows down. *)
Theorem sweep_logs_rows_deleted (w : World) :
  (∀ repo, (∀ n, dbFault env n = None) →
     blobMountSweepSearchQuery (db w) (searchTime w) = [repo] →
     ∃ rowsDeleted,
       Z.of_nat (length (blob_mounts (db w)))
       = Z.of_nat (length (blob_mounts (db (SweepBlobMountsInNextRepo w).2)))
         + rowsDeleted
       ∧ logged (SweepBlobMountsInNextRepo w).2
         = (logged w
            ++ (if 0 <? rowsDeleted
                then [InfoBlobMountsSweeped rowsDeleted (FullName repo)]
                else []))%list)
  ∧ (dbFault env (dbCalls w) = None →
     blobMountSweepSearchQuery (db w) (searchTime w) = [] →
     logged (SweepBlobMountsInNextRepo w).2
     = (logged w ++ [DebugNoBlobMountsToSweep])%list).
Proof.
  split.
  - intros repo Hfault Hsel.
    destruct (sweep_run_no_fault_rows w repo Hfault Hsel)
      as (swept & n & _ & _ & _ & Hlen & Hlog & _).
    by exists n.
  - intros Hfault Hnone.
    unfold SweepBlobMountsInNextRepo, sweepBody, findRepo, j_timeNow,
      db_SelectOne_search, dbCall.
    cbn [db dbCalls clockReads tickClock]. fold (searchTime w).
    by rewrite Hfault, Hnone.
Qed.

(** *** Failing runs and later runs *)

Lemma blobMountSweepSearchQuery_ext (d d' : DB) (now : Time) :
  repos d' = repos d → manifests d' = manifests d →
  blobMountSweepSearchQuery d' now = blobMountSweepSearchQuery d now.
Proof.
  intros Hrepos Hmanifests.
  unfold blobMountSweepSearchQuery, blobMountSweepSearchWhere,
    reposWithFailedManifests.
  by rewrite Hrepos, Hmanifests.
Qed.

Lemma keepsReposOnError_bind {A B : Type} (m : step A) (k : A → step B) :
  stepFrame (λ d d', repos d' = repos d) m →
  (∀ a, keepsReposOnError (k a)) →
  keepsReposOnError (m ≫= k).
Proof.
  intros Hm Hk w err w'. unfold mbind, step_bind, bind.
  destruct (m w) as [[err1|a] w1] eqn:Hrun.
  - intros [= <- <-]. by apply (Hm w (inl err1)).
  - intros Hrest. rewrite (Hk a w1 err w' Hrest). by apply (Hm w (inr a)).
Qed.

Lemma keepsReposOnError_update (stmt : DB → DB) :
  keepsReposOnError (db_Exec_update stmt).
Proof.
  intros w err w'. unfold db_Exec_update, dbCall.
  destruct (dbFault env (dbCalls w)) as [err1|]; [|discriminate].
  by intros [= <- <-].
Qed.

Lemma keepsReposOnError_sweepRepo (repo : Repository) :
  keepsReposOnError (sweepRepo repo).
Proof.
  unfold sweepRepo.
  apply keepsReposOnError_bind; [by apply stepFrame_timeNow|]. intros tMark.
  apply keepsReposOnError_bind.
  { apply stepFrame_dbCall; [done|]. by intros d d' a [= <- _]. }
  intros _. apply keepsReposOnError_bind.
  { apply stepFrame_dbCall; [done|]. by intros d d' a [= <- _]. }
  intros _. apply keepsReposOnError_bind; [by apply stepFrame_timeNow|].
  intros tSweep. apply keepsReposOnError_bind.
  { apply stepFrame_dbCall; [done|]. intros d d' a Hsweep.
    by apply blobMountSweepMarkedQuery_ok in Hsweep as (-> & _). }
  intros result. apply keepsReposOnError_bind.
  { apply stepFrame_dbCall; [done|]. by intros d d' a [= <- _]. }
  intros rowsDeleted. apply keepsReposOnError_bind.
  { destruct (0 <? rowsDeleted); [by apply stepFrame_logg|by apply stepFrame_ret]. }
  intros _. apply keepsReposOnError_bind; [by apply stepFrame_timeNow|].
  intros tDone. apply keepsReposOnError_update.
Qed.

(** X13. A run that fails leaves the repository due. Whenever
    [SweepBlobMountsInNextRepo] returns an error, be it [sql.ErrNoRows] or
    the failure of a statement, the table [repos] and the manifests are as
    before the run: no sweep time was written, and the search query
    selects at any time what it would have selected before the run. *)
Theorem sweep_failure_keeps_repo_due (w : World) (err : error) :
  (SweepBlobMountsInNextRepo w).1 = Some err →
  repos (db (SweepBlobMountsInNextRepo w).2) = repos (db w)
  ∧ manifests (db (SweepBlobMountsInNextRepo w).2) = manifests (db w)
  ∧ ∀ now,
      blobMountSweepSearchQuery (db (SweepBlobMountsInNextRepo w).2) now
      = blobMountSweepSearchQuery (db w) now.
Proof.
  intros Herr.
  cut (repos (db (SweepBlobMountsInNextRepo w).2) = repos (db w)
       ∧ manifests (db (SweepBlobMountsInNextRepo w).2) = manifests (db w)).
  { intros [Hrepos Hmanifests]. split; [done|]. split; [done|].
    intros now. by apply blobMountSweepSearchQuery_ext. }
  revert Herr. unfold SweepBlobMountsInNextRepo.
  destruct (sweepBody w) as [[repo returnErr] w'] eqn:Hbody.
  rewrite deferred_db. revert Hbody. unfold sweepBody.
  destruct (findRepo w) as [[err1|found] w1] eqn:Hfind.
  - intros [= <- <- <-] _.
    apply findRepo_spec in Hfind as (Hdb & _). by rewrite Hdb.
  - apply findRepo_spec in Hfind as (Hdb & _).
    destruct (sweepRepo found w1) as [[err1|[]] w2] eqn:Hsweep;
      intros [= <- <- <-]; [|discriminate]. intros _. rewrite <- Hdb. split.
    + by apply (keepsReposOnError_sweepRepo found w1 err1 w2).
    + by apply (stepFrame_sweepRepo found w1 _ w2 Hsweep).
Qed.

Lemma blobMountSweepDoneQuery_sweep_time (repoID : Z) (next : Time) (d : DB)
    (r : Repository) :
  r ∈ repos (blobMountSweepDoneQuery repoID next d) → ID r = repoID →
  NextBlobMountSweepAt r = Some next.
Proof.
  unfold blobMountSweepDoneQuery. cbn [repos].
  intros (r0 & -> & _)%list_elem_of_fmap.
  destruct (ID r0 =? repoID) eqn:Heq; [done|].
  apply Z.eqb_neq in Heq. done.
Qed.

(** X14. Blob mounts are swept in each repository at most once per hour:
    after a run without faults on the selected repository, the search
    query selects no row of that repository at any time up to one hour
    after the last clock reading of the run. *)
Theorem swept_repo_not_due_for_an_hour (w : World) (repo : Repository)
    (now : Time) (r : Repository) :
  (∀ n, dbFault env n = None) →
  blobMountSweepSearchQuery (db w) (searchTime w) = [repo] →
  now ≤ doneTime w + 3600 →
  blobMountSweepSearchQuery (db (SweepBlobMountsInNextRepo w).2) now = [r] →
  ID r ≠ ID repo.
Proof.
  intros Hfault Hsel Hnow Hnext Hid.
  destruct (sweep_run_no_fault_rows w repo Hfault Hsel)
    as (swept & n & _ & _ & _ & _ & _ & Hrepos).
  pose proof (blobMountSweepSearchQuery_spec
                (db (SweepBlobMountsInNextRepo w).2) now)
    as [[Hnil _]|(r' & Hsel' & Hin & Hwhere & _)]; [congruence|].
  rewrite Hnext in Hsel'. injection Hsel' as <-.
  rewrite Hrepos in Hin.
  apply blobMountSweepDoneQuery_sweep_time in Hin; [|done].
  apply blobMountSweepSearchWhere_true in Hwhere as [Hnone|(t & Ht & Hlt & _)].
  - congruence.
  - rewrite Hin in Ht. injection Ht as <-. change (1 * time_Hour) with 3600 in Hlt.
    lia.
Qed.

(** A run without faults leaves no row of the repository with a mark
    earlier than the clock reading of its sweep statement, whatever the
    rows it found. *)
Lemma sweep_leaves_no_mark_before_sweep (w : World) (repo : Repository)
    (x : BlobMount) (t : Time) :
  (∀ n, dbFault env n = None) →
  blobMountSweepSearchQuery (db w) (searchTime w) = [repo] →
  bm_repo_id x = ID repo →
  bm_can_be_deleted_at x = Some t →
  t < sweepTime w →
  x ∉ blob_mounts (db (SweepBlobMountsInNextRepo w).2).
Proof.
  intros Hfault Hsel Hrepo Hat Hpast.
  destruct (sweep_run_no_fault_rows w repo Hfault Hsel)
    as (swept & n & _ & _ & Hrows & _).
  rewrite Hrows. intros (x0 & Hx0 & Hfate)%list_elem_of_omap.
  revert Hfate. unfold fate. change (30 * time_Minute) with 1800.
  case_bool_decide as Hid.
  - destruct (isReferenced (db w) x0).
    { intros [= <-]. simpl in Hat. discriminate Hat. }
    destruct (bm_can_be_deleted_at x0) as [t0|] eqn:Hat0.
    + destruct (t0 <? sweepTime w) eqn:Hlt; [discriminate|].
      intros [= <-]. apply Z.ltb_ge in Hlt.
      rewrite Hat0 in Hat. injection Hat as ->. lia.
    + destruct (markTime w + 1800 <? sweepTime w) eqn:Hlt; [discriminate|].
      intros [= <-]. apply Z.ltb_ge in Hlt. simpl in Hat.
      injection Hat as <-. lia.
  - intros [= <-]. by apply Hid.
Qed.

(** X15. The staged mark-and-sweep, and the clock. Take a blob mount of the
    selected repository that is neither marked nor referenced when a run
    without faults starts. After the run the row is in [blob_mounts],
    marked with the clock reading of the mark statement plus 30 minutes,
    exactly when the sweep statement of that run read the clock no later
    than this mark; when it read the clock later, the row is deleted in
    the same run. And every run without faults, from whichever state of
    the database, that sweeps the same repository and whose sweep
    statement reads the clock later than the mark leaves no such marked
    row in [blob_mounts]. *)
Theorem unreferenced_mount_marked_then_collected (w : World)
    (repo : Repository) (m : BlobMount) :
  (∀ n, dbFault env n = None) →
  blobMountSweepSearchQuery (db w) (searchTime w) = [repo] →
  m ∈ blob_mounts (db w) →
  bm_repo_id m = ID repo →
  bm_can_be_deleted_at m = None →
  ¬ referencedIn (db w) m →
  (setCanBeDeletedAt m (Some (markTime w + 1800))
   ∈ blob_mounts (db (SweepBlobMountsInNextRepo w).2)
   ↔ sweepTime w ≤ markTime w + 1800)
  ∧ ∀ (w' : World) (repo' : Repository),
      blobMountSweepSearchQuery (db w') (searchTime w') = [repo'] →
      ID repo' = ID repo →
      markTime w + 1800 < sweepTime w' →
      setCanBeDeletedAt m (Some (markTime w + 1800))
      ∉ blob_mounts (db (SweepBlobMountsInNextRepo w').2).
Proof.
  intros Hfault Hsel Hm Hrepo Hnull Hunref.
  set (marked := setCanBeDeletedAt m (Some (markTime w + 1800))).
  assert (Hlater : ∀ (w' : World) (repo' : Repository),
             blobMountSweepSearchQuery (db w') (searchTime w') = [repo'] →
             ID repo' = ID repo →
             markTime w + 1800 < sweepTime w' →
             marked ∉ blob_mounts (db (SweepBlobMountsInNextRepo w').2)).
  { intros w' repo' Hsel' Hid Hpast.
    apply (sweep_leaves_no_mark_before_sweep w' repo' marked
             (markTime w + 1800) Hfault Hsel'); [|done|done].
    simpl. congruence. }
  split; [|exact Hlater]. split.
  - intros Hin. destruct (Z.le_gt_cases (sweepTime w) (markTime w + 1800))
      as [Hle|Hgt]; [done|].
    by destruct (Hlater w repo Hsel eq_refl Hgt).
  - intros Hfirst.
    destruct (sweep_run_no_fault_rows w repo Hfault Hsel)
      as (swept & n & _ & _ & Hrows & _).
    rewrite Hrows. apply list_elem_of_omap. exists m. split; [done|].
    unfold fate. rewrite bool_decide_eq_true_2 by done.
    assert (isReferenced (db w) m = false) as ->.
    { apply not_true_is_false. by intros ?%isReferenced_spec. }
    rewrite Hnull. change (30 * time_Minute) with 1800.
    by rewrite (proj2 (Z.ltb_ge _ _) Hfirst).
Qed.

End Janitor.

(** *** Runs on concrete tables *)

(** C1, where the code departs from its specification and from the note
    above the query. The search query selects a repository whose
    [next_blob_mount_sweep_at] is NULL although it holds a manifest with a
    non-empty [validation_error_message], and the run sweeps it: it marks
    the mount that the failed manifest does not reference and reschedules
    the repository. *)
Theorem search_selects_repo_with_failed_manifest :
  hasFailedManifest failedManifestDB fooRepo
  ∧ blobMountSweepSearchQuery failedManifestDB 21600 = [fooRepo]
  ∧ SweepBlobMountsInNextRepo fullNamePlain quotePlain steadyEnv
      (freshWorld failedManifestDB)
    = (None,
       mkWorld
         (mkDB [mkRepository 1 "test1" "foo" (Some 25200) None None]
               [mkBlobMount 1 1 None; mkBlobMount 2 1 (Some 23400)]
               (manifest_blob_refs failedManifestDB)
               (manifests failedManifestDB))
         1 0 [] 4 6).
Proof.
  split; [|split].
  - exists (mkManifest 1 "sha256:8a9217f1" "manifest blob unknown to registry").
    split; [apply list_elem_of_here|]. split; [reflexivity|discriminate].
  - vm_compute. reflexivity.
  - vm_compute. reflexivity.
Qed.

Example sweep_all_referenced :
  SweepBlobMountsInNextRepo fullNamePlain quotePlain steadyEnv
    (freshWorld allReferencedDB)
  = (None,
     mkWorld
       (mkDB [mkRepository 1 "test1" "foo" (Some 25200) None None]
             (blob_mounts allReferencedDB)
             (manifest_blob_refs allReferencedDB)
             (manifests allReferencedDB))
       1 0 [] 4 6).
Proof. vm_compute. reflexivity. Qed.

Example sweep_mixed :
  blob_mounts
    (db (SweepBlobMountsInNextRepo fullNamePlain quotePlain steadyEnv
           (freshWorld mixedDB)).2)
  = [mkBlobMount 1 1 None; mkBlobMount 2 1 (Some 23400)].
Proof. vm_compute. reflexivity. Qed.

Lemma steadyEnv_no_fault (n : nat) : dbFault steadyEnv n = None.
Proof. reflexivity. Qed.

Lemma sweep_keeps_referenced_mounts_witness :
  mountBeforeReference
    (db (SweepBlobMountsInNextRepo fullNamePlain quotePlain steadyEnv
           (freshWorld mixedDB)).2).
Proof.
  apply (proj1 (proj2 (sweep_keeps_referenced_mounts fullNamePlain quotePlain
                         steadyEnv (freshWorld mixedDB)))).
  intros ref Href. cbn in Href.
  apply list_elem_of_singleton in Href as ->.
  exists (mkBlobMount 1 1 None). split; [apply list_elem_of_here|done].
Defined.




Lemma laterEnv_no_fault (n : nat) : dbFault laterEnv n = None.
Proof. reflexivity. Qed.

Lemma sweep_fate_of_mounts_witness :
  blob_mounts
    (db (SweepBlobMountsInNextRepo fullNamePlain quotePlain steadyEnv
           (freshWorld mixedDB)).2)
  = omap (fate mixedDB 1 21600 21600) (blob_mounts mixedDB).
Proof.
  apply (proj2 (sweep_fate_of_mounts fullNamePlain quotePlain steadyEnv
                  (freshWorld mixedDB) fooRepo steadyEnv_no_fault eq_refl)).
Defined.

Lemma sweep_failure_keeps_repo_due_witness :
  repos (db (SweepBlobMountsInNextRepo fullNamePlain quotePlain faultyEnv
               (freshWorld mixedDB)).2)
  = repos mixedDB.
Proof.
  apply (proj1 (sweep_failure_keeps_repo_due fullNamePlain quotePlain faultyEnv
                  (freshWorld mixedDB)
                  (errorString
                     ("while sweeping blob mounts in repo "
                      +:+ quotePlain "test1/foo" +:+ ": connection lost"))
                  eq_refl)).
Defined.

Lemma swept_repo_not_due_for_an_hour_witness : ID barRepo ≠ ID fooRepo.
Proof.
  apply (swept_repo_not_due_for_an_hour fullNamePlain quotePlain steadyEnv
           (freshWorld twoReposDB) fooRepo 25200 barRepo
           steadyEnv_no_fault eq_refl).
  - vm_compute. discriminate.
  - reflexivity.
Defined.

Lemma unreferenced_mount_marked_then_collected_witness :
  mkBlobMount 2 1 (Some 23400)
  ∈ blob_mounts
      (db (SweepBlobMountsInNextRepo fullNamePlain quotePlain laterEnv
             (freshWorld mixedDB)).2)
  ∧ mkBlobMount 2 1 (Some 23400)
    ∉ blob_mounts
        (db (SweepBlobMountsInNextRepo fullNamePlain quotePlain laterEnv
               (SweepBlobMountsInNextRepo fullNamePlain quotePlain laterEnv
                  (freshWorld mixedDB)).2).2).
Proof.
  destruct (unreferenced_mount_marked_then_collected fullNamePlain quotePlain
              laterEnv (freshWorld mixedDB) fooRepo (mkBlobMount 2 1 None)
              laterEnv_no_fault eq_refl) as [Hfirst Hlater].
  - cbn. elem_of_literal.
  - reflexivity.
  - reflexivity.
  - intros (ref & Href & _ & Hblob). cbn in Href.
    apply list_elem_of_singleton in Href as ->. discriminate Hblob.
  - split.
    + apply Hfirst. vm_compute. discriminate.
    + apply (Hlater
               (SweepBlobMountsInNextRepo fullNamePlain quotePlain laterEnv
                  (freshWorld mixedDB)).2
               (mkRepository 1 "test1" "foo" (Some 25200) None None)).
      * reflexivity.
      * reflexivity.
      * vm_compute. reflexivity.
Defined.

End Tasks.

(* ===================================================================== *)
(** ** Functions of the Go package strings                                *)
(* ===================================================================== *)

Module GoStrings.

(** [strings.Split(s, sep)] for a separator of one byte: the pieces of [s]
    between the separators, a single empty piece for the empty string. *)
Fixpoint strings_Split (sep : ascii) (s : string) : list string :=
  match s with
  | EmptyString => [EmptyString]
  | String c rest =>
      if Ascii.eqb c sep then EmptyString :: strings_Split sep rest
      else
        match strings_Split sep rest with
        | [] => [String c EmptyString]
        | piece :: pieces => String c piece :: pieces
        end
  end.

(** [strings.SplitN(s, sep, 2)] for a separator of one byte: [s] when it
    holds no separator, what is before and what is after the first
    separator otherwise. *)
Fixpoint strings_SplitN2 (sep : ascii) (s : string) : list string :=
  match s with
  | EmptyString => [EmptyString]
  | String c rest =>
      if Ascii.eqb c sep then [EmptyString; rest]
      else
        match strings_SplitN2 sep rest with
        | [] => [String c EmptyString]
        | piece :: pieces => String c piece :: pieces
        end
  end.

(** [strings.Join(elems, sep)] *)
Fixpoint strings_Join (elems : list string) (sep : string) : string :=
  match elems with
  | [] => EmptyString
  | [elem] => elem
  | elem :: rest => elem +:+ sep +:+ strings_Join rest sep
  end.

(** The table [asciiSpace] of package strings: tab, line feed, vertical
    tab, form feed, carriage return and space. *)
Definition asciiSpace (c : ascii) : bool :=
  let n := nat_of_ascii c in
  (9 <=? n) && (n <=? 13) || (n =? 32).

(** [utf8.RuneSelf]: the bytes below it are the ASCII characters. *)
Definition utf8_RuneSelf : nat := 128.

(** [strings.TrimSpace(s)] on a string of ASCII characters, where it
    removes the leading and the trailing bytes of [asciiSpace]; on a byte
    of [utf8.RuneSelf] or above the Go function decodes UTF-8, which the
    embedding leaves out. *)
Fixpoint trimLeft (s : string) : string :=
  match s with
  | EmptyString => EmptyString
  | String c rest => if asciiSpace c then trimLeft rest else s
  end.

Fixpoint trimRight (s : string) : string :=
  match s with
  | EmptyString => EmptyString
  | String c rest =>
      match trimRight rest with
      | EmptyString => if asciiSpace c then EmptyString else String c EmptyString
      | kept => String c kept
      end
  end.

Definition strings_TrimSpace (s : string) : string := trimRight (trimLeft s).

(** *** Notions that the properties are stated with *)

(** The byte does not occur in the string. *)
Fixpoint noByte (b : ascii) (s : string) : bool :=
  match s with
  | EmptyString => true
  | String c rest => negb (Ascii.eqb c b) && noByte b rest
  end.

(** Every byte of the string is an ASCII character. *)
Fixpoint isASCII (s : string) : bool :=
  match s with
  | EmptyString => true
  | String c rest => (nat_of_ascii c <? utf8_RuneSelf) && isASCII rest
  end.

(** The last byte of a string. *)
Fixpoint lastByte (s : string) : option ascii :=
  match s with
  | EmptyString => None
  | String c EmptyString => Some c
  | String _ rest => lastByte rest
  end.

(** Neither the first nor the last byte of the string is a space. *)
Definition trimmed (s : string) : Prop :=
  match s with
  | EmptyString => True
  | String c _ => asciiSpace c = false
  end
  ∧ match lastByte s with
    | None => True
    | Some c => asciiSpace c = false
    end.

(** *** Splitting and joining *)

Lemma strings_Split_nonempty (sep : ascii) (s : string) :
  strings_Split sep s ≠ [].
Proof.
  destruct s as [|c s]; [done|]. cbn [strings_Split].
  destruct (Ascii.eqb c sep); [done|]. by destruct (strings_Split sep s).
Qed.

(** Splitting loses nothing: joining the pieces with the separator gives
    the string back, and no piece holds the separator. *)
Lemma strings_Split_Join (sep : ascii) (s : string) :
  strings_Join (strings_Split sep s) (String sep EmptyString) = s
  ∧ Forall (λ piece, noByte sep piece = true) (strings_Split sep s).
Proof.
  induction s as [|c s [IHjoin IHno]]; [by split; [|repeat constructor]|].
  cbn [strings_Split]. pose proof (strings_Split_nonempty sep s) as Hne.
  destruct (Ascii.eqb c sep) eqn:Hc.
  - apply Ascii.eqb_eq in Hc as ->. split; [|by constructor].
    destruct (strings_Split sep s) as [|piece pieces]; [done|].
    change (strings_Join ("" :: piece :: pieces) (String sep ""))
      with (String sep (strings_Join (piece :: pieces) (String sep ""))).
    by rewrite IHjoin.
  - destruct (strings_Split sep s) as [|piece pieces]; [done|]. split.
    + rewrite <- IHjoin. by destruct pieces.
    + apply Forall_cons in IHno as [Hpiece Hpieces]. constructor; [|done].
      cbn [noByte]. by rewrite Hc, Hpiece.
Qed.

(** *** Trimming *)

Lemma trimLeft_first (s : string) :
  match trimLeft s with
  | EmptyString => True
  | String c _ => asciiSpace c = false
  end.
Proof.
  induction s as [|c s IH]; [done|]. cbn [trimLeft].
  by destruct (asciiSpace c) eqn:Hc.
Qed.

Lemma trimRight_first (s : string) :
  match trimRight s with
  | EmptyString => True
  | String c _ => ∃ rest, s = String c rest
  end.
Proof.
  destruct s as [|c s]; [done|]. cbn [trimRight].
  destruct (trimRight s); [|by eexists].
  destruct (asciiSpace c); [done|by eexists].
Qed.

Lemma trimRight_last (s : string) :
  match lastByte (trimRight s) with
  | None => True
  | Some c => asciiSpace c = false
  end.
Proof.
  induction s as [|c s IH]; [done|]. cbn [trimRight].
  destruct (trimRight s) as [|k kept].
  - by destruct (asciiSpace c) eqn:Hc.
  - exact IH.
Qed.

Lemma strings_TrimSpace_trimmed (s : string) : trimmed (strings_TrimSpace s).
Proof.
  unfold strings_TrimSpace, trimmed. split; [|apply trimRight_last].
  pose proof (trimLeft_first s) as Hfirst.
  pose proof (trimRight_first (trimLeft s)) as Hkeep.
  destruct (trimRight (trimLeft s)) as [|c kept]; [done|].
  destruct Hkeep as [rest Heq]. by rewrite Heq in Hfirst.
Qed.

End GoStrings.


(* ===================================================================== *)
(** ** Package keppel: driver registries and basic auth                   *)
(* ===================================================================== *)

Module Drivers.

Import Go.

(** *** The Go library functions that [BuildBasicAuthHeader] calls *)

(** The alphabet [encodeStd] of [encoding/base64] and the padding
    character [StdPadding]. *)
Definition encodeStd : string :=
  "ABCDEFGHIJKLMNOPQRSTUVWXYZabcdefghijklmnopqrstuvwxyz0123456789+/".

Definition StdPadding : ascii := "="%char.

(** [enc.encode[i]] *)
Definition encode (i : N) : ascii :=
  default StdPadding (String.get (N.to_nat i) encodeStd).

(** [enc.encode[val>>shift&0x3F]] *)
Definition sextet (val shift : N) : ascii :=
  encode (N.land (N.shiftr val shift) 63).

(** The 24 bits of a group of input bytes:
    [uint(src[0])<<16 | uint(src[1])<<8 | uint(src[2])]. *)
Definition group3 (s0 s1 s2 : ascii) : N :=
  N.lor (N.lor (N.shiftl (N_of_ascii s0) 16) (N.shiftl (N_of_ascii s1) 8))
        (N_of_ascii s2).

Definition group2 (s0 s1 : ascii) : N :=
  N.lor (N.shiftl (N_of_ascii s0) 16) (N.shiftl (N_of_ascii s1) 8).

Definition group1 (s0 : ascii) : N := N.shiftl (N_of_ascii s0) 16.

(** [base64.StdEncoding.EncodeToString(src)]: four characters for every
    three bytes, and a padded group for a remainder of one or two bytes. *)
Fixpoint EncodeToString (src : string) : string :=
  match src with
  | EmptyString => EmptyString
  | String s0 EmptyString =>
      let val := group1 s0 in
      String (sextet val 18) (String (sextet val 12)
        (String StdPadding (String StdPadding EmptyString)))
  | String s0 (String s1 EmptyString) =>
      let val := group2 s0 s1 in
      String (sextet val 18) (String (sextet val 12) (String (sextet val 6)
        (String StdPadding EmptyString)))
  | String s0 (String s1 (String s2 rest)) =>
      let val := group3 s0 s1 s2 in
      String (sextet val 18) (String (sextet val 12) (String (sextet val 6)
        (String (sextet val 0) (EncodeToString rest))))
  end.

(** *** Basic auth *)

(** [func BuildBasicAuthHeader(userName, password string) string] *)
Definition BuildBasicAuthHeader (userName password : string) : string :=
  let creds := userName +:+ ":" +:+ password in
  "Basic " +:+ EncodeToString creds.

(** *** The registries *)

(** A call that returns, or panics with a value. *)
Inductive outcome (A : Type) : Type :=
  | Returns (a : A)
  | Panics (value : string).
Arguments Returns {A} a.
Arguments Panics {A} value.

Section Registries.

(** [*redis.Client], the interfaces [AuthDriver] and [RateLimitDriver], and
    [Configuration]. *)
Variable RedisClient AuthDriver Configuration RateLimitDriver : Type.

(** The values of the map [authDriverFactories]: a factory function, or
    nil ([None]). *)
Definition authDriverFactory : Type :=
  option (RedisClient → error + AuthDriver).

(** [var authDriverFactories]: the map from driver names to factories,
    empty as the program starts. *)
Definition authDriverFactories : gmap string authDriverFactory := ∅.

(** [func NewAuthDriver(name string, rc *redis.Client) (AuthDriver, error)],
    on the map [factories]: a missing key reads as nil. *)
Definition NewAuthDriver (factories : gmap string authDriverFactory)
    (name : string) (rc : RedisClient) : error + AuthDriver :=
  match factories !! name with
  | Some (Some factory) => factory rc
  | _ => inl (errorString ("no such auth driver: " +:+ name))
  end.

(** [func RegisterAuthDriver(name string, factory ...)]: the map it leaves,
    or the value it panics with. *)
Definition RegisterAuthDriver (factories : gmap string authDriverFactory)
    (name : string) (factory : authDriverFactory)
    : outcome (gmap string authDriverFactory) :=
  match factories !! name with
  | Some _ =>
      Panics ("attempted to register multiple auth drivers with name = "
              +:+ name)
  | None => Returns (<[name := factory]> factories)
  end.

(** The same for the rate-limit drivers. *)
Definition rateLimitDriverFactory : Type :=
  option (AuthDriver → Configuration → error + RateLimitDriver).

Definition rateLimitDriverFactories : gmap string rateLimitDriverFactory := ∅.

Definition NewRateLimitDriver (factories : gmap string rateLimitDriverFactory)
    (name : string) (authDriver : AuthDriver) (cfg : Configuration)
    : error + RateLimitDriver :=
  match factories !! name with
  | Some (Some factory) => factory authDriver cfg
  | _ => inl (errorString ("no such rate-limit driver: " +:+ name))
  end.

Definition RegisterRateLimitDriver
    (factories : gmap string rateLimitDriverFactory)
    (name : string) (factory : rateLimitDriverFactory)
    : outcome (gmap string rateLimitDriverFactory) :=
  match factories !! name with
  | Some _ =>
      Panics ("attempted to register multiple rate-limit drivers with name = "
              +:+ name)
  | None => Returns (<[name := factory]> factories)
  end.

(** The [init] functions of the driver packages, each registering one
    driver, run one after the other. *)
Fixpoint registerAuthDrivers (inits : list (string * authDriverFactory))
    (factories : gmap string authDriverFactory)
    : outcome (gmap string authDriverFactory) :=
  match inits with
  | [] => Returns factories
  | (name, factory) :: rest =>
      match RegisterAuthDriver factories name factory with
      | Panics value => Panics value
      | Returns factories' => registerAuthDrivers rest factories'
      end
  end.

Fixpoint registerRateLimitDrivers
    (inits : list (string * rateLimitDriverFactory))
    (factories : gmap string rateLimitDriverFactory)
    : outcome (gmap string rateLimitDriverFactory) :=
  match inits with
  | [] => Returns factories
  | (name, factory) :: rest =>
      match RegisterRateLimitDriver factories name factory with
      | Panics value => Panics value
      | Returns factories' => registerRateLimitDrivers rest factories'
      end
  end.

End Registries.

(** *** Notions that the properties are stated with *)

(** The string holds no colon. *)
Fixpoint noColon (s : string) : bool :=
  match s with
  | EmptyString => true
  | String c rest => negb (Ascii.eqb c ":") && noColon rest
  end.

(** A registry of two auth drivers, as an example. *)
Definition exampleInits : list (string * authDriverFactory unit string) :=
  [ ("unittest", Some (λ _, inr "unittest driver"));
    ("keystone", Some (λ _, inl (errorString "no keystone here"))) ].

(** *** Facts about base64 *)

(** The index of a character in a string. *)
Fixpoint indexOf (c : ascii) (s : string) : option nat :=
  match s with
  | EmptyString => None
  | String x rest =>
      if Ascii.eqb c x then Some 0 else S <$> indexOf c rest
  end.

Lemma indexOf_encode (i : N) :
  (i < 64)%N → indexOf (encode i) encodeStd = Some (N.to_nat i).
Proof.
  intros Hi.
  assert (Hall : forallb (λ n, bool_decide
                            (indexOf (encode (N.of_nat n)) encodeStd = Some n))
                         (seq 0 64) = true) by (vm_compute; reflexivity).
  rewrite forallb_forall in Hall.
  assert (Hin : In (N.to_nat i) (seq 0 64)) by (apply in_seq; lia).
  apply Hall in Hin. rewrite N2Nat.id in Hin.
  by apply bool_decide_eq_true in Hin.
Qed.

Lemma encode_inj (i j : N) :
  (i < 64)%N → (j < 64)%N → encode i = encode j → i = j.
Proof.
  intros Hi Hj Heq. apply N2Nat.inj.
  pose proof (indexOf_encode i Hi) as Hx.
  rewrite Heq, (indexOf_encode j Hj) in Hx. congruence.
Qed.

Lemma encode_not_padding (i : N) : (i < 64)%N → encode i ≠ StdPadding.
Proof.
  intros Hi Heq. pose proof (indexOf_encode i Hi) as Hx.
  rewrite Heq in Hx. vm_compute in Hx. discriminate Hx.
Qed.

Lemma lor_shiftl (a b k : N) :
  (b < 2 ^ k)%N → N.lor (N.shiftl a k) b = (a * 2 ^ k + b)%N.
Proof.
  intros Hb. rewrite N.shiftl_mul_pow2.
  assert (Hland : N.land (a * 2 ^ k) b = 0%N).
  { destruct (N.eq_dec b 0%N) as [->|Hnz]; [apply N.land_0_r|].
    apply N.bits_inj. intros n. rewrite N.land_spec, N.bits_0.
    destruct (N.ltb_spec n k) as [Hlt|Hge].
    - by rewrite N.mul_pow2_bits_low.
    - rewrite (N.bits_above_log2 b n), andb_false_r; [done|].
      apply N.log2_lt_pow2; [lia|].
      eapply N.lt_le_trans; [exact Hb|]. apply N.pow_le_mono_r; lia. }
  by rewrite <- N.lxor_lor, <- N.add_nocarry_lxor.
Qed.

Lemma group1_eq (s0 : ascii) : group1 s0 = (N_of_ascii s0 * 65536)%N.
Proof. unfold group1. by rewrite N.shiftl_mul_pow2. Qed.

Lemma group2_eq (s0 s1 : ascii) :
  group2 s0 s1 = (N_of_ascii s0 * 65536 + N_of_ascii s1 * 256)%N.
Proof.
  unfold group2. pose proof (N_ascii_bounded s1) as H1.
  rewrite lor_shiftl; rewrite (N.shiftl_mul_pow2 _ 8).
  - done.
  - change (2 ^ 8)%N with 256%N. change (2 ^ 16)%N with 65536%N. lia.
Qed.

Lemma group3_eq (s0 s1 s2 : ascii) :
  group3 s0 s1 s2
  = (N_of_ascii s0 * 65536 + N_of_ascii s1 * 256 + N_of_ascii s2)%N.
Proof.
  unfold group3. fold (group2 s0 s1). rewrite group2_eq.
  pose proof (N_ascii_bounded s2) as H2.
  transitivity (N.lor (N.shiftl (N_of_ascii s0 * 256 + N_of_ascii s1) 8)
                      (N_of_ascii s2)).
  - f_equal. rewrite N.shiftl_mul_pow2. change (2 ^ 8)%N with 256%N. lia.
  - rewrite lor_shiftl by done. change (2 ^ 8)%N with 256%N. lia.
Qed.

Lemma sextet_eq (val shift : N) :
  sextet val shift = encode ((val / 2 ^ shift) mod 64).
Proof.
  unfold sextet. rewrite N.shiftr_div_pow2.
  change 63%N with (N.ones 6). by rewrite N.land_ones.
Qed.

Lemma sextets_value (v : N) :
  (v < 16777216)%N →
  v = ((v / 2 ^ 18) mod 64 * 262144 + (v / 2 ^ 12) mod 64 * 4096
       + (v / 2 ^ 6) mod 64 * 64 + (v / 2 ^ 0) mod 64)%N.
Proof.
  intros Hv. change (2 ^ 18)%N with 262144%N. change (2 ^ 12)%N with 4096%N.
  change (2 ^ 6)%N with 64%N. change (2 ^ 0)%N with 1%N. rewrite N.div_1_r.
  pose proof (N.div_mod' v 64%N) as H1. pose proof (N.mod_lt v 64%N) as H1'.
  pose proof (N.div_mod' (v / 64)%N 64%N) as H2.
  pose proof (N.mod_lt (v / 64)%N 64%N) as H2'.
  pose proof (N.div_mod' (v / 64 / 64)%N 64%N) as H3.
  pose proof (N.mod_lt (v / 64 / 64)%N 64%N) as H3'.
  assert (v / 4096 = v / 64 / 64)%N as -> by by rewrite N.Div0.div_div.
  assert (v / 262144 = v / 64 / 64 / 64)%N as -> by by rewrite !N.Div0.div_div.
  assert (v / 64 / 64 / 64 < 64)%N.
  { rewrite !N.Div0.div_div. apply N.Div0.div_lt_upper_bound. simpl. lia. }
  rewrite (N.mod_small (v / 64 / 64 / 64)%N 64%N) by assumption.
  lia.
Qed.

Lemma sextets_inj (v w : N) :
  (v < 16777216)%N → (w < 16777216)%N →
  sextet v 18 = sextet w 18 → sextet v 12 = sextet w 12 →
  sextet v 6 = sextet w 6 → sextet v 0 = sextet w 0 → v = w.
Proof.
  intros Hv Hw. rewrite !sextet_eq. intros H18 H12 H6 H0.
  apply encode_inj in H18, H12, H6, H0; try (apply N.mod_lt; lia).
  rewrite (sextets_value v Hv), (sextets_value w Hw). congruence.
Qed.

Lemma group3_lt (s0 s1 s2 : ascii) : (group3 s0 s1 s2 < 16777216)%N.
Proof.
  rewrite group3_eq. pose proof (N_ascii_bounded s0).
  pose proof (N_ascii_bounded s1). pose proof (N_ascii_bounded s2). lia.
Qed.

Lemma group3_zero (s0 s1 : ascii) : group3 s0 s1 "000" = group2 s0 s1.
Proof. rewrite group3_eq, group2_eq. simpl. lia. Qed.

Lemma group2_zero (s0 : ascii) : group2 s0 "000" = group1 s0.
Proof. rewrite group2_eq, group1_eq. simpl. lia. Qed.

Lemma N_of_ascii_inj (a b : ascii) : N_of_ascii a = N_of_ascii b → a = b.
Proof.
  intros Heq. by rewrite <- (ascii_N_embedding a), <- (ascii_N_embedding b), Heq.
Qed.

Lemma group3_inj (s0 s1 s2 t0 t1 t2 : ascii) :
  group3 s0 s1 s2 = group3 t0 t1 t2 → s0 = t0 ∧ s1 = t1 ∧ s2 = t2.
Proof.
  rewrite !group3_eq.
  pose proof (N_ascii_bounded s0). pose proof (N_ascii_bounded s1).
  pose proof (N_ascii_bounded s2). pose proof (N_ascii_bounded t0).
  pose proof (N_ascii_bounded t1). pose proof (N_ascii_bounded t2).
  intros Heq. repeat split; apply N_of_ascii_inj; lia.
Qed.

Lemma sextet_not_padding (val shift : N) : sextet val shift ≠ StdPadding.
Proof.
  rewrite sextet_eq. apply encode_not_padding. apply N.mod_lt. lia.
Qed.

(** The last sextet of a group of two bytes, and the last two of a group
    of one byte, are those of the zero bits that fill the group. *)
Lemma sextet_group2_low (s0 s1 t0 t1 : ascii) :
  sextet (group2 s0 s1) 0 = sextet (group2 t0 t1) 0.
Proof.
  rewrite !sextet_eq, !group2_eq. f_equal.
  change (2 ^ 0)%N with 1%N. rewrite !N.div_1_r.
  replace (N_of_ascii s0 * 65536 + N_of_ascii s1 * 256)%N
    with ((N_of_ascii s0 * 1024 + N_of_ascii s1 * 4) * 64)%N by lia.
  replace (N_of_ascii t0 * 65536 + N_of_ascii t1 * 256)%N
    with ((N_of_ascii t0 * 1024 + N_of_ascii t1 * 4) * 64)%N by lia.
  by rewrite !N.Div0.mod_mul.
Qed.

Lemma string_ind3 (P : string → Prop) :
  P "" →
  (∀ a, P (String a "")) →
  (∀ a b, P (String a (String b ""))) →
  (∀ a b c rest, P rest → P (String a (String b (String c rest)))) →
  ∀ s, P s.
Proof.
  intros H0 H1 H2 H3 s.
  cut (P s ∧ (∀ a, P (String a s)) ∧ (∀ a b, P (String a (String b s)))).
  { by intros [? _]. }
  induction s as [|c s (IH0 & IH1 & IH2)].
  - by repeat split.
  - split; [apply IH1|]. split; [intros a; apply IH2|].
    intros a b. by apply H3.
Qed.

Lemma EncodeToString_group3 (s0 s1 s2 : ascii) (rest : string) :
  EncodeToString (String s0 (String s1 (String s2 rest)))
  = String (sextet (group3 s0 s1 s2) 18)
      (String (sextet (group3 s0 s1 s2) 12)
         (String (sextet (group3 s0 s1 s2) 6)
            (String (sextet (group3 s0 s1 s2) 0) (EncodeToString rest)))).
Proof. reflexivity. Qed.

Lemma EncodeToString_group2 (s0 s1 : ascii) :
  EncodeToString (String s0 (String s1 ""))
  = String (sextet (group2 s0 s1) 18)
      (String (sextet (group2 s0 s1) 12)
         (String (sextet (group2 s0 s1) 6) (String StdPadding ""))).
Proof. reflexivity. Qed.

Lemma EncodeToString_group1 (s0 : ascii) :
  EncodeToString (String s0 "")
  = String (sextet (group1 s0) 18)
      (String (sextet (group1 s0) 12)
         (String StdPadding (String StdPadding ""))).
Proof. reflexivity. Qed.

Lemma sextet_group1_low (s0 t0 : ascii) :
  sextet (group1 s0) 6 = sextet (group1 t0) 6
  ∧ sextet (group1 s0) 0 = sextet (group1 t0) 0.
Proof.
  rewrite !sextet_eq, !group1_eq.
  change (2 ^ 0)%N with 1%N. change (2 ^ 6)%N with 64%N. rewrite !N.div_1_r.
  replace (N_of_ascii s0 * 65536)%N with (N_of_ascii s0 * 1024 * 64)%N by lia.
  replace (N_of_ascii t0 * 65536)%N with (N_of_ascii t0 * 1024 * 64)%N by lia.
  rewrite !N.div_mul by done. rewrite !N.Div0.mod_mul.
  replace (N_of_ascii s0 * 1024)%N with (N_of_ascii s0 * 16 * 64)%N by lia.
  replace (N_of_ascii t0 * 1024)%N with (N_of_ascii t0 * 16 * 64)%N by lia.
  by rewrite !N.Div0.mod_mul.
Qed.

Lemma group2_inj (s0 s1 t0 t1 : ascii) :
  sextet (group2 s0 s1) 18 = sextet (group2 t0 t1) 18 →
  sextet (group2 s0 s1) 12 = sextet (group2 t0 t1) 12 →
  sextet (group2 s0 s1) 6 = sextet (group2 t0 t1) 6 →
  s0 = t0 ∧ s1 = t1.
Proof.
  intros H18 H12 H6.
  pose proof (sextet_group2_low s0 s1 t0 t1) as H0.
  rewrite <- !group3_zero in *.
  apply sextets_inj in H0; try done; try apply group3_lt.
  by apply group3_inj in H0 as (-> & -> & _).
Qed.

Lemma group1_inj (s0 t0 : ascii) :
  sextet (group1 s0) 18 = sextet (group1 t0) 18 →
  sextet (group1 s0) 12 = sextet (group1 t0) 12 →
  s0 = t0.
Proof.
  intros H18 H12.
  pose proof (sextet_group1_low s0 t0) as [H6 H0].
  rewrite <- !group2_zero, <- !group3_zero in *.
  apply sextets_inj in H0; try done; try apply group3_lt.
  by apply group3_inj in H0 as (-> & _).
Qed.

(** [EncodeToString] loses nothing: different inputs have different
    encodings. *)
Lemma EncodeToString_inj (s t : string) :
  EncodeToString s = EncodeToString t → s = t.
Proof.
  revert t. induction s as [|a|a b|a b c rest IH] using string_ind3;
    intros [|t0 [|t1 [|t2 trest]]];
    rewrite ?EncodeToString_group1, ?EncodeToString_group2,
      ?EncodeToString_group3;
    change (EncodeToString "") with "";
    intros Heq; try discriminate Heq; try reflexivity.
  - injection Heq as H18 H12. by rewrite (group1_inj a t0).
  - injection Heq as _ _ Hpad. symmetry in Hpad.
    by apply sextet_not_padding in Hpad.
  - injection Heq as _ _ Hpad. symmetry in Hpad.
    by apply sextet_not_padding in Hpad.
  - injection Heq as _ _ Hpad. by apply sextet_not_padding in Hpad.
  - injection Heq as H18 H12 H6.
    by destruct (group2_inj a b t0 t1) as [-> ->].
  - injection Heq as _ _ _ Hpad. symmetry in Hpad.
    by apply sextet_not_padding in Hpad.
  - injection Heq as _ _ Hpad. by apply sextet_not_padding in Hpad.
  - injection Heq as _ _ _ Hpad. by apply sextet_not_padding in Hpad.
  - injection Heq as H18 H12 H6 H0 Hrest.
    apply sextets_inj in H0; try done; try apply group3_lt.
    apply group3_inj in H0 as (-> & -> & ->). by rewrite (IH trest).
Qed.

Lemma append_cons (c : ascii) (s t : string) :
  String c s +:+ t = String c (s +:+ t).
Proof. reflexivity. Qed.

Lemma append_nil (t : string) : "" +:+ t = t.
Proof. reflexivity. Qed.

Lemma append_assoc (s t u : string) : (s +:+ t) +:+ u = s +:+ t +:+ u.
Proof.
  induction s as [|c s IH]; [done|]. by rewrite !append_cons, IH.
Qed.

Lemma credentials_split (userName1 password1 userName2 password2 : string) :
  noColon userName1 = true → noColon userName2 = true →
  userName1 +:+ ":" +:+ password1 = userName2 +:+ ":" +:+ password2 →
  userName1 = userName2 ∧ password1 = password2.
Proof.
  revert userName2.
  induction userName1 as [|c u1 IH]; intros [|c2 u2];
    rewrite ?append_cons, ?append_nil; cbn [noColon].
  - by intros _ _ [= ->].
  - intros _ [Hc _]%andb_true_iff [= Heq _]. by subst c2.
  - intros [Hc _]%andb_true_iff _ [= Heq _]. by subst c.
  - intros [_ H1]%andb_true_iff [_ H2]%andb_true_iff [= Heq Hrest]. subst c2.
    by destruct (IH u2 H1 H2 Hrest) as [-> ->].
Qed.

(** *** [BuildBasicAuthHeader] *)

(** X16. [BuildBasicAuthHeader] keeps the credentials apart as long as
    user names hold no colon, which is what the comment on
    [AuthenticateUser] asks for: two pairs of credentials with colon-free
    user names that yield the same header are the same pair. With a colon
    in the user name the header is ambiguous: the user [u:p] with the
    password [q] and the user [u] with the password [p:q] have the same
    header. *)
Theorem BuildBasicAuthHeader_injective
    (userName1 password1 userName2 password2 : string) :
  (noColon userName1 = true → noColon userName2 = true →
   BuildBasicAuthHeader userName1 password1
   = BuildBasicAuthHeader userName2 password2 →
   userName1 = userName2 ∧ password1 = password2)
  ∧ BuildBasicAuthHeader (userName1 +:+ ":" +:+ password1) password2
    = BuildBasicAuthHeader userName1 (password1 +:+ ":" +:+ password2).
Proof.
  split.
  - intros H1 H2. unfold BuildBasicAuthHeader. cbv zeta.
    intros [= Heq]. apply EncodeToString_inj in Heq.
    by apply credentials_split.
  - unfold BuildBasicAuthHeader. cbv zeta. do 2 f_equal.
    by rewrite append_assoc.
Qed.

Example BuildBasicAuthHeader_johndoe :
  BuildBasicAuthHeader "johndoe" "SuperSecret"
  = "Basic am9obmRvZTpTdXBlclNlY3JldA==".
Proof. vm_compute. reflexivity. Qed.

(** *** The registries *)

Section RegistryFacts.

Context {RedisClient AuthDriver Configuration RateLimitDriver : Type}.

Lemma registerAuthDrivers_spec
    (inits : list (string * authDriverFactory RedisClient AuthDriver)) :
  ∀ factories factories',
    registerAuthDrivers RedisClient AuthDriver inits factories
    = Returns factories' →
    NoDup inits.*1
    ∧ (∀ name, name ∈ inits.*1 → factories !! name = None)
    ∧ (∀ name factory, (name, factory) ∈ inits →
         factories' !! name = Some factory)
    ∧ (∀ name, name ∉ inits.*1 → factories' !! name = factories !! name).
Proof.
  induction inits as [|[name factory] rest IH]; intros factories factories';
    cbn [registerAuthDrivers fmap list_fmap fst].
  - intros [= <-]. split; [constructor|].
    split; [by intros ? ?%elem_of_nil|].
    split; [by intros ? ? ?%elem_of_nil|done].
  - unfold RegisterAuthDriver.
    destruct (factories !! name) as [old|] eqn:Hlook; [discriminate|].
    intros (Hnd & Hfresh & Hin & Hout)%IH.
    assert (Hnew : name ∉ rest.*1).
    { intros Hname. apply Hfresh in Hname.
      by rewrite lookup_insert_eq in Hname. }
    split; [by constructor|]. split; [|split].
    + intros n [->|Hn]%elem_of_cons; [done|].
      pose proof (Hfresh n Hn) as Hnone.
      destruct (decide (name = n)) as [->|Hne]; [done|].
      by rewrite lookup_insert_ne in Hnone.
    + intros n f [[= -> ->]|Hn]%elem_of_cons; [|by apply Hin].
      by rewrite (Hout name Hnew), lookup_insert_eq.
    + intros n Hn. apply not_elem_of_cons in Hn as [Hne Hn].
      by rewrite (Hout n Hn), lookup_insert_ne.
Qed.

Lemma registerAuthDrivers_returns
    (inits : list (string * authDriverFactory RedisClient AuthDriver)) :
  ∀ factories,
    NoDup inits.*1 →
    (∀ name, name ∈ inits.*1 → factories !! name = None) →
    ∃ factories',
      registerAuthDrivers RedisClient AuthDriver inits factories
      = Returns factories'.
Proof.
  induction inits as [|[name factory] rest IH]; intros factories;
    cbn [registerAuthDrivers fmap list_fmap fst].
  - intros _ _. by eexists.
  - intros [Hnew Hnd]%NoDup_cons Hfresh. unfold RegisterAuthDriver.
    rewrite (Hfresh name) by apply list_elem_of_here.
    apply IH; [done|]. intros n Hn.
    rewrite lookup_insert_ne by (by intros ->).
    apply Hfresh. by apply list_elem_of_further.
Qed.

Lemma registerAuthDrivers_panics
    (inits : list (string * authDriverFactory RedisClient AuthDriver)) :
  ∀ factories value,
    registerAuthDrivers RedisClient AuthDriver inits factories = Panics value →
    ∃ name,
      name ∈ inits.*1
      ∧ value = "attempted to register multiple auth drivers with name = "
                +:+ name.
Proof.
  induction inits as [|[name factory] rest IH]; intros factories value;
    cbn [registerAuthDrivers fmap list_fmap fst]; [discriminate|].
  unfold RegisterAuthDriver.
  destruct (factories !! name) as [old|] eqn:Hlook.
  - intros [= <-]. exists name. split; [apply list_elem_of_here|done].
  - intros (n & Hn & ->)%IH. exists n. split; [|done].
    by apply list_elem_of_further.
Qed.

(** X17. The registry of auth drivers. When the [init] functions of the
    driver packages register their drivers one after the other, starting
    from the empty map, the registration succeeds exactly when no name is
    registered twice; [NewAuthDriver] then calls the factory registered
    under the name, and answers "no such auth driver" for a name that was
    not registered or was registered with a nil factory. A name registered
    twice makes [RegisterAuthDriver] panic with that name. *)
Theorem NewAuthDriver_after_registration
    (inits : list (string * authDriverFactory RedisClient AuthDriver)) :
  (NoDup inits.*1
   ↔ ∃ factories,
       registerAuthDrivers RedisClient AuthDriver inits
         (authDriverFactories RedisClient AuthDriver)
       = Returns factories)
  ∧ (∀ factories,
       registerAuthDrivers RedisClient AuthDriver inits
         (authDriverFactories RedisClient AuthDriver)
       = Returns factories →
       (∀ name factory rc,
          (name, Some factory) ∈ inits →
          NewAuthDriver RedisClient AuthDriver factories name rc = factory rc)
       ∧ (∀ name rc,
            name ∉ inits.*1 ∨ (name, None) ∈ inits →
            NewAuthDriver RedisClient AuthDriver factories name rc
            = inl (errorString ("no such auth driver: " +:+ name))))
  ∧ (∀ value,
       registerAuthDrivers RedisClient AuthDriver inits
         (authDriverFactories RedisClient AuthDriver)
       = Panics value →
       ∃ name,
         name ∈ inits.*1
         ∧ value = "attempted to register multiple auth drivers with name = "
                   +:+ name).
Proof.
  split; [|split].
  - split.
    + intros Hnd. apply registerAuthDrivers_returns; [done|].
      intros name _. apply lookup_empty.
    + intros [factories Hreg].
      by apply registerAuthDrivers_spec in Hreg as (Hnd & _).
  - intros factories (_ & _ & Hin & Hout)%registerAuthDrivers_spec. split.
    + intros name factory rc Hname.
      unfold NewAuthDriver, authDriverFactory in *.
      by rewrite (Hin name (Some factory) Hname).
    + intros name rc [Hname|Hname];
        unfold NewAuthDriver, authDriverFactory in *.
      * rewrite (Hout name Hname). unfold authDriverFactories.
        by rewrite lookup_empty.
      * by rewrite (Hin name None Hname).
  - intros value. apply registerAuthDrivers_panics.
Qed.

Lemma registerRateLimitDrivers_spec
    (inits : list (string
                   * rateLimitDriverFactory AuthDriver Configuration
                       RateLimitDriver)) :
  ∀ factories factories',
    registerRateLimitDrivers AuthDriver Configuration RateLimitDriver
      inits factories
    = Returns factories' →
    NoDup inits.*1
    ∧ (∀ name, name ∈ inits.*1 → factories !! name = None)
    ∧ (∀ name factory, (name, factory) ∈ inits →
         factories' !! name = Some factory)
    ∧ (∀ name, name ∉ inits.*1 → factories' !! name = factories !! name).
Proof.
  induction inits as [|[name factory] rest IH]; intros factories factories';
    cbn [registerRateLimitDrivers fmap list_fmap fst].
  - intros [= <-]. split; [constructor|].
    split; [by intros ? ?%elem_of_nil|].
    split; [by intros ? ? ?%elem_of_nil|done].
  - unfold RegisterRateLimitDriver.
    destruct (factories !! name) as [old|] eqn:Hlook; [discriminate|].
    intros (Hnd & Hfresh & Hin & Hout)%IH.
    assert (Hnew : name ∉ rest.*1).
    { intros Hname. apply Hfresh in Hname.
      by rewrite lookup_insert_eq in Hname. }
    split; [by constructor|]. split; [|split].
    + intros n [->|Hn]%elem_of_cons; [done|].
      pose proof (Hfresh n Hn) as Hnone.
      destruct (decide (name = n)) as [->|Hne]; [done|].
      by rewrite lookup_insert_ne in Hnone.
    + intros n f [[= -> ->]|Hn]%elem_of_cons; [|by apply Hin].
      by rewrite (Hout name Hnew), lookup_insert_eq.
    + intros n Hn. apply not_elem_of_cons in Hn as [Hne Hn].
      by rewrite (Hout n Hn), lookup_insert_ne.
Qed.

Lemma registerRateLimitDrivers_returns
    (inits : list (string
                   * rateLimitDriverFactory AuthDriver Configuration
                       RateLimitDriver)) :
  ∀ factories,
    NoDup inits.*1 →
    (∀ name, name ∈ inits.*1 → factories !! name = None) →
    ∃ factories',
      registerRateLimitDrivers AuthDriver Configuration RateLimitDriver
        inits factories
      = Returns factories'.
Proof.
  induction inits as [|[name factory] rest IH]; intros factories;
    cbn [registerRateLimitDrivers fmap list_fmap fst].
  - intros _ _. by eexists.
  - intros [Hnew Hnd]%NoDup_cons Hfresh. unfold RegisterRateLimitDriver.
    rewrite (Hfresh name) by apply list_elem_of_here.
    apply IH; [done|]. intros n Hn.
    rewrite lookup_insert_ne by (by intros ->).
    apply Hfresh. by apply list_elem_of_further.
Qed.

Lemma registerRateLimitDrivers_panics
    (inits : list (string
                   * rateLimitDriverFactory AuthDriver Configuration
                       RateLimitDriver)) :
  ∀ factories value,
    registerRateLimitDrivers AuthDriver Configuration RateLimitDriver
      inits factories
    = Panics value →
    ∃ name,
      name ∈ inits.*1
      ∧ value
        = "attempted to register multiple rate-limit drivers with name = "
          +:+ name.
Proof.
  induction inits as [|[name factory] rest IH]; intros factories value;
    cbn [registerRateLimitDrivers fmap list_fmap fst]; [discriminate|].
  unfold RegisterRateLimitDriver.
  destruct (factories !! name) as [old|] eqn:Hlook.
  - intros [= <-]. exists name. split; [apply list_elem_of_here|done].
  - intros (n & Hn & ->)%IH. exists n. split; [|done].
    by apply list_elem_of_further.
Qed.

(** X18. The registry of rate-limit drivers behaves in the same way:
    registration from the empty map succeeds exactly when no name is
    registered twice; [NewRateLimitDriver] then calls the factory
    registered under the name with the auth driver and the configuration,
    and answers "no such rate-limit driver" for any other name and for a
    nil factory; a name registered twice makes [RegisterRateLimitDriver]
    panic with that name. *)
Theorem NewRateLimitDriver_after_registration
    (inits : list (string
                   * rateLimitDriverFactory AuthDriver Configuration
                       RateLimitDriver)) :
  (NoDup inits.*1
   ↔ ∃ factories,
       registerRateLimitDrivers AuthDriver Configuration RateLimitDriver inits
         (rateLimitDriverFactories AuthDriver Configuration RateLimitDriver)
       = Returns factories)
  ∧ (∀ factories,
       registerRateLimitDrivers AuthDriver Configuration RateLimitDriver inits
         (rateLimitDriverFactories AuthDriver Configuration RateLimitDriver)
       = Returns factories →
       (∀ name factory authDriver cfg,
          (name, Some factory) ∈ inits →
          NewRateLimitDriver AuthDriver Configuration RateLimitDriver
            factories name authDriver cfg
          = factory authDriver cfg)
       ∧ (∀ name authDriver cfg,
            name ∉ inits.*1 ∨ (name, None) ∈ inits →
            NewRateLimitDriver AuthDriver Configuration RateLimitDriver
              factories name authDriver cfg
            = inl (errorString ("no such rate-limit driver: " +:+ name))))
  ∧ (∀ value,
       registerRateLimitDrivers AuthDriver Configuration RateLimitDriver inits
         (rateLimitDriverFactories AuthDriver Configuration RateLimitDriver)
       = Panics value →
       ∃ name,
         name ∈ inits.*1
         ∧ value
           = "attempted to register multiple rate-limit drivers with name = "
             +:+ name).
Proof.
  split; [|split].
  - split.
    + intros Hnd. apply registerRateLimitDrivers_returns; [done|].
      intros name _. apply lookup_empty.
    + intros [factories Hreg].
      by apply registerRateLimitDrivers_spec in Hreg as (Hnd & _).
  - intros factories (_ & _ & Hin & Hout)%registerRateLimitDrivers_spec. split.
    + intros name factory authDriver cfg Hname.
      unfold NewRateLimitDriver, rateLimitDriverFactory in *.
      by rewrite (Hin name (Some factory) Hname).
    + intros name authDriver cfg [Hname|Hname];
        unfold NewRateLimitDriver, rateLimitDriverFactory in *.
      * rewrite (Hout name Hname). unfold rateLimitDriverFactories.
        by rewrite lookup_empty.
      * by rewrite (Hin name None Hname).
  - intros value. apply registerRateLimitDrivers_panics.
Qed.

End RegistryFacts.

(** *** The registries on an example *)

Lemma NewAuthDriver_after_registration_witness :
  ∃ factories,
    registerAuthDrivers unit string exampleInits (authDriverFactories unit string)
    = Returns factories
    ∧ NewAuthDriver unit string factories "unittest" tt = inr "unittest driver"
    ∧ NewAuthDriver unit string factories "swift" tt
      = inl (errorString "no such auth driver: swift").
Proof.
  pose proof (NewAuthDriver_after_registration exampleInits)
    as (Hreturns & Hnew & _).
  destruct (proj1 Hreturns) as [factories Hreg].
  { unfold exampleInits. cbn [fmap list_fmap fst].
    apply NoDup_cons. split; [|apply NoDup_singleton].
    intros Hin. apply list_elem_of_singleton in Hin. discriminate Hin. }
  exists factories. split; [exact Hreg|].
  destruct (Hnew factories Hreg) as [Hin Hout]. split.
  - apply (Hin "unittest" (λ _, inr "unittest driver") tt).
    unfold exampleInits. apply list_elem_of_here.
  - apply (Hout "swift" tt). left. unfold exampleInits.
    cbn [fmap list_fmap fst]. intros Hin'.
    repeat (apply elem_of_cons in Hin' as [Hin'|Hin']; [discriminate Hin'|]).
    by apply elem_of_nil in Hin'.
Defined.

End Drivers.

(* ===================================================================== *)
(** ** Package test: the auth driver for unit tests                       *)
(* ===================================================================== *)

Module TestAuth.

Import Go.
Import GoStrings.
Import Drivers.

(** *** The Go library functions that the driver calls *)

(** [http.Header] is [map[string][]string]; [Get] returns the first value
    of the key, which is given in its canonical form, or the empty
    string. *)
Definition http_Header_Get (h : gmap string (list string)) (key : string)
    : string :=
  match h !! key with
  | Some (x :: _) => x
  | _ => ""
  end.

(** *** The driver *)

Record AuthDriver : Set := mkAuthDriver {
  ExpectedUserName : string;
  ExpectedPassword : string;
  GrantedPermissions : string
}.

(** [type userIdentity struct]: [Perms] maps a permission to the tenants it
    is granted for. *)
Record userIdentity : Type := mkUserIdentity {
  Username : string;
  Perms : gmap string (gmap string bool)
}.

(** The error [keppel.ErrUnauthorized.With(msg)]. *)
Inductive RegistryV2Error : Set :=
  | ErrUnauthorized_With (msg : string).

(** [func (d *AuthDriver) DriverName() string] *)
Definition DriverName (d : AuthDriver) : string := "unittest".

(** [func (d *AuthDriver) ValidateTenantID(tenantID string) error] *)
Definition ValidateTenantID (d : AuthDriver) (tenantID : string)
    : option error :=
  if String.eqb tenantID "invalid"
  then Some (errorString ("must not be " +:+ quotePlain "invalid"))
  else None.

(** One iteration of the loop of [parseUserIdentity]: [fields[1]] panics
    when the field holds no colon. *)
Definition parseField (perms : gmap string (gmap string bool)) (field : string)
    : outcome (gmap string (gmap string bool)) :=
  match strings_SplitN2 ":" field with
  | f0 :: f1 :: _ =>
      let perms :=
        match perms !! f0 with
        | Some _ => perms
        | None => <[f0 := ∅]> perms
        end in
      Returns (<[f0 := <[f1 := true]> (default ∅ (perms !! f0))]> perms)
  | _ => Panics "runtime error: index out of range [1] with length 1"
  end.

Fixpoint parseFields (fields : list string)
    (perms : gmap string (gmap string bool))
    : outcome (gmap string (gmap string bool)) :=
  match fields with
  | [] => Returns perms
  | field :: rest =>
      match parseField perms field with
      | Panics value => Panics value
      | Returns perms' => parseFields rest perms'
      end
  end.

(** [func (d *AuthDriver) parseUserIdentity(permsHeader string)
    keppel.UserIdentity] *)
Definition parseUserIdentity (d : AuthDriver) (permsHeader : string)
    : outcome userIdentity :=
  if String.eqb permsHeader "" then Returns (mkUserIdentity (ExpectedUserName d) ∅)
  else
    match parseFields (strings_Split "," permsHeader) ∅ with
    | Panics value => Panics value
    | Returns perms => Returns (mkUserIdentity (ExpectedUserName d) perms)
    end.

(** [func (uid userIdentity) UserName() string] *)
Definition UserName (uid : userIdentity) : string := Username uid.

(** [func (uid userIdentity) HasPermission(perm keppel.Permission,
    tenantID string) bool]: a missing key reads as the nil map, and as
    [false]. *)
Definition HasPermission (uid : userIdentity) (perm tenantID : string) : bool :=
  default false (default ∅ (Perms uid !! perm) !! tenantID).

(** The closure [is] of [AuthenticateUser]. *)
Definition is_ (a b : string) : bool :=
  negb (String.eqb a "") && String.eqb a b.

(** [func (d *AuthDriver) AuthenticateUser(userName, password string)
    (keppel.UserIdentity, *keppel.RegistryV2Error)] *)
Definition AuthenticateUser (d : AuthDriver) (userName password : string)
    : outcome (RegistryV2Error + userIdentity) :=
  if is_ userName (ExpectedUserName d) && is_ password (ExpectedPassword d)
  then
    match parseUserIdentity d (GrantedPermissions d) with
    | Panics value => Panics value
    | Returns uid => Returns (inr uid)
    end
  else Returns (inl (ErrUnauthorized_With "wrong credentials")).

(** [func (d *AuthDriver) AuthenticateUserFromRequest(r *http.Request)
    (keppel.UserIdentity, *keppel.RegistryV2Error)], on the header of the
    request: [None] is the pair of nils that stands for an anonymous
    user. *)
Definition AuthenticateUserFromRequest (d : AuthDriver)
    (header : gmap string (list string)) : outcome (option userIdentity) :=
  let hdr := http_Header_Get header "X-Test-Perms" in
  if String.eqb hdr "" then Returns None
  else
    match parseUserIdentity d hdr with
    | Panics value => Panics value
    | Returns uid => Returns (Some uid)
    end.

(** [func init()]: the driver is registered under the name "unittest",
    with a factory that returns [&AuthDriver{}]. *)
Definition init {RedisClient : Type}
    (factories : gmap string (authDriverFactory RedisClient AuthDriver))
    : outcome (gmap string (authDriverFactory RedisClient AuthDriver)) :=
  RegisterAuthDriver RedisClient AuthDriver factories "unittest"
    (Some (λ _, inr (mkAuthDriver "" "" ""))).

(** *** Notions that the properties are stated with *)

(** The permission [perm] is granted for the tenant in the map. *)
Definition granted (perms : gmap string (gmap string bool))
    (perm tenantID : string) : bool :=
  default false (default ∅ (perms !! perm) !! tenantID).

(** A driver as a test sets it up. *)
Definition exampleDriver : AuthDriver :=
  mkAuthDriver "correctusername" "correctpassword" "push:test1authtenant,pull:test1authtenant".

(** *** Splitting *)

Lemma noColon_colon (before after : string) :
  noColon (before +:+ ":" +:+ after) = false.
Proof.
  induction before as [|c before IH]; [done|].
  change (String c before +:+ ":" +:+ after)
    with (String c (before +:+ ":" +:+ after)).
  cbn [noColon]. rewrite IH. apply andb_false_r.
Qed.

Lemma strings_SplitN2_cases (s : string) :
  (noColon s = true ∧ strings_SplitN2 ":" s = [s])
  ∨ ∃ before after,
      noColon before = true
      ∧ s = before +:+ ":" +:+ after
      ∧ strings_SplitN2 ":" s = [before; after].
Proof.
  induction s as [|c s IH]; [by left|].
  cbn [strings_SplitN2 noColon].
  destruct (Ascii.eqb c ":") eqn:Hc.
  - apply Ascii.eqb_eq in Hc as ->. right. by exists "", s.
  - destruct IH as [[Hno ->]|(before & after & Hno & -> & ->)].
    + left. by rewrite Hno.
    + right. exists (String c before), after. cbn [noColon].
      by rewrite Hc, Hno.
Qed.

Lemma strings_SplitN2_pair (field perm tenantID : string) :
  (∃ more, strings_SplitN2 ":" field = perm :: tenantID :: more)
  ↔ field = perm +:+ ":" +:+ tenantID ∧ noColon perm = true.
Proof.
  destruct (strings_SplitN2_cases field)
    as [[Hno Hs]|(before & after & Hno & Hfield & Hs)]; rewrite Hs.
  - split; [by intros [more [=]]|]. intros [-> Hperm].
    by rewrite noColon_colon in Hno.
  - split.
    + by intros [more [= <- <- _]].
    + intros [Heq Hperm]. exists []. rewrite Hfield in Heq.
      by destruct (credentials_split before after perm tenantID Hno Hperm Heq)
        as [-> ->].
Qed.

(** *** Parsing the permissions *)

Lemma granted_insert (perms : gmap string (gmap string bool))
    (f0 f1 perm tenantID : string) :
  granted (<[f0 := <[f1 := true]> (default ∅ (perms !! f0))]> perms)
    perm tenantID = true
  ↔ granted perms perm tenantID = true ∨ (perm = f0 ∧ tenantID = f1).
Proof.
  unfold granted. destruct (decide (perm = f0)) as [->|Hperm].
  - rewrite lookup_insert_eq. cbn [default from_option id].
    destruct (decide (tenantID = f1)) as [->|Htenant].
    + rewrite lookup_insert_eq. split; [by right; split|done].
    + rewrite lookup_insert_ne by done. split; [by left|].
      by intros [?|[_ ?]].
  - rewrite lookup_insert_ne by done. split; [by left|]. by intros [?|[? _]].
Qed.

Lemma parseField_granted (perms perms' : gmap string (gmap string bool))
    (field perm tenantID : string) :
  parseField perms field = Returns perms' →
  granted perms' perm tenantID = true
  ↔ granted perms perm tenantID = true
    ∨ ∃ more, strings_SplitN2 ":" field = perm :: tenantID :: more.
Proof.
  unfold parseField.
  destruct (strings_SplitN2 ":" field) as [|f0 [|f1 more]]; [discriminate..|].
  intros [= <-].
  assert (Hsame : granted (match perms !! f0 with
                           | Some _ => perms
                           | None => <[f0 := ∅]> perms
                           end) perm tenantID
                  = granted perms perm tenantID).
  { destruct (perms !! f0) as [inner|] eqn:Hlook; [done|]. unfold granted.
    destruct (decide (perm = f0)) as [->|Hne].
    - by rewrite lookup_insert_eq, Hlook.
    - by rewrite lookup_insert_ne. }
  rewrite granted_insert, Hsame. split.
  - intros [?|[-> ->]]; [by left|right; by exists more].
  - intros [?|[more' [= -> -> _]]]; [by left|by right].
Qed.

Lemma parseFields_granted (fields : list string) (perm tenantID : string) :
  ∀ perms perms',
    parseFields fields perms = Returns perms' →
    granted perms' perm tenantID = true
    ↔ granted perms perm tenantID = true
      ∨ ∃ field more,
          field ∈ fields
          ∧ strings_SplitN2 ":" field = perm :: tenantID :: more.
Proof.
  induction fields as [|field rest IH]; intros perms perms';
    cbn [parseFields].
  - intros [= <-]. split; [by left|].
    by intros [?|(? & ? & ?%elem_of_nil & _)].
  - destruct (parseField perms field) as [perms1|] eqn:Hfield; [|discriminate].
    intros Hrest. rewrite (IH _ _ Hrest).
    rewrite (parseField_granted _ _ _ perm tenantID Hfield). split.
    + intros [[?|[more Hs]]|(f & more & Hf & Hs)].
      * by left.
      * right. exists field, more. split; [apply list_elem_of_here|done].
      * right. exists f, more. split; [by apply list_elem_of_further|done].
    + intros [?|(f & more & [->|Hf]%elem_of_cons & Hs)].
      * by left; left.
      * left; right. by exists more.
      * right. by exists f, more.
Qed.

Lemma parseFields_panics (fields : list string) :
  ∀ perms,
    (∃ value, parseFields fields perms = Panics value)
    ↔ ∃ field, field ∈ fields ∧ noColon field = true.
Proof.
  induction fields as [|field rest IH]; intros perms; cbn [parseFields].
  - split; [by intros [? [=]]|by intros (? & ?%elem_of_nil & _)].
  - unfold parseField at 1.
    destruct (strings_SplitN2_cases field)
      as [[Hno Hs]|(before & after & Hno & Hfield & Hs)]; rewrite Hs.
    + split; [|by eexists]. intros _. exists field.
      split; [apply list_elem_of_here|done].
    + rewrite IH. split.
      * intros (f & Hf & Hnof). exists f.
        split; [by apply list_elem_of_further|done].
      * intros (f & [->|Hf]%elem_of_cons & Hnof); [|by exists f].
        by rewrite Hfield, noColon_colon in Hnof.
Qed.

(** X19. The permissions that the driver grants. When [parseUserIdentity]
    returns, the identity bears the driver's expected user name, and
    [HasPermission] answers true for a permission and a tenant exactly
    when the header is not empty and one of its fields, the pieces between
    the commas, is the permission, a colon and the tenant, the permission
    holding no colon (a field is split at its first colon). *)
Theorem parseUserIdentity_HasPermission (d : AuthDriver) (permsHeader : string)
    (uid : userIdentity) :
  parseUserIdentity d permsHeader = Returns uid →
  UserName uid = ExpectedUserName d
  ∧ ∀ perm tenantID,
      HasPermission uid perm tenantID = true
      ↔ permsHeader ≠ ""
        ∧ perm +:+ ":" +:+ tenantID ∈ strings_Split "," permsHeader
        ∧ noColon perm = true.
Proof.
  unfold parseUserIdentity.
  destruct (String.eqb permsHeader "") eqn:Hempty.
  - apply String.eqb_eq in Hempty as ->. intros [= <-]. split; [done|].
    intros perm tenantID. split; [|by intros [? _]].
    unfold HasPermission. cbn [Perms]. by rewrite lookup_empty.
  - apply String.eqb_neq in Hempty.
    destruct (parseFields _ _) as [perms|] eqn:Hparse; [|discriminate].
    intros [= <-]. split; [done|]. intros perm tenantID.
    change (HasPermission (mkUserIdentity (ExpectedUserName d) perms)
              perm tenantID) with (granted perms perm tenantID).
    rewrite (parseFields_granted _ perm tenantID _ _ Hparse). split.
    + intros [Hgranted|(field & more & Hfield & Hs)].
      { unfold granted in Hgranted. by rewrite lookup_empty in Hgranted. }
      assert (∃ more, strings_SplitN2 ":" field = perm :: tenantID :: more)
        as [-> Hperm]%strings_SplitN2_pair by by exists more.
      done.
    + intros (_ & Hfield & Hperm). right.
      destruct (proj2 (strings_SplitN2_pair (perm +:+ ":" +:+ tenantID)
                         perm tenantID)) as [more Hs]; [done|].
      by exists (perm +:+ ":" +:+ tenantID), more.
Qed.

Lemma parseUserIdentity_HasPermission_witness :
  ∃ uid,
    parseUserIdentity exampleDriver (GrantedPermissions exampleDriver)
    = Returns uid
    ∧ HasPermission uid "push" "test1authtenant" = true.
Proof.
  destruct (parseUserIdentity exampleDriver (GrantedPermissions exampleDriver))
    as [uid|value] eqn:Hparse; [|vm_compute in Hparse; discriminate Hparse].
  exists uid. split; [reflexivity|].
  apply (proj2 (parseUserIdentity_HasPermission exampleDriver
                  (GrantedPermissions exampleDriver) uid Hparse)
           "push" "test1authtenant").
  split; [discriminate|]. split; [|reflexivity].
  vm_compute. elem_of_literal.
Defined.

(** X20. [parseUserIdentity] panics on a malformed header: it returns for
    the empty header, and panics (reading [fields[1]] of a field without a
    colon) exactly when the header is not empty and one of its fields
    holds no colon, as do the empty fields that a trailing comma or two
    commas in a row produce. The same holds of
    [AuthenticateUserFromRequest] and the header [X-Test-Perms] of the
    request. *)
Theorem parseUserIdentity_panics (d : AuthDriver) (permsHeader : string)
    (header : gmap string (list string)) :
  ((∃ value, parseUserIdentity d permsHeader = Panics value)
   ↔ permsHeader ≠ ""
     ∧ ∃ field, field ∈ strings_Split "," permsHeader ∧ noColon field = true)
  ∧ ((∃ value, AuthenticateUserFromRequest d header = Panics value)
     ↔ http_Header_Get header "X-Test-Perms" ≠ ""
       ∧ ∃ field,
           field ∈ strings_Split "," (http_Header_Get header "X-Test-Perms")
           ∧ noColon field = true).
Proof.
  assert (Hparse : ∀ hdr,
            (∃ value, parseUserIdentity d hdr = Panics value)
            ↔ hdr ≠ ""
              ∧ ∃ field, field ∈ strings_Split "," hdr ∧ noColon field = true).
  { intros hdr. unfold parseUserIdentity.
    destruct (String.eqb hdr "") eqn:Hempty.
    - apply String.eqb_eq in Hempty as ->.
      split; [by intros [? [=]]|by intros [? _]].
    - apply String.eqb_neq in Hempty.
      rewrite <- (parseFields_panics (strings_Split "," hdr) ∅).
      destruct (parseFields _ _) as [perms|value]; split.
      + by intros [? [=]].
      + by intros [_ [? [=]]].
      + intros _. split; [done|by eexists].
      + intros _. by eexists. }
  split; [apply Hparse|].
  rewrite <- Hparse. unfold AuthenticateUserFromRequest. cbv zeta.
  destruct (String.eqb (http_Header_Get header "X-Test-Perms") "") eqn:Hempty.
  - apply String.eqb_eq in Hempty. split; [by intros [? [=]]|].
    intros Hpanic. apply Hparse in Hpanic as [Hne _]. done.
  - destruct (parseUserIdentity d _) as [uid|value]; split.
    + by intros [? [=]].
    + by intros [? [=]].
    + intros _. by eexists.
    + intros _. by eexists.
Qed.

Lemma parseUserIdentity_panics_witness :
  ∃ value, parseUserIdentity exampleDriver "view:tenant1," = Panics value.
Proof.
  apply (proj2 (proj1 (parseUserIdentity_panics exampleDriver "view:tenant1," ∅))).
  split; [discriminate|]. exists "". split; [|reflexivity].
  vm_compute. elem_of_literal.
Defined.

(** *** Authentication *)

Lemma is_spec (a b : string) : is_ a b = true ↔ a ≠ "" ∧ a = b.
Proof.
  unfold is_. rewrite andb_true_iff, negb_true_iff, String.eqb_eq.
  by rewrite <- not_true_iff_false, String.eqb_eq.
Qed.

(** X21. [AuthenticateUser] grants the identity parsed from
    [GrantedPermissions] when the user name and the password are the
    expected ones and neither is empty, and answers "wrong credentials"
    in every other case; so the driver that the factory registered by
    [init] creates, whose expected credentials are empty, rejects every
    user, the one with empty credentials included. *)
Theorem AuthenticateUser_credentials (d : AuthDriver) (userName password : string) :
  (userName ≠ "" ∧ password ≠ ""
   ∧ userName = ExpectedUserName d ∧ password = ExpectedPassword d →
   AuthenticateUser d userName password
   = match parseUserIdentity d (GrantedPermissions d) with
     | Panics value => Panics value
     | Returns uid => Returns (inr uid)
     end)
  ∧ (¬ (userName ≠ "" ∧ password ≠ ""
        ∧ userName = ExpectedUserName d ∧ password = ExpectedPassword d) →
     AuthenticateUser d userName password
     = Returns (inl (ErrUnauthorized_With "wrong credentials")))
  ∧ (∀ (RedisClient : Type) (rc : RedisClient) factories created,
       init (authDriverFactories RedisClient AuthDriver) = Returns factories →
       NewAuthDriver RedisClient AuthDriver factories "unittest" rc
       = inr created →
       AuthenticateUser created userName password
       = Returns (inl (ErrUnauthorized_With "wrong credentials"))).
Proof.
  assert (Hiff : ∀ d',
            is_ userName (ExpectedUserName d')
            && is_ password (ExpectedPassword d') = true
            ↔ userName ≠ "" ∧ password ≠ ""
              ∧ userName = ExpectedUserName d'
              ∧ password = ExpectedPassword d').
  { intros d'. rewrite andb_true_iff, !is_spec. tauto. }
  unfold AuthenticateUser. split; [|split].
  - intros Hok. by rewrite (proj2 (Hiff d) Hok).
  - intros Hnot. destruct (is_ _ _ && is_ _ _) eqn:His; [|done].
    destruct Hnot. by apply Hiff.
  - intros RedisClient rc factories created.
    unfold init, RegisterAuthDriver, authDriverFactories.
    rewrite lookup_empty. intros [= <-]. unfold NewAuthDriver.
    rewrite lookup_insert_eq. intros [= <-].
    destruct (is_ _ _ && is_ _ _) eqn:His; [|done].
    apply Hiff in His as (Hu & _ & Hue & _). simpl in Hue. done.
Qed.

Lemma AuthenticateUser_credentials_witness :
  AuthenticateUser exampleDriver "correctusername" "correctpassword"
  = match parseUserIdentity exampleDriver (GrantedPermissions exampleDriver) with
    | Panics value => Panics value
    | Returns uid => Returns (inr uid)
    end
  ∧ AuthenticateUser exampleDriver "correctusername" ""
    = Returns (inl (ErrUnauthorized_With "wrong credentials")).
Proof.
  split.
  - apply (proj1 (AuthenticateUser_credentials exampleDriver
                    "correctusername" "correctpassword")).
    by repeat split.
  - apply (proj1 (proj2 (AuthenticateUser_credentials exampleDriver
                           "correctusername" ""))).
    by intros (_ & Hp & _).
Defined.

End TestAuth.

(* ===================================================================== *)
(** ** Command api: peering                                               *)
(* ===================================================================== *)

Module Peering.

Import Go.
Import GoStrings.

Local Open Scope Z_scope.

(** [time.Time] in seconds since the epoch. *)
Abbreviation Time := Z (only parsing).

Definition time_Minute : Z := 60.

(** *** The table [peers] and the two statements *)

(** A row of [peers], as migration 001 creates the table. *)
Record Peer : Set := mkPeer {
  HostName : string;
  OurPassword : string;
  TheirCurrentPasswordHash : string;
  TheirPreviousPasswordHash : string;
  LastPeeredAt : option Time
}.

(** [INSERT INTO peers (hostname) VALUES ($1) ON CONFLICT DO NOTHING]: the
    primary key is [hostname]; the other columns of a new row take their
    defaults. *)
Definition insertPeerQuery (hostname : string) (peers : list Peer) : list Peer :=
  if bool_decide (hostname ∈ HostName <$> peers) then peers
  else peers ++ [mkPeer hostname "" "" "" None].

(** The [WHERE] clause of [getNextPeerQuery]. *)
Definition getNextPeerWhere (cutoff : Time) (p : Peer) : Tasks.sqlBool :=
  Tasks.sql_or (Tasks.sql_lt (LastPeeredAt p) (Some cutoff))
               (Tasks.sql_is_null (LastPeeredAt p)).

(** [COALESCE(last_peered_at, TO_TIMESTAMP(-1))] *)
Definition peerOrderKey (p : Peer) : Time := default (-1) (LastPeeredAt p).

Definition peerOrderLe (a b : Peer) : bool :=
  peerOrderKey a <=? peerOrderKey b.

(** Sorting for [ORDER BY ... ASC]: rows that rank alike keep their scan
    order. *)
Fixpoint insertOrdered (p : Peer) (sorted : list Peer) : list Peer :=
  match sorted with
  | [] => [p]
  | x :: rest =>
      if peerOrderLe p x then p :: x :: rest
      else x :: insertOrdered p rest
  end.

Definition orderByLastPeered (rows : list Peer) : list Peer :=
  foldr insertOrdered [] rows.

(** The rows that the query may return: those on which the [WHERE] clause
    is true and which no other transaction has locked
    ([FOR UPDATE SKIP LOCKED]). *)
Definition selectable (locked : Peer → bool) (cutoff : Time) (p : Peer) : Prop :=
  Tasks.sql_true (getNextPeerWhere cutoff p) = true ∧ locked p = false.

#[global] Instance selectable_dec (locked : Peer → bool) (cutoff : Time)
    (p : Peer) : Decision (selectable locked cutoff p).
Proof. unfold selectable. apply _. Defined.

(** [getNextPeerQuery], with [LIMIT 1]. *)
Definition getNextPeerQuery (locked : Peer → bool) (cutoff : Time)
    (peers : list Peer) : list Peer :=
  take 1 (orderByLastPeered (filter (selectable locked cutoff) peers)).

(** *** The process and what surrounds it *)

(** What the functions act on: the table, the number of calls made to the
    database and to the clock, whether the goroutine of [runPeering] was
    started, and the peers that [tasks.IssueNewPasswordForPeer] was
    called for. *)
Record World : Set := mkWorld {
  peers : list Peer;
  dbCalls : nat;
  clockReads : nat;
  tickerStarted : bool;
  issuedFor : list Peer
}.

(** What they do not control: the environment variable [KEPPEL_PEERS],
    the clock, the calls to the database that fail, and the rows that
    other transactions have locked. *)
Record Env : Set := mkEnv {
  KEPPEL_PEERS : string;
  timeNow : nat → Time;
  dbFault : nat → option error;
  lockedByOthers : Peer → bool
}.

(** How a function of the command ends: it returns, or [must] stops the
    process through [logg.Fatal]. *)
Inductive exit : Set :=
  | Returned
  | Fatal (message : string).

Definition tickDb (w : World) : World :=
  mkWorld (peers w) (S (dbCalls w)) (clockReads w) (tickerStarted w)
    (issuedFor w).

Definition tickClock (w : World) : World :=
  mkWorld (peers w) (dbCalls w) (S (clockReads w)) (tickerStarted w)
    (issuedFor w).

Definition withPeers (w : World) (rows : list Peer) : World :=
  mkWorld rows (dbCalls w) (clockReads w) (tickerStarted w) (issuedFor w).

Definition startTicker (w : World) : World :=
  mkWorld (peers w) (dbCalls w) (clockReads w) true (issuedFor w).

Definition recordIssue (w : World) (peer : Peer) : World :=
  mkWorld (peers w) (dbCalls w) (clockReads w) (tickerStarted w)
    (issuedFor w ++ [peer]).

(** The first loop of [runPeering], over the pieces of [KEPPEL_PEERS]. *)
Fixpoint peerHostNamesLoop (pieces : list string) (peerHostNames : list string)
    : list string :=
  match pieces with
  | [] => peerHostNames
  | hostName :: rest =>
      let hostName := strings_TrimSpace hostName in
      if negb (String.eqb hostName "")
      then peerHostNamesLoop rest (peerHostNames ++ [hostName])
      else peerHostNamesLoop rest peerHostNames
  end.

(** *** Concrete tables and environments *)

Definition examplePeers : list Peer :=
  [ mkPeer "keppel.example.org" "secret" "hash1" "hash0" (Some 21000);
    mkPeer "keppel.example.com" "" "" "" None ].

Definition exampleEnv : Env :=
  mkEnv " keppel.example.org, keppel.example.net ,," (λ _, 21600)
        (λ _, None) (λ _, false).

Definition freshWorld (rows : list Peer) : World := mkWorld rows 0 0 false [].

Section Command.

Variable env : Env.

(** [tasks.IssueNewPasswordForPeer(cfg, db, tx, peer)]: the error it
    returns and the table it leaves. *)
Variable IssueNewPasswordForPeer : Peer → list Peer → option error * list Peer.

(** The second loop of [runPeering]: [db.Exec] and [must]. *)
Fixpoint insertPeersLoop (peerHostNames : list string) (w : World)
    : exit * World :=
  match peerHostNames with
  | [] => (Returned, w)
  | peerHostName :: rest =>
      match dbFault env (dbCalls w) with
      | Some err => (Fatal (Error err), tickDb w)
      | None =>
          insertPeersLoop rest
            (tickDb (withPeers w (insertPeerQuery peerHostName (peers w))))
      end
  end.

(** [func runPeering(ctx context.Context, cfg keppel.Configuration,
    db *keppel.DB)] *)
Definition runPeering (w : World) : exit * World :=
  let peerHostNames :=
    peerHostNamesLoop (strings_Split "," (KEPPEL_PEERS env)) [] in
  match peerHostNames with
  | [] => (Returned, w)
  | _ =>
      match insertPeersLoop peerHostNames w with
      | (Fatal message, w') => (Fatal message, w')
      | (Returned, w') => (Returned, startTicker w')
      end
  end.

(** [func tryIssueNewPasswordForPeer(cfg keppel.Configuration,
    db *keppel.DB) error]: [db.Begin], the clock, [tx.SelectOne] and, for
    the peer selected, [tasks.IssueNewPasswordForPeer]; nothing is written
    before that call, so that the rollbacks leave the table as it is. *)
Definition tryIssueNewPasswordForPeer (w : World) : option error * World :=
  match dbFault env (dbCalls w) with
  | Some err => (Some err, tickDb w)
  | None =>
      let w := tickDb w in
      let cutoff := timeNow env (clockReads w) + -10 * time_Minute in
      let w := tickClock w in
      let selected :=
        match dbFault env (dbCalls w) with
        | Some err => inl err
        | None =>
            match getNextPeerQuery (lockedByOthers env) cutoff (peers w) with
            | [] => inl sql_ErrNoRows
            | peer :: _ => inr peer
            end
        end in
      let w := tickDb w in
      match selected with
      | inl sql_ErrNoRows => (None, w)
      | inl err => (Some err, w)
      | inr peer =>
          let '(err, rows) := IssueNewPasswordForPeer peer (peers w) in
          (err, recordIssue (withPeers w rows) peer)
      end
  end.

End Command.

(** *** Notions that the properties are stated with *)

(** The host names that [runPeering] reads from the value of
    [KEPPEL_PEERS]. *)
Definition peerHostNames (value : string) : list string :=
  filter (λ hostName, hostName ≠ "")
         (strings_TrimSpace <$> strings_Split "," value).

(** The first row of a list ranks before every row of it. *)
Definition headFirst (l : list Peer) : Prop :=
  match l with
  | [] => True
  | x :: _ => ∀ y, y ∈ l → peerOrderLe x y = true
  end.

(** The peer is due at the cutoff time: it was never peered with, or
    last before the cutoff. *)
Definition due (cutoff : Time) (p : Peer) : Prop :=
  LastPeeredAt p = None ∨ ∃ t, LastPeeredAt p = Some t ∧ t < cutoff.

(** *** The host names *)

Lemma peerHostNamesLoop_spec (pieces : list string) :
  ∀ acc, peerHostNamesLoop pieces acc
         = (acc ++ filter (λ hostName, hostName ≠ "")
                          (strings_TrimSpace <$> pieces))%list.
Proof.
  induction pieces as [|piece rest IH]; intros acc; cbn [peerHostNamesLoop].
  - by rewrite app_nil_r.
  - cbv zeta. rewrite fmap_cons, filter_cons.
    destruct (String.eqb (strings_TrimSpace piece) "") eqn:Hempty.
    + apply String.eqb_eq in Hempty. cbn [negb].
      rewrite decide_False by (by intros Hne). apply IH.
    + apply String.eqb_neq in Hempty. cbn [negb].
      rewrite decide_True by done. rewrite IH. by rewrite <- app_assoc.
Qed.

Lemma peerHostNamesLoop_peerHostNames (value : string) :
  peerHostNamesLoop (strings_Split "," value) [] = peerHostNames value.
Proof. by rewrite peerHostNamesLoop_spec. Qed.

Lemma noByte_trimLeft (b : ascii) (s : string) :
  noByte b s = true → noByte b (trimLeft s) = true.
Proof.
  induction s as [|c s IH]; [done|]. cbn [trimLeft]. intros Hno.
  destruct (asciiSpace c); [|done].
  cbn [noByte] in Hno. apply andb_true_iff in Hno as [_ Hno]. by apply IH.
Qed.

Lemma noByte_trimRight (b : ascii) (s : string) :
  noByte b s = true → noByte b (trimRight s) = true.
Proof.
  induction s as [|c s IH]; [done|]. cbn [trimRight noByte].
  intros [Hc Hno]%andb_true_iff. specialize (IH Hno).
  destruct (trimRight s) as [|k kept].
  - destruct (asciiSpace c); [done|]. cbn [noByte]. by rewrite Hc.
  - cbn [noByte] in *. by rewrite Hc, IH.
Qed.

Lemma peerHostNames_spec (value hostName : string) :
  hostName ∈ peerHostNames value →
  hostName ≠ "" ∧ trimmed hostName ∧ noByte "," hostName = true
  ∧ ∃ piece, piece ∈ strings_Split "," value
             ∧ hostName = strings_TrimSpace piece.
Proof.
  unfold peerHostNames.
  intros [Hne (piece & -> & Hpiece)%list_elem_of_fmap]%list_elem_of_filter.
  split; [done|]. split; [apply strings_TrimSpace_trimmed|]. split.
  - unfold strings_TrimSpace. apply noByte_trimRight, noByte_trimLeft.
    pose proof (strings_Split_Join "," value) as [_ Hall].
    rewrite Forall_forall in Hall. by apply Hall.
  - by exists piece.
Qed.

(** *** Inserting the peers *)

Lemma insertPeerQuery_present (hostname : string) (rows : list Peer) :
  hostname ∈ HostName <$> rows → insertPeerQuery hostname rows = rows.
Proof. intros Hin. unfold insertPeerQuery. by rewrite bool_decide_eq_true_2. Qed.

Lemma insertPeerQuery_hostnames (hostname h : string) (rows : list Peer) :
  h ∈ HostName <$> insertPeerQuery hostname rows
  ↔ h ∈ HostName <$> rows ∨ h = hostname.
Proof.
  unfold insertPeerQuery. case_bool_decide as Hin.
  - split; [by left|]. by intros [?| ->].
  - rewrite fmap_app, elem_of_app. cbn [fmap list_fmap HostName].
    by rewrite list_elem_of_singleton.
Qed.

Lemma insertPeerQuery_rows (hostname : string) (rows : list Peer) (p : Peer) :
  p ∈ insertPeerQuery hostname rows
  ↔ p ∈ rows
    ∨ ((hostname ∉ HostName <$> rows) ∧ p = mkPeer hostname "" "" "" None).
Proof.
  unfold insertPeerQuery. case_bool_decide as Hin.
  - split; [by left|]. by intros [?|[? _]].
  - rewrite elem_of_app, list_elem_of_singleton. split.
    + intros [?| ->]; [by left|by right].
    + intros [?|[_ ->]]; [by left|by right].
Qed.

Lemma insertPeerQuery_prefix (hostname : string) (rows : list Peer) :
  rows `prefix_of` insertPeerQuery hostname rows.
Proof.
  unfold insertPeerQuery. case_bool_decide; [done|]. by apply prefix_app_r.
Qed.

Lemma insertPeerQuery_NoDup (hostname : string) (rows : list Peer) :
  NoDup (HostName <$> rows) →
  NoDup (HostName <$> insertPeerQuery hostname rows).
Proof.
  intros Hnd. unfold insertPeerQuery. case_bool_decide as Hin; [done|].
  rewrite fmap_app. apply NoDup_app. split; [done|].
  split; [|apply NoDup_singleton].
  intros h Hh ->%list_elem_of_singleton. done.
Qed.

(** The table after the peers of [hostnames] were inserted one by one. *)
Definition insertPeers (hostnames : list string) (rows : list Peer) : list Peer :=
  foldl (λ rows hostname, insertPeerQuery hostname rows) rows hostnames.

Lemma insertPeers_spec (hostnames : list string) :
  ∀ rows,
    rows `prefix_of` insertPeers hostnames rows
    ∧ (∀ h, h ∈ HostName <$> insertPeers hostnames rows
            ↔ h ∈ HostName <$> rows ∨ h ∈ hostnames)
    ∧ (∀ p, p ∈ insertPeers hostnames rows →
            p ∈ rows
            ∨ (HostName p ∈ hostnames
               ∧ (HostName p ∉ HostName <$> rows)
               ∧ p = mkPeer (HostName p) "" "" "" None))
    ∧ (NoDup (HostName <$> rows) →
       NoDup (HostName <$> insertPeers hostnames rows)).
Proof.
  induction hostnames as [|hostname rest IH]; intros rows;
    cbn [insertPeers foldl].
  - split; [done|]. split; [|split; [by left|done]].
    intros h. rewrite elem_of_nil. tauto.
  - destruct (IH (insertPeerQuery hostname rows)) as (Hpre & Hnames & Hrows & Hnd).
    fold (insertPeers rest (insertPeerQuery hostname rows)) in *.
    split; [|split; [|split]].
    + etrans; [apply insertPeerQuery_prefix|exact Hpre].
    + intros h. rewrite Hnames, insertPeerQuery_hostnames, elem_of_cons. tauto.
    + intros p [Hp|(Hin & Hnew & Hp)]%Hrows.
      * apply insertPeerQuery_rows in Hp as [?|[Hnew ->]]; [by left|].
        right. cbn [HostName]. by repeat split; [apply list_elem_of_here|..].
      * right. split; [by apply list_elem_of_further|]. split; [|done].
        intros Hold. apply Hnew. apply insertPeerQuery_hostnames. by left.
    + intros Hrows0. by apply Hnd, insertPeerQuery_NoDup.
Qed.

Lemma insertPeers_present (hostnames : list string) :
  ∀ rows, (∀ h, h ∈ hostnames → h ∈ HostName <$> rows) →
          insertPeers hostnames rows = rows.
Proof.
  induction hostnames as [|hostname rest IH]; intros rows Hall; [done|].
  cbn [insertPeers foldl].
  rewrite insertPeerQuery_present by (apply Hall, list_elem_of_here).
  apply IH. intros h Hh. by apply Hall, list_elem_of_further.
Qed.

Section CommandFacts.

Variable env : Env.
Variable IssueNewPasswordForPeer : Peer → list Peer → option error * list Peer.

Lemma insertPeersLoop_no_fault (hostnames : list string) :
  (∀ n, dbFault env n = None) →
  ∀ w, insertPeersLoop env hostnames w
       = (Returned,
          mkWorld (insertPeers hostnames (peers w))
                  (length hostnames + dbCalls w)%nat
                  (clockReads w) (tickerStarted w) (issuedFor w)).
Proof.
  intros Hfault. induction hostnames as [|hostname rest IH]; intros w.
  - by destruct w.
  - cbn [insertPeersLoop]. rewrite Hfault, IH.
    cbn [peers dbCalls clockReads tickerStarted issuedFor tickDb withPeers
         insertPeers foldl length].
    do 2 f_equal. lia.
Qed.

(** X22. What [runPeering] does to the table [peers]. With a value of
    [KEPPEL_PEERS] made of ASCII characters and a database that does not
    fail, [runPeering] adds one row, with the defaults of the table, for
    each host name of the value that the table does not hold yet, and
    changes and removes no row: the table it finds is a prefix of the
    table it leaves. The host names are the pieces of the value between
    commas, with leading and trailing space removed and the empty ones
    dropped. Host names stay unique, the goroutine is started exactly when
    the value yields a host name, and running [runPeering] again leaves
    the table as it is. *)
Theorem runPeering_registers_peers (w : World) :
  isASCII (KEPPEL_PEERS env) = true →
  (∀ n, dbFault env n = None) →
  (runPeering env w).1 = Returned
  ∧ peers w `prefix_of` peers (runPeering env w).2
  ∧ (∀ h, h ∈ HostName <$> peers (runPeering env w).2
          ↔ h ∈ HostName <$> peers w ∨ h ∈ peerHostNames (KEPPEL_PEERS env))
  ∧ (∀ p, p ∈ peers (runPeering env w).2 →
          p ∈ peers w
          ∨ (HostName p ∈ peerHostNames (KEPPEL_PEERS env)
             ∧ (HostName p ∉ HostName <$> peers w)
             ∧ p = mkPeer (HostName p) "" "" "" None))
  ∧ (NoDup (HostName <$> peers w) →
     NoDup (HostName <$> peers (runPeering env w).2))
  ∧ (∀ h, h ∈ peerHostNames (KEPPEL_PEERS env) →
          h ≠ "" ∧ trimmed h ∧ noByte "," h = true)
  ∧ tickerStarted (runPeering env w).2
    = tickerStarted w
      || negb (bool_decide (peerHostNames (KEPPEL_PEERS env) = []))
  ∧ peers (runPeering env (runPeering env w).2).2
    = peers (runPeering env w).2.
Proof.
  intros _ Hfault.
  assert (Hrun : ∀ w0,
            runPeering env w0
            = match peerHostNames (KEPPEL_PEERS env) with
              | [] => (Returned, w0)
              | _ =>
                  (Returned,
                   mkWorld (insertPeers (peerHostNames (KEPPEL_PEERS env))
                              (peers w0))
                     (length (peerHostNames (KEPPEL_PEERS env)) + dbCalls w0)%nat
                     (clockReads w0) true (issuedFor w0))
              end).
  { intros w0. unfold runPeering. cbv zeta.
    rewrite peerHostNamesLoop_peerHostNames.
    destruct (peerHostNames (KEPPEL_PEERS env)) as [|h hs] eqn:Hhosts; [done|].
    by rewrite (insertPeersLoop_no_fault (h :: hs) Hfault). }
  assert (Hpeers : ∀ w0,
            peers (runPeering env w0).2
            = insertPeers (peerHostNames (KEPPEL_PEERS env)) (peers w0)).
  { intros w0. rewrite Hrun.
    by destruct (peerHostNames (KEPPEL_PEERS env)). }
  destruct (insertPeers_spec (peerHostNames (KEPPEL_PEERS env)) (peers w))
    as (Hpre & Hnames & Hrows & Hnd).
  rewrite !Hpeers.
  split; [|split; [|split; [|split; [|split; [|split; [|split]]]]]]; try done.
  - rewrite Hrun. by destruct (peerHostNames (KEPPEL_PEERS env)).
  - intros h Hh. by destruct (peerHostNames_spec _ _ Hh) as (? & ? & ? & _).
  - rewrite Hrun. destruct (peerHostNames (KEPPEL_PEERS env)); cbn.
    + by rewrite orb_false_r.
    + by rewrite orb_true_r.
  - apply insertPeers_present. intros h Hh. apply Hnames. by right.
Qed.

(** *** The next peer *)

Lemma getNextPeerWhere_true (cutoff : Time) (p : Peer) :
  Tasks.sql_true (getNextPeerWhere cutoff p) = true ↔ due cutoff p.
Proof.
  unfold getNextPeerWhere, due.
  destruct (LastPeeredAt p) as [t|]; cbn.
  - destruct (t <? cutoff) eqn:Hlt; cbn.
    + apply Z.ltb_lt in Hlt. split; [|done]. intros _. right. by exists t.
    + apply Z.ltb_ge in Hlt. split; [done|].
      intros [?|(t' & [= <-] & ?)]; [done|lia].
  - split; [by left|done].
Qed.

Lemma peerOrderLe_total (a b : Peer) :
  peerOrderLe a b = true ∨ peerOrderLe b a = true.
Proof.
  unfold peerOrderLe.
  destruct (Z.leb_spec (peerOrderKey a) (peerOrderKey b)); [by left|].
  right. apply Z.leb_le. lia.
Qed.

Lemma peerOrderLe_trans (a b c : Peer) :
  peerOrderLe a b = true → peerOrderLe b c = true → peerOrderLe a c = true.
Proof. unfold peerOrderLe. rewrite !Z.leb_le. lia. Qed.

Lemma insertOrdered_peer_elem (p x : Peer) (l : list Peer) :
  x ∈ insertOrdered p l ↔ x = p ∨ x ∈ l.
Proof.
  induction l as [|y l IH]; cbn [insertOrdered].
  - rewrite list_elem_of_singleton, elem_of_nil. tauto.
  - destruct (peerOrderLe p y).
    + by rewrite elem_of_cons.
    + rewrite !elem_of_cons, IH. tauto.
Qed.

Lemma orderByLastPeered_elem (x : Peer) (l : list Peer) :
  x ∈ orderByLastPeered l ↔ x ∈ l.
Proof.
  induction l as [|y l IH]; [done|].
  cbn [orderByLastPeered foldr]. fold (orderByLastPeered l).
  rewrite insertOrdered_peer_elem, elem_of_cons, IH. tauto.
Qed.

Lemma insertOrdered_peer_headFirst (p : Peer) (l : list Peer) :
  headFirst l → headFirst (insertOrdered p l).
Proof.
  destruct l as [|x l]; cbn [insertOrdered headFirst].
  - intros _ y ->%list_elem_of_singleton. unfold peerOrderLe.
    apply Z.leb_refl.
  - intros Hhead. destruct (peerOrderLe p x) eqn:Hpx; cbn [headFirst].
    + intros y [->|Hy]%elem_of_cons.
      * unfold peerOrderLe. apply Z.leb_refl.
      * by apply (peerOrderLe_trans p x y), Hhead.
    + intros y [->|Hy]%elem_of_cons.
      * apply Hhead, list_elem_of_here.
      * apply insertOrdered_peer_elem in Hy as [->|Hy].
        -- by destruct (peerOrderLe_total x p) as [?|?]; [|congruence].
        -- apply Hhead. by apply list_elem_of_further.
Qed.

Lemma orderByLastPeered_headFirst (l : list Peer) :
  headFirst (orderByLastPeered l).
Proof.
  induction l as [|x l IH]; [done|].
  cbn [orderByLastPeered foldr]. by apply insertOrdered_peer_headFirst.
Qed.

Lemma getNextPeerQuery_spec (locked : Peer → bool) (cutoff : Time)
    (rows : list Peer) :
  (getNextPeerQuery locked cutoff rows = []
   ∧ ∀ p, p ∈ rows → ¬ (due cutoff p ∧ locked p = false))
  ∨ ∃ peer,
      getNextPeerQuery locked cutoff rows = [peer]
      ∧ peer ∈ rows ∧ due cutoff peer ∧ locked peer = false
      ∧ ∀ p, p ∈ rows → due cutoff p → locked p = false →
             peerOrderKey peer ≤ peerOrderKey p.
Proof.
  unfold getNextPeerQuery.
  pose proof (orderByLastPeered_headFirst
                (filter (selectable locked cutoff) rows)) as Hhead.
  assert (Hin : ∀ p, p ∈ orderByLastPeered (filter (selectable locked cutoff) rows)
                     ↔ p ∈ rows ∧ due cutoff p ∧ locked p = false).
  { intros p. rewrite orderByLastPeered_elem, list_elem_of_filter.
    unfold selectable. rewrite getNextPeerWhere_true. tauto. }
  destruct (orderByLastPeered (filter (selectable locked cutoff) rows))
    as [|peer sorted].
  - left. split; [done|]. intros p Hp Hsel.
    by apply (elem_of_nil p), Hin.
  - right. exists peer. split; [done|].
    destruct (proj1 (Hin peer) (list_elem_of_here _ _)) as (Hrow & Hdue & Hfree).
    split; [done|]. split; [done|]. split; [done|].
    intros p Hp Hpdue Hpfree. apply Z.leb_le. apply Hhead. by apply Hin.
Qed.

(** X23. The peer that gets a new password. With a database that does not
    fail, [tryIssueNewPasswordForPeer] calls
    [tasks.IssueNewPasswordForPeer] at most once, for a peer of the table
    that no other transaction has locked and that was never peered with,
    or last more than 10 minutes before the clock reading; among those,
    it is one with the least [last_peered_at], a peer never peered with
    counting as peered at one second before the epoch. The function then
    returns what that call returns. When no such peer exists, it returns
    nil, calls nothing and leaves the table as it is. *)
Theorem tryIssueNewPasswordForPeer_selects (w : World) :
  (∀ n, dbFault env n = None) →
  ((∀ p, p ∈ peers w →
         ¬ (due (timeNow env (clockReads w) - 600) p
            ∧ lockedByOthers env p = false))
   ∧ (tryIssueNewPasswordForPeer env IssueNewPasswordForPeer w).1 = None
   ∧ peers (tryIssueNewPasswordForPeer env IssueNewPasswordForPeer w).2
     = peers w
   ∧ issuedFor (tryIssueNewPasswordForPeer env IssueNewPasswordForPeer w).2
     = issuedFor w)
  ∨ ∃ peer,
      peer ∈ peers w
      ∧ due (timeNow env (clockReads w) - 600) peer
      ∧ lockedByOthers env peer = false
      ∧ (∀ p, p ∈ peers w →
              due (timeNow env (clockReads w) - 600) p →
              lockedByOthers env p = false →
              peerOrderKey peer ≤ peerOrderKey p)
      ∧ (tryIssueNewPasswordForPeer env IssueNewPasswordForPeer w).1
        = (IssueNewPasswordForPeer peer (peers w)).1
      ∧ peers (tryIssueNewPasswordForPeer env IssueNewPasswordForPeer w).2
        = (IssueNewPasswordForPeer peer (peers w)).2
      ∧ issuedFor (tryIssueNewPasswordForPeer env IssueNewPasswordForPeer w).2
        = (issuedFor w ++ [peer])%list.
Proof.
  intros Hfault. unfold tryIssueNewPasswordForPeer. cbv zeta.
  rewrite !Hfault. cbn [peers dbCalls clockReads tickDb tickClock].
  change (timeNow env (clockReads w) + -10 * time_Minute)
    with (timeNow env (clockReads w) + -600).
  replace (timeNow env (clockReads w) + -600)
    with (timeNow env (clockReads w) - 600) by lia.
  destruct (getNextPeerQuery_spec (lockedByOthers env)
              (timeNow env (clockReads w) - 600) (peers w))
    as [[-> Hnone]|(peer & -> & Hrow & Hdue & Hfree & Hleast)].
  - left. by repeat split.
  - right. exists peer. do 4 (split; [done|]).
    by destruct (IssueNewPasswordForPeer peer (peers w)) as [err rows].
Qed.

End CommandFacts.

(** *** The functions on an example *)

Lemma runPeering_registers_peers_witness :
  peers (runPeering exampleEnv (freshWorld examplePeers)).2
  = (examplePeers ++ [mkPeer "keppel.example.net" "" "" "" None])%list
  ∧ tickerStarted (runPeering exampleEnv (freshWorld examplePeers)).2 = true.
Proof.
  pose proof (runPeering_registers_peers exampleEnv (freshWorld examplePeers)
                eq_refl (λ _, eq_refl))
    as (_ & _ & _ & _ & _ & _ & Hticker & _).
  split; [vm_compute; reflexivity|]. rewrite Hticker. vm_compute. reflexivity.
Defined.

Lemma tryIssueNewPasswordForPeer_selects_witness :
  issuedFor
    (tryIssueNewPasswordForPeer exampleEnv (λ _ rows, (None, rows))
       (freshWorld examplePeers)).2
  = [mkPeer "keppel.example.com" "" "" "" None].
Proof.
  destruct (tryIssueNewPasswordForPeer_selects exampleEnv (λ _ rows, (None, rows))
              (freshWorld examplePeers) (λ _, eq_refl))
    as [(Hnone & _)|(peer & _ & _ & _ & _ & _ & _ & Hissued)].
  - exfalso. apply (Hnone (mkPeer "keppel.example.com" "" "" "" None)).
    + unfold examplePeers. cbn [peers freshWorld]. elem_of_literal.
    + split; [by left|reflexivity].
  - vm_compute. reflexivity.
Defined.

End Peering.


(* ===================================================================== *)
(** ** Package client: downloading blobs and manifests                    *)
(* ===================================================================== *)

Module Client.

Import Go.

(** *** Requests, responses and bodies *)

(** [http.Header] is [map[string][]string]; [Get] returns the first value
    of the key, which is given in its canonical form, or the empty
    string. *)
Definition http_Header_Get (h : gmap string (list string)) (key : string)
    : string :=
  match h !! key with
  | Some (x :: _) => x
  | _ => ""
  end.

(** [Header.Set(key, value)] for a key in its canonical form. *)
Definition http_Header_Set (h : gmap string (list string)) (key value : string)
    : gmap string (list string) :=
  <[key := [value]]> h.

Definition http_StatusOK : Z := 200.

(** [type repoRequest struct], with the fields that the two functions
    set. *)
Record repoRequest : Type := mkRepoRequest {
  Method : string;
  Path : string;
  Headers : gmap string (list string);
  ExpectStatus : Z
}.

(** [resp.Body]: which body it is, what [io.ReadAll] yields on it and
    what [Close] returns. *)
Record Body : Set := mkBody {
  bodyID : nat;
  readAll : error + string;
  closeResult : option error
}.

Record Response : Type := mkResponse {
  Header : gmap string (list string);
  RespBody : Body
}.

(** [type DownloadManifestOpts struct] *)
Record DownloadManifestOpts : Type := mkDownloadManifestOpts {
  DoNotCountTowardsLastPulled : bool;
  ExtraHeaders : gmap string (list string)
}.

(** The zero value [&DownloadManifestOpts{}], which stands in for nil. *)
Definition zeroOpts : DownloadManifestOpts := mkDownloadManifestOpts false ∅.

(** The errors that the functions return: the one of [doRequest], the
    [*NumError] of [strconv.ParseUint], or the one of reading or closing
    the body. *)
Inductive downloadError : Set :=
  | RequestError (err : error)
  | ContentLengthError (err : Pagination.NumError)
  | BodyError (err : error).

(** What the functions act on: the requests sent and the bodies closed,
    each in the order of the calls. *)
Record World : Type := mkWorld {
  requests : list repoRequest;
  closed : list nat
}.

Definition send (w : World) (req : repoRequest) : World :=
  mkWorld (requests w ++ [req]) (closed w).

Definition close (w : World) (body : Body) : World :=
  mkWorld (requests w) (closed w ++ [bodyID body]).

(** The loop [for k, v := range opts.ExtraHeaders], over the entries in
    the order in which the map yields them. *)
Fixpoint extraHeadersLoop (entries : list (string * list string))
    (hdr : gmap string (list string)) : gmap string (list string) :=
  match entries with
  | [] => hdr
  | (k, v) :: rest =>
      if (0 <? length v)%nat then extraHeadersLoop rest (<[k := v]> hdr)
      else extraHeadersLoop rest hdr
  end.

(** *** A concrete registry *)

Definition exampleBody : Body := mkBody 7 (inr "manifest") None.

Definition exampleOpts : DownloadManifestOpts :=
  mkDownloadManifestOpts true
    {[ "Accept" := ["application/vnd.oci.image.manifest.v1+json"];
       "X-Empty" := [] ]}.

Definition exampleDoRequest (req : repoRequest) : error + Response :=
  if String.eqb (Method req) "GET"
  then inr (mkResponse {[ "Content-Length" := ["8"];
                          "Content-Type" := ["application/json"] ]}
                       exampleBody)
  else inl (errorString "method not allowed").

Section RepoClient.

(** [c.doRequest], and [distribution.ManifestMediaTypes()]. *)
Variable doRequest : repoRequest → error + Response.
Variable ManifestMediaTypes : list string.

(** [func (c *RepoClient) DownloadBlob(blobDigest digest.Digest)
    (contents io.ReadCloser, sizeBytes uint64, returnErr error)] *)
Definition DownloadBlob (blobDigest : string) (w : World)
    : (downloadError + Body * N) * World :=
  let req := mkRepoRequest "GET" ("blobs/" +:+ blobDigest) ∅ http_StatusOK in
  let w := send w req in
  match doRequest req with
  | inl err => (inl (RequestError err), w)
  | inr resp =>
      match Pagination.ParseUint (http_Header_Get (Header resp) "Content-Length") with
      | inl err => (inl (ContentLengthError err), close w (RespBody resp))
      | inr sizeBytes => (inr (RespBody resp, sizeBytes), w)
      end
  end.

(** [func (c *RepoClient) DownloadManifest(reference
    keppel.ManifestReference, opts *DownloadManifestOpts) (contents []byte,
    mediaType string, returnErr error)]; [reference] is the text that
    [reference.String()] gives, [opts] is [None] for nil, and [rangeOrder]
    is the order in which the map [opts.ExtraHeaders] yields its entries. *)
Definition DownloadManifest (reference : string)
    (opts : option DownloadManifestOpts)
    (rangeOrder : list (string * list string)) (w : World)
    : (downloadError + string * string) * World :=
  let opts := default zeroOpts opts in
  let hdr : gmap string (list string) := {[ "Accept" := ManifestMediaTypes ]} in
  let hdr :=
    if DoNotCountTowardsLastPulled opts
    then http_Header_Set hdr "X-Keppel-No-Count-Towards-Last-Pulled" "1"
    else hdr in
  let hdr := extraHeadersLoop rangeOrder hdr in
  let req := mkRepoRequest "GET" ("manifests/" +:+ reference) hdr http_StatusOK in
  let w := send w req in
  match doRequest req with
  | inl err => (inl (RequestError err), w)
  | inr resp =>
      let w := close w (RespBody resp) in
      match readAll (RespBody resp) with
      | inl err => (inl (BodyError err), w)
      | inr respBytes =>
          match closeResult (RespBody resp) with
          | Some err => (inl (BodyError err), w)
          | None =>
              (inr (respBytes, http_Header_Get (Header resp) "Content-Type"), w)
          end
      end
  end.

End RepoClient.

(** *** Notions that the properties are stated with *)

(** The header that [DownloadManifest] sends under a key. *)
Definition manifestRequestHeader (ManifestMediaTypes : list string)
    (opts : DownloadManifestOpts) (key : string) : option (list string) :=
  match ExtraHeaders opts !! key with
  | Some (x :: v) => Some (x :: v)
  | _ =>
      if String.eqb key "Accept" then Some ManifestMediaTypes
      else if String.eqb key "X-Keppel-No-Count-Towards-Last-Pulled"
              && DoNotCountTowardsLastPulled opts
      then Some ["1"]
      else None
  end.

(** *** The extra headers *)

Lemma extraHeadersLoop_lookup (entries : list (string * list string))
    (key : string) :
  NoDup entries.*1 →
  ∀ hdr,
    extraHeadersLoop entries hdr !! key
    = match list_to_map (M := gmap string (list string)) entries !! key with
      | Some (x :: v) => Some (x :: v)
      | _ => hdr !! key
      end.
Proof.
  induction entries as [|[k v] rest IH]; intros Hnd hdr.
  - cbn [extraHeadersLoop list_to_map foldr]. by rewrite lookup_empty.
  - cbn [fmap list_fmap fst] in Hnd. apply NoDup_cons in Hnd as [Hk Hnd].
    cbn [extraHeadersLoop list_to_map foldr uncurry].
    fold (list_to_map (M := gmap string (list string)) rest).
    destruct (decide (k = key)) as [->|Hne].
    + rewrite lookup_insert_eq.
      assert (list_to_map (M := gmap string (list string)) rest !! key = None)
        as Hrest by by apply not_elem_of_list_to_map_1.
      destruct v as [|x v]; cbn [length Nat.ltb Nat.leb].
      * by rewrite (IH Hnd), Hrest.
      * by rewrite (IH Hnd), Hrest, lookup_insert_eq.
    + rewrite lookup_insert_ne by done.
      destruct v as [|x v]; cbn [length Nat.ltb Nat.leb]; rewrite (IH Hnd).
      * done.
      * by rewrite lookup_insert_ne.
Qed.

Section RepoClientFacts.

Variable doRequest : repoRequest → error + Response.
Variable ManifestMediaTypes : list string.

(** X24. [DownloadBlob] and the body of the response. It sends one request,
    a GET for [blobs/] followed by the digest that expects the status 200;
    when the request fails it returns that error. Otherwise it returns the
    body, not closed, with the number that the header [Content-Length]
    denotes when this is a decimal numeral of at most 2^64 - 1; for any
    other [Content-Length], a missing one included, it closes the body and
    returns the error of [strconv.ParseUint]. *)
Theorem DownloadBlob_content_length (blobDigest : string) (w : World) :
  requests (DownloadBlob doRequest blobDigest w).2
  = (requests w
     ++ [mkRepoRequest "GET" ("blobs/" +:+ blobDigest) ∅ 200])%list
  ∧ (∀ err,
       doRequest (mkRepoRequest "GET" ("blobs/" +:+ blobDigest) ∅ 200)
       = inl err →
       (DownloadBlob doRequest blobDigest w).1 = inl (RequestError err)
       ∧ closed (DownloadBlob doRequest blobDigest w).2 = closed w)
  ∧ (∀ resp,
       doRequest (mkRepoRequest "GET" ("blobs/" +:+ blobDigest) ∅ 200)
       = inr resp →
       (http_Header_Get (Header resp) "Content-Length" ≠ ""
        ∧ Pagination.allDigits (http_Header_Get (Header resp) "Content-Length")
          = true
        ∧ (Pagination.decimalValue
             (http_Header_Get (Header resp) "Content-Length")
           ≤ Pagination.maxUint64)%N →
        (DownloadBlob doRequest blobDigest w).1
        = inr (RespBody resp,
               Pagination.decimalValue
                 (http_Header_Get (Header resp) "Content-Length"))
        ∧ closed (DownloadBlob doRequest blobDigest w).2 = closed w)
       ∧ (¬ (http_Header_Get (Header resp) "Content-Length" ≠ ""
             ∧ Pagination.allDigits
                 (http_Header_Get (Header resp) "Content-Length") = true
             ∧ (Pagination.decimalValue
                  (http_Header_Get (Header resp) "Content-Length")
                ≤ Pagination.maxUint64)%N) →
          (∃ err, (DownloadBlob doRequest blobDigest w).1
                  = inl (ContentLengthError err))
          ∧ closed (DownloadBlob doRequest blobDigest w).2
            = (closed w ++ [bodyID (RespBody resp)])%list)).
Proof.
  unfold DownloadBlob. cbv zeta. change http_StatusOK with 200%Z.
  set (req := mkRepoRequest "GET" ("blobs/" +:+ blobDigest) ∅ 200).
  split; [|split].
  - by destruct (doRequest req) as [err|resp];
      [|destruct (Pagination.ParseUint _)].
  - by intros err ->.
  - intros resp ->.
    set (cl := http_Header_Get (Header resp) "Content-Length").
    split.
    + intros (Hne & Hdigits & Hfit).
      rewrite (Pagination.ParseUint_numeral cl Hne Hdigits).
      apply N.leb_le in Hfit. by rewrite Hfit.
    + intros Hnot.
      destruct (Pagination.ParseUint cl) as [err|sizeBytes] eqn:Hparse.
      { split; [by exists err|done]. }
      exfalso. apply Hnot.
      destruct (decide (cl = "")) as [Hempty|Hne].
      { rewrite Hempty in Hparse. discriminate Hparse. }
      destruct (Pagination.allDigits cl) eqn:Hdigits.
      * rewrite (Pagination.ParseUint_numeral cl Hne Hdigits) in Hparse.
        destruct (Pagination.decimalValue cl <=? Pagination.maxUint64)%N
          eqn:Hfit; [|discriminate Hparse].
        apply N.leb_le in Hfit. done.
      * destruct (Pagination.ParseUint_not_numeral cl Hdigits) as [e He].
        congruence.
Qed.

(** X25. [DownloadManifest], its headers and the body of the response. The
    request carries, under each key, the value of [ExtraHeaders] when that
    is not empty, and otherwise the media types of
    [distribution.ManifestMediaTypes()] under [Accept] and, when
    [DoNotCountTowardsLastPulled] is set, the value 1 under
    [X-Keppel-No-Count-Towards-Last-Pulled]; the order in which the map
    yields its entries has no influence. When the request succeeds the
    body is closed exactly once on every path; an error of reading goes
    before an error of closing, and without either the function returns
    what was read together with the header [Content-Type]. *)
Theorem DownloadManifest_headers_and_body (reference : string)
    (opts : option DownloadManifestOpts)
    (rangeOrder : list (string * list string)) (w : World) :
  rangeOrder ≡ₚ map_to_list (ExtraHeaders (default zeroOpts opts)) →
  ∃ req,
    requests (DownloadManifest doRequest ManifestMediaTypes reference
                opts rangeOrder w).2
    = (requests w ++ [req])%list
    ∧ Method req = "GET"
    ∧ Path req = "manifests/" +:+ reference
    ∧ ExpectStatus req = 200%Z
    ∧ (∀ key, Headers req !! key
              = manifestRequestHeader ManifestMediaTypes
                  (default zeroOpts opts) key)
    ∧ (∀ err, doRequest req = inl err →
         DownloadManifest doRequest ManifestMediaTypes reference
           opts rangeOrder w
         = (inl (RequestError err), send w req))
    ∧ (∀ resp, doRequest req = inr resp →
         closed (DownloadManifest doRequest ManifestMediaTypes reference
                   opts rangeOrder w).2
         = (closed w ++ [bodyID (RespBody resp)])%list
         ∧ (DownloadManifest doRequest ManifestMediaTypes reference
              opts rangeOrder w).1
           = match readAll (RespBody resp), closeResult (RespBody resp) with
             | inl err, _ => inl (BodyError err)
             | inr _, Some err => inl (BodyError err)
             | inr respBytes, None =>
                 inr (respBytes, http_Header_Get (Header resp) "Content-Type")
             end).
Proof.
  unfold DownloadManifest. cbv zeta.
  set (o := default zeroOpts opts). clearbody o. clear opts.
  intros Hperm.
  set (hdr0 := if DoNotCountTowardsLastPulled o
               then http_Header_Set {[ "Accept" := ManifestMediaTypes ]}
                      "X-Keppel-No-Count-Towards-Last-Pulled" "1"
               else {[ "Accept" := ManifestMediaTypes ]}).
  set (req := mkRepoRequest "GET" ("manifests/" +:+ reference)
                (extraHeadersLoop rangeOrder hdr0) http_StatusOK).
  exists req. split; [|split; [done|split; [done|split; [done|split; [|split]]]]].
  - by destruct (doRequest req) as [err|resp];
      [|destruct (readAll _); [|destruct (closeResult _)]].
  - intros key. cbn [Headers req].
    assert (Hnd : NoDup rangeOrder.*1).
    { rewrite Hperm. apply NoDup_fst_map_to_list. }
    rewrite (extraHeadersLoop_lookup rangeOrder key Hnd hdr0).
    assert (list_to_map (M := gmap string (list string)) rangeOrder
            = ExtraHeaders o) as ->.
    { apply map_eq. intros k. apply option_eq. intros v.
      rewrite <- elem_of_list_to_map by done.
      by rewrite Hperm, elem_of_map_to_list. }
    unfold manifestRequestHeader.
    destruct (ExtraHeaders o !! key) as [[|x v]|]; try done.
    all: unfold hdr0, http_Header_Set;
      destruct (String.eqb key "Accept") eqn:Haccept;
      [ apply String.eqb_eq in Haccept as ->;
        destruct (DoNotCountTowardsLastPulled o);
        [by rewrite lookup_insert_ne, lookup_singleton_eq
        |by rewrite lookup_singleton_eq]
      | apply String.eqb_neq in Haccept;
        destruct (String.eqb key "X-Keppel-No-Count-Towards-Last-Pulled")
          eqn:Hflag;
        [ apply String.eqb_eq in Hflag as ->;
          destruct (DoNotCountTowardsLastPulled o); cbn [andb];
          [by rewrite lookup_insert_eq|by rewrite lookup_singleton_ne]
        | apply String.eqb_neq in Hflag; cbn [andb];
          destruct (DoNotCountTowardsLastPulled o);
          [by rewrite lookup_insert_ne, lookup_singleton_ne
          |by rewrite lookup_singleton_ne] ] ].
  - by intros err ->.
  - intros resp ->.
    by destruct (readAll (RespBody resp)); [|destruct (closeResult _)].
Qed.

End RepoClientFacts.

(** *** The functions on an example *)

Lemma DownloadBlob_content_length_witness :
  (DownloadBlob exampleDoRequest "sha256:6b86b273" (mkWorld [] [])).1
  = inr (exampleBody, 8%N)
  ∧ closed (DownloadBlob exampleDoRequest "sha256:6b86b273" (mkWorld [] [])).2
    = [].
Proof.
  pose proof (DownloadBlob_content_length exampleDoRequest "sha256:6b86b273"
                (mkWorld [] [])) as (_ & _ & Hresp).
  destruct (Hresp (mkResponse {[ "Content-Length" := ["8"];
                                 "Content-Type" := ["application/json"] ]}
                              exampleBody) eq_refl) as [Hok _].
  vm_compute in Hok. vm_compute. apply Hok.
  split; [discriminate|]. split; [reflexivity|discriminate].
Defined.

Lemma DownloadManifest_headers_and_body_witness :
  ∃ req,
    requests (DownloadManifest exampleDoRequest ["application/json"] "latest"
                (Some exampleOpts)
                [("X-Empty", []);
                 ("Accept", ["application/vnd.oci.image.manifest.v1+json"])]
                (mkWorld [] [])).2
    = [req]
    ∧ Headers req !! "Accept"
      = Some ["application/vnd.oci.image.manifest.v1+json"]
    ∧ Headers req !! "X-Empty" = None
    ∧ Headers req !! "X-Keppel-No-Count-Towards-Last-Pulled" = Some ["1"].
Proof.
  destruct (DownloadManifest_headers_and_body exampleDoRequest
              ["application/json"] "latest" (Some exampleOpts)
              [("X-Empty", []);
               ("Accept", ["application/vnd.oci.image.manifest.v1+json"])]
              (mkWorld [] []))
    as (req & Hreq & _ & _ & _ & Hhdr & _).
  { vm_compute. apply perm_swap. }
  exists req. split; [exact Hreq|].
  rewrite !Hhdr. vm_compute. by repeat split.
Defined.

End Client.
